(** * DistrictBuilder: geographic hierarchy import and renesting

    A shallow embedding of the import/aggregation engine of
    [redistricting/management/commands/setup.py]:
    [enforce_multi], [empty_geom], [set_geounit_characteristic],
    [import_shape], [aggregate_unit] and [renest_geolevel], together with
    the parts of Python's [decimal.Decimal] these functions call.

    Python exceptions are values of [exn]; a call that can raise returns a
    [result].  Database tables are lists of rows; the primary key of a row
    is its position in the table (rows are never deleted by this code). *)

From Stdlib Require Import QArith Qround Ascii String.
From stdpp Require Import base list strings numbers sorting.

Local Open Scope string_scope.
Local Open Scope Z_scope.

(** ** Exceptions *)

Inductive exn : Type :=
| InvalidOperation      (* decimal: conversion syntax, quantize out of precision *)
| KeyError              (* dict lookup *)
| NameError             (* unbound name *)
| TypeError
| AttributeError
| IndexError
| OGRIndexError         (* Feature.get on a field that does not exist *)
| GEOSException
| DivisionByZero
| DoesNotExist          (* Model.objects.get without exactly one row *)
| DatabaseError.        (* a save the store refuses *)

Inductive result (A : Type) : Type :=
| OK (a : A)
| Raise (e : exn).
Arguments OK {A} a.
Arguments Raise {A} e.

#[global] Instance exn_eq_dec : EqDecision exn.
Proof. solve_decision. Defined.

#[global] Instance result_eq_dec {A} `{EqDecision A} : EqDecision (result A).
Proof. solve_decision. Defined.

#[global] Instance result_ret : MRet result := fun A a => OK a.
#[global] Instance result_bind : MBind result := fun A B k r =>
  match r with
  | OK a => k a
  | Raise e => Raise e
  end.

Definition of_option {A} (e : exn) (o : option A) : result A :=
  match o with
  | Some a => OK a
  | None => Raise e
  end.

(** ** decimal.Decimal (finite values) *)

(** [Decimal] keeps Python's triple: [_sign] (true for negative), the
    coefficient [_int] as a non-negative integer, and the exponent
    [_exp]; the value is [(-1)^_sign * _int * 10^_exp]. *)
Record Decimal : Type := mkDecimal {
  _sign : bool;
  _int : Z;
  _exp : Z
}.

#[global] Instance Decimal_eq_dec : EqDecision Decimal.
Proof. solve_decision. Defined.

Inductive rounding : Type :=
| ROUND_DOWN
| ROUND_HALF_EVEN.

(** The default context: 28 digits, ROUND_HALF_EVEN. *)
Definition prec : Z := 28.
Definition Emax : Z := 999999999.
Definition Emin : Z := -999999999.
Definition Etiny : Z := Emin - prec + 1.
Definition context_rounding : rounding := ROUND_HALF_EVEN.

(** [len(self._int)]: the number of decimal digits of the coefficient. *)
Fixpoint ndigits_fuel (fuel : nat) (c : Z) : Z :=
  match fuel with
  | O => 1
  | S f => if c <? 10 then 1 else 1 + ndigits_fuel f (c / 10)
  end.

Definition ndigits (c : Z) : Z := ndigits_fuel (Z.to_nat (Z.log2 c) + 1) c.

(** [self.adjusted()] *)
Definition adjusted (d : Decimal) : Z := _exp d + ndigits (_int d) - 1.

(** *** Parsing: [Decimal(str)] *)

Definition is_digit (c : ascii) : bool :=
  let n := Z.of_nat (nat_of_ascii c) in (48 <=? n) && (n <=? 57).

Definition digit_value (c : ascii) : Z := Z.of_nat (nat_of_ascii c) - 48.

(** str.strip() with no argument removes these characters. *)
Definition is_space (c : ascii) : bool :=
  let n := Z.of_nat (nat_of_ascii c) in
  (n =? 32) || ((9 <=? n) && (n <=? 13)).

Fixpoint lstrip (p : ascii -> bool) (s : string) : string :=
  match s with
  | String c r => if p c then lstrip p r else s
  | EmptyString => EmptyString
  end.

Fixpoint rstrip (p : ascii -> bool) (s : string) : string :=
  match s with
  | String c r =>
      match rstrip p r with
      | EmptyString => if p c then EmptyString else String c EmptyString
      | r' => String c r'
      end
  | EmptyString => EmptyString
  end.

Definition strip (p : ascii -> bool) (s : string) : string :=
  rstrip p (lstrip p s).

(** Longest prefix of digits and the remainder. *)
Fixpoint take_digits (s : string) : string * string :=
  match s with
  | String c r =>
      if is_digit c then
        let '(d, rest) := take_digits r in (String c d, rest)
      else (EmptyString, s)
  | EmptyString => (EmptyString, EmptyString)
  end.

(** [int(digits)] *)
Fixpoint int_of_digits (acc : Z) (s : string) : Z :=
  match s with
  | String c r => int_of_digits (10 * acc + digit_value c) r
  | EmptyString => acc
  end.

Definition take_sign (s : string) : bool * string :=
  match s with
  | String "-" r => (true, r)
  | String "+" r => (false, r)
  | _ => (false, s)
  end.

(** The optional exponent part of the numeric-string syntax: the letter E
    in either case, an optional sign, at least one digit, and nothing
    after it. *)
Definition parse_exponent (s : string) : option Z :=
  match s with
  | EmptyString => Some 0
  | String c r =>
      if bool_decide (c = "E"%char) || bool_decide (c = "e"%char) then
        let '(neg, r1) := take_sign r in
        let '(ds, r2) := take_digits r1 in
        match ds, r2 with
        | String _ _, EmptyString =>
            Some (if neg then - int_of_digits 0 ds else int_of_digits 0 ds)
        | _, _ => None
        end
      else None
  end.

(** [Decimal(value)] for a string [value]: after [value.strip()], an
    optional sign, digits with an optional decimal point (a digit on at
    least one side of it), and the optional exponent part.  [None]
    is the ConversionSyntax error, which the default context raises as
    [InvalidOperation].  Python's constructor also accepts the literals
    of the infinities and of NaNs and builds special values from them;
    special values are not part of this development, which is of finite
    decimals: the function gives [None] on those literals too, and
    where a statement concludes [InvalidOperation] from a literal, the
    literal is not one of them.  The optional second argument of the
    constructor (a context) is only consulted to report a syntax
    error. *)
Definition Decimal_of_string (value : string) : option Decimal :=
  let s := strip is_space value in
  let '(neg, s1) := take_sign s in
  let '(intpart, s2) := take_digits s1 in
  let '(fracpart, s3) :=
    match s2 with
    | String "." r => take_digits r
    | _ => (EmptyString, s2)
    end in
  match intpart, fracpart with
  | EmptyString, EmptyString => None
  | _, _ =>
      match parse_exponent s3 with
      | Some e =>
          Some (mkDecimal neg (int_of_digits 0 (intpart +:+ fracpart))
                          (e - Z.of_nat (String.length fracpart)))
      | None => None
      end
  end.

(** *** Rounding: [_rescale] and [quantize] *)

(** [self._rescale(exp, rounding)] on the integer coefficient: digits are
    appended when the exponent decreases, dropped and rounded when it
    increases. *)
Definition _rescale (self : Decimal) (exp : Z) (r : rounding) : Decimal :=
  if _int self =? 0 then mkDecimal (_sign self) 0 exp
  else if exp <=? _exp self then
    mkDecimal (_sign self) (_int self * 10 ^ (_exp self - exp)) exp
  else
    let k := exp - _exp self in
    let q := _int self / 10 ^ k in
    let rest := _int self mod 10 ^ k in
    let coeff :=
      match r with
      | ROUND_DOWN => q
      | ROUND_HALF_EVEN =>
          if 10 ^ k <? 2 * rest then q + 1
          else if 2 * rest =? 10 ^ k then (if Z.even q then q else q + 1)
          else q
      end in
    mkDecimal (_sign self) coeff exp.

(** [self.quantize(exp)] with the rounding taken from the context when the
    caller passes none. *)
Definition quantize (self exp : Decimal) (r : option rounding) : result Decimal :=
  let r := default context_rounding r in
  if negb ((Etiny <=? _exp exp) && (_exp exp <=? Emax)) then Raise InvalidOperation
  else if _int self =? 0 then OK (mkDecimal (_sign self) 0 (_exp exp))
  else if Emax <? adjusted self then Raise InvalidOperation
  else if prec <? adjusted self - _exp exp + 1 then Raise InvalidOperation
  else
    let ans := _rescale self (_exp exp) r in
    if Emax <? adjusted ans then Raise InvalidOperation
    else if prec <? ndigits (_int ans) then Raise InvalidOperation
    else OK ans.

(** [self > 0] *)
Definition Decimal_gt_0 (d : Decimal) : bool := negb (_sign d) && (0 <? _int d).

(** [bool(self)] *)
Definition Decimal_nonzero (d : Decimal) : bool := negb (_int d =? 0).

(** *** Division: [self / other] *)

(** [self._fix(context)] for a finite value: a coefficient longer than
    [prec] digits is rounded to [prec] digits with the context's rounding.
    The exponents met here come from values quantized at four places, far
    from [Emin] and [Emax]; overflow and subnormal handling is left out. *)
Definition _fix (d : Decimal) : Decimal :=
  if _int d =? 0 then d
  else
    let exp_min := ndigits (_int d) + _exp d - prec in
    if _exp d <? exp_min then
      let ans := _rescale d exp_min context_rounding in
      if prec <? ndigits (_int ans)
      then mkDecimal (_sign ans) (_int ans / 10) (exp_min + 1)
      else ans
    else d.

(** The loop of an exact division that brings the exponent as close to the
    ideal one as trailing zeros allow. *)
Fixpoint strip_zeros (fuel : nat) (coeff exp ideal_exp : Z) : Z * Z :=
  match fuel with
  | O => (coeff, exp)
  | S f =>
      if (exp <? ideal_exp) && (coeff mod 10 =? 0)
      then strip_zeros f (coeff / 10) (exp + 1) ideal_exp
      else (coeff, exp)
  end.

Definition __div__ (self other : Decimal) : result Decimal :=
  let sign := xorb (_sign self) (_sign other) in
  if _int other =? 0 then Raise DivisionByZero
  else if _int self =? 0 then OK (_fix (mkDecimal sign 0 (_exp self - _exp other)))
  else
    let shift := ndigits (_int other) - ndigits (_int self) + prec + 1 in
    let exp := _exp self - _exp other - shift in
    let '(coeff, remainder) :=
      if 0 <=? shift
      then Z.div_eucl (_int self * 10 ^ shift) (_int other)
      else Z.div_eucl (_int self) (_int other * 10 ^ (- shift)) in
    let '(coeff, exp) :=
      if negb (remainder =? 0)
      then ((if coeff mod 5 =? 0 then coeff + 1 else coeff), exp)
      else
        let ideal_exp := _exp self - _exp other in
        strip_zeros (Z.to_nat (ideal_exp - exp)) coeff exp ideal_exp in
    OK (_fix (mkDecimal sign coeff exp)).

(** ** Python values held in the fields the code assigns *)

(** The two kinds of value the code puts in [number] and [percentage]: a
    [Decimal], or a string literal such as ['0000.00000000'] or ['0.0']. *)
Inductive pyval : Type :=
| PyStr (s : string)
| PyDecimal (d : Decimal).

#[global] Instance pyval_eq_dec : EqDecision pyval.
Proof. solve_decision. Defined.

(** ** GEOS geometries *)

Definition coord : Type := Q * Q.

(** The geometry classes of [django.contrib.gis.geos], with the data their
    constructors hold.  A polygon is its list of rings, the shell first (no
    ring at all for the empty polygon); a multi-geometry holds the data of
    its members, which are all of one class; a collection holds geometries
    of any class. *)
#[warnings="-register-all"]
Inductive shape : Type :=
| Point (xy : option coord)
| LineString (points : list coord)
| LinearRing (points : list coord)
| Polygon (rings : list (list coord))
| MultiPoint (members : list coord)
| MultiLineString (members : list (list coord))
| MultiPolygon (members : list (list (list coord)))
| GeometryCollection (members : list shape).

Record GEOSGeometry : Type := mkGeom {
  geom_shape : shape;
  srid : option Z
}.

Inductive GeomType : Type :=
| TPoint | TLineString | TLinearRing | TPolygon
| TMultiPoint | TMultiLineString | TMultiPolygon | TGeometryCollection.

#[global] Instance GeomType_eq_dec : EqDecision GeomType.
Proof. solve_decision. Defined.

Definition shape_type (s : shape) : GeomType :=
  match s with
  | Point _ => TPoint
  | LineString _ => TLineString
  | LinearRing _ => TLinearRing
  | Polygon _ => TPolygon
  | MultiPoint _ => TMultiPoint
  | MultiLineString _ => TMultiLineString
  | MultiPolygon _ => TMultiPolygon
  | GeometryCollection _ => TGeometryCollection
  end.

Definition geom_type (g : GEOSGeometry) : GeomType := shape_type (geom_shape g).

(** [len(geom)]: the dimension of a point (0 when empty), the number of
    points of a line, the number of interior rings plus one of a polygon,
    the number of members of a collection. *)
Definition shape_len (s : shape) : nat :=
  match s with
  | Point None => 0
  | Point (Some _) => 2
  | LineString l | LinearRing l => length l
  | Polygon rings => S (length (tail rings))
  | MultiPoint l => length l
  | MultiLineString l => length l
  | MultiPolygon l => length l
  | GeometryCollection l => length l
  end.

Definition is_nil {A} (l : list A) : bool :=
  match l with
  | [] => true
  | _ :: _ => false
  end.

Definition geom_bool (g : GEOSGeometry) : bool :=
  negb (Nat.eqb (shape_len (geom_shape g)) 0).

(** [geom.empty]: the geometry has no point at all. *)
Fixpoint shape_empty (s : shape) : bool :=
  match s with
  | Point None => true
  | Point (Some _) => false
  | LineString l | LinearRing l => is_nil l
  | Polygon rings => is_nil rings
  | MultiPoint l => is_nil l
  | MultiLineString l => forallb is_nil l
  | MultiPolygon l => forallb is_nil l
  | GeometryCollection l => forallb shape_empty l
  end.

Definition geom_empty (g : GEOSGeometry) : bool := shape_empty (geom_shape g).

(** [MultiPolygon(geom)]: a collection built from its members; only
    polygons are allowed, and no SRID is passed to the constructor. *)
Definition new_MultiPolygon (geom : GEOSGeometry) : result GEOSGeometry :=
  match geom_shape geom with
  | Polygon rings => OK (mkGeom (MultiPolygon [rings]) None)
  | _ => Raise TypeError
  end.

Definition empty_geom (srid : option Z) : GEOSGeometry :=
  let geom := mkGeom (GeometryCollection []) None in
  mkGeom (geom_shape geom) srid.

(** [enforce_multi(geom)]; [None] is Python's [None]. *)
Definition enforce_multi (geom : option GEOSGeometry) : result (option GEOSGeometry) :=
  match geom with
  | Some g =>
      if geom_bool g then
        if bool_decide (geom_type g = TMultiPolygon) then OK geom
        else if bool_decide (geom_type g = TPolygon) then
          m ← new_MultiPolygon g; OK (Some m)
        else OK (Some (empty_geom (srid g)))
      else OK geom
  | None => OK geom
  end.

(** The GEOS (and PostGIS) operations the code calls.  They compute on
    double-precision coordinates inside the library; here they are the
    operations of an interface, each returning the library's exception
    where it can raise. *)
Class GeosOps : Type := {
  geos_buffer : GEOSGeometry -> Z -> result GEOSGeometry;
  geos_simplify : GEOSGeometry -> Decimal -> result GEOSGeometry;
  geos_centroid : GEOSGeometry -> result GEOSGeometry;
  geos_within : GEOSGeometry -> GEOSGeometry -> result bool;
  geos_extent : GEOSGeometry -> result (Q * Q * Q * Q);
  geos_intersection : GEOSGeometry -> GEOSGeometry -> result GEOSGeometry;
  geos_union : GEOSGeometry -> GEOSGeometry -> result GEOSGeometry;
  geos_difference : GEOSGeometry -> GEOSGeometry -> result GEOSGeometry;
  geos_area : GEOSGeometry -> Q
}.

(** ** The models and the store

    Modelled from the spec: the models module that declares the tables is
    not among the sources.  The records hold the columns the code reads
    and writes, as the spec's data model gives them; every unit has a
    geometry, a simplified geometry and a centroid. *)

Record Geolevel : Type := mkGeolevel {
  geolevel_name : string;
  tolerance : Decimal
}.

Record LegislativeLevel : Type := mkLegislativeLevel {
  ll_geolevel : nat;               (* pk of the Geolevel *)
  ll_parent : option nat           (* pk of the parent LegislativeLevel *)
}.

Record Subject : Type := mkSubject {
  subject_name : string;
  percentage_denominator : option nat   (* pk of the denominator Subject *)
}.

Record Geounit : Type := mkGeounit {
  name : string;
  portable_id : string;
  tree_code : string;
  child : option nat;              (* pk of a Geounit *)
  geom : GEOSGeometry;
  simple : GEOSGeometry;
  center : GEOSGeometry;
  geolevel : nat                   (* pk of the Geolevel *)
}.

(** Modelled from the spec: the declaration of the [number] column is in
    the models module, which is not among the sources; the spec gives it
    as a fixed-point decimal with 4 fractional digits.  A stored [number]
    is the integer count of 1/10000 units.  [percentage] keeps the Python
    value the code hands to the store, a string or a decimal of up to 28
    digits: the format of the column, which the spec gives as 8
    fractional digits, is the store's and is not applied here. *)
Record Characteristic : Type := mkCharacteristic {
  c_geounit : nat;
  c_subject : nat;
  number : Z;
  percentage : pyval
}.

Record Store : Type := mkStore {
  geolevels : list Geolevel;
  legislative_levels : list LegislativeLevel;
  subjects : list Subject;
  geounits : list Geounit;
  characteristics : list Characteristic
}.

(** What the database accepts on a save.  A refused save raises. *)
Class Backend : Type := {
  geounit_accepts : Geounit -> bool;
  characteristic_accepts : Characteristic -> bool
}.

(** A [number] read back from its column, and a Python value written to
    it. *)
Definition Decimal_of_number (z : Z) : Decimal :=
  mkDecimal (z <? 0) (Z.abs z) (-4).

Definition signed_int (d : Decimal) : Z :=
  if _sign d then - _int d else _int d.

Definition number_of_pyval (v : pyval) : option Z :=
  match v with
  | PyDecimal d => Some (signed_int (_rescale d (-4) context_rounding))
  | PyStr s =>
      match Decimal_of_string s with
      | Some d => Some (signed_int (_rescale d (-4) context_rounding))
      | None => None
      end
  end.

(** [a != b] between two decimals: comparison of the values. *)
Definition Decimal_ne (a b : Decimal) : bool :=
  let m := Z.min (_exp a) (_exp b) in
  negb (signed_int a * 10 ^ (_exp a - m) =? signed_int b * 10 ^ (_exp b - m)).

(** [a != number] where [number] is a Decimal read from the store: a
    string is never equal to a Decimal. *)
Definition pyval_ne_Decimal (a : pyval) (b : Decimal) : bool :=
  match a with
  | PyStr _ => true
  | PyDecimal d => Decimal_ne d b
  end.

(** Rows of a table with their primary keys. *)
Fixpoint rows_from {A} (k : nat) (table : list A) : list (nat * A) :=
  match table with
  | [] => []
  | row :: rest => (k, row) :: rows_from (S k) rest
  end.

Definition rows {A} (table : list A) : list (nat * A) := rows_from 0 table.

(** The rows a condition on the columns selects. *)
Definition select {A} (p : A -> bool) (table : list A) : list (nat * A) :=
  List.filter (fun r => p (snd r)) (rows table).

(** [Model.objects.get(name=...)]: exactly one row. *)
Definition objects_get {A} (p : A -> bool) (table : list A) : result (nat * A) :=
  match select p table with
  | [r] => OK r
  | _ => Raise DoesNotExist
  end.

(** [s.startswith(prefix)] *)
Fixpoint startswith (s pre : string) : bool :=
  match pre, s with
  | EmptyString, _ => true
  | String a p, String b r => bool_decide (a = b) && startswith r p
  | String _ _, EmptyString => false
  end.

(** [s.endswith(suffix)] *)
Definition endswith (s suf : string) : bool :=
  let n := String.length s in
  let m := String.length suf in
  (m <=? n)%nat && bool_decide (substring (n - m) m s = suf).

(** A [for] loop whose body may raise: the state is threaded through the
    items in order and the first exception ends the loop. *)
Fixpoint for_each {A S} (body : S -> A -> result S) (items : list A) (s : S)
  : result S :=
  match items with
  | [] => OK s
  | x :: rest => s' ← body s x; for_each body rest s'
  end.

(** ** Features and configuration *)

(** A feature of a layer.  [feat_fields] holds each field with the string
    form of its value, [str(feat.get(field))]; the identity fields are
    string fields. *)
Record Feature : Type := mkFeature {
  fid : Z;
  feat_fields : list (string * string);
  feat_geom : GEOSGeometry
}.

Fixpoint assoc {V} (k : string) (l : list (string * V)) : option V :=
  match l with
  | [] => None
  | (k', v) :: rest => if bool_decide (k' = k) then Some v else assoc k rest
  end.

(** [feat.get(field)] *)
Definition feat_get (feat : Feature) (field : string) : result string :=
  of_option OGRIndexError (assoc field (feat_fields feat)).

(** The values of the [subject_objects] dictionary: a Subject object under
    an attribute name, an attribute name under ['<subject>_by_id']. *)
Inductive dictval : Type :=
| DSubject (pk : nat) (s : Subject)
| DField (attr_name : string).

(** A Python dict as the list of its items, in iteration order. *)
Definition pydict : Type := list (string * dictval).

(** [d[k] = v] *)
Fixpoint dict_set (k : string) (v : dictval) (d : pydict) : pydict :=
  match d with
  | [] => [(k, v)]
  | (k', v') :: rest =>
      if bool_decide (k' = k) then (k, v) :: rest else (k', v') :: dict_set k v rest
  end.

(** [d[k]] *)
Definition dict_get (k : string) (d : pydict) : result dictval :=
  of_option KeyError (assoc k d).

(** ** The Characteristic Assigner

    The definitions are of a run at the default verbosity, 1, at which
    the Assigner prints nothing.  At a verbosity above 1 its [except]
    block formats the value of the field with [%d], which raises
    [TypeError] for a field read as a string; that output is not part of
    the definitions. *)

(** [Decimal(value, context)] on a string: the second positional argument
    is the context used to signal a malformed literal; it plays no part in
    the value. *)
Definition new_Decimal (value : string) (context : option string) : result Decimal :=
  of_option InvalidOperation (Decimal_of_string value).

(** [Decimal(str(feat.get(attr))).quantize(Decimal('000000.0000', 'ROUND_DOWN'))] *)
Definition quantized_field (feat : Feature) (attr : string) : result Decimal :=
  raw ← feat_get feat attr;
  d ← new_Decimal raw None;
  exp ← new_Decimal "000000.0000" (Some "ROUND_DOWN");
  quantize d exp None.

Definition zero_sentinel : pyval := PyStr "0000.00000000".

(** [Characteristic.objects.filter(subject=obj, geounit=g)] *)
Definition characteristic_query (st : Store) (g subject : nat)
  : list (nat * Characteristic) :=
  select (fun c => Nat.eqb (c_subject c) subject && Nat.eqb (c_geounit c) g)
         (characteristics st).

Definition set_characteristics (st : Store) (cs : list Characteristic) : Store :=
  mkStore (geolevels st) (legislative_levels st) (subjects st) (geounits st) cs.

(** [c.save()] for a Characteristic object: [pk] is the row it was read
    from, or [None] for a new object.  The returned key is the row's. *)
Definition save_characteristic `{Backend} (st : Store) (pk : option nat)
    (g subject : nat) (num pct : pyval) : result (Store * nat) :=
  match number_of_pyval num with
  | None => Raise DatabaseError
  | Some z =>
      let row := mkCharacteristic g subject z pct in
      if characteristic_accepts row then
        match pk with
        | Some i => OK (set_characteristics st (<[i := row]> (characteristics st)), i)
        | None => OK (set_characteristics st (characteristics st ++ [row]),
                      length (characteristics st))
        end
      else Raise DatabaseError
  end.

(** The percentage of one mapped attribute. *)
Definition characteristic_percentage (st : Store) (subject_objects : pydict)
    (feat : Feature) (obj : Subject) (value : Decimal) : result pyval :=
  let percentage := zero_sentinel in
  match percentage_denominator obj with
  | Some den =>
      den_subject ← of_option DoesNotExist (subjects st !! den);
      entry ← dict_get (subject_name den_subject +:+ "_by_id") subject_objects;
      match entry with
      | DField denominator_field =>
          denominator_value ← quantized_field feat denominator_field;
          if Decimal_gt_0 denominator_value
          then q ← __div__ value denominator_value; OK (PyDecimal q)
          else OK percentage
      | DSubject _ _ => Raise TypeError
      end
  | None => OK percentage
  end.

(** The body of the loop of [set_geounit_characteristic] for one item of
    the dictionary. *)
Definition set_one_characteristic `{Backend} (g : nat) (subject_objects : pydict)
    (feat : Feature) (st : Store) (item : string * dictval) : result Store :=
  let '(attr, entry) := item in
  if endswith attr "_by_id" then OK st
  else
    match entry with
    | DField _ => Raise AttributeError
    | DSubject subject obj =>
        value ← quantized_field feat attr;
        percentage ← characteristic_percentage st subject_objects feat obj value;
        let pk := fst <$> head (characteristic_query st g subject) in
        match save_characteristic st pk g subject (PyDecimal value) percentage with
        | OK (st', _) => OK st'
        | Raise _ =>
            '(st', _) ← save_characteristic st pk g subject (PyStr "0.0") percentage;
            OK st'
        end
    end.

Definition set_geounit_characteristic `{Backend} (g : nat) (subject_objects : pydict)
    (feat : Feature) (st : Store) : result Store :=
  for_each (set_one_characteristic g subject_objects feat) subject_objects st.

(** ** The Shapefile Ingestor *)

(** A [Field] element of a shapefile's configuration. *)
Record Field : Type := mkField {
  field_name : string;
  field_type : string;           (* "tree", "name" or "portable" *)
  field_pos : option Z;
  field_width : option Z
}.

(** A [Shapefile] element with the layer [DataSource(path)[0]] it names. *)
Record Shapefile : Type := mkShapefile {
  shp_fields : list Field;
  shp_layer : list Feature
}.

(** A [Subject] element of the configuration: its id, the attribute field
    it is read from, and the ids of the [Subject] children appended to it
    (the subject an alias stands for). *)
Record SubjectConfig : Type := mkSubjectConfig {
  sc_id : string;
  sc_field : string;
  sc_children : list string
}.

Record Config : Type := mkConfig {
  cfg_shapefiles : list Shapefile;
  cfg_attributes : option (list (list Feature));   (* the layers of the attribute files *)
  cfg_geolevel : string;
  cfg_subject_fields : list SubjectConfig;
  cfg_tolerance : option string
}.

Definition string_repeat (c : ascii) (n : nat) : string :=
  string_of_list_ascii (List.repeat c n).

(** [s.zfill(width)] *)
Definition zfill (s : string) (width : Z) : string :=
  let n := Z.of_nat (String.length s) in
  if width <=? n then s
  else
    let fill := string_repeat "0"%char (Z.to_nat (width - n)) in
    match s with
    | String c r =>
        if bool_decide (c = "+"%char) || bool_decide (c = "-"%char)
        then String c (fill +:+ r)
        else fill +:+ s
    | EmptyString => fill
    end.

Definition is_blank (c : ascii) : bool := bool_decide (c = " "%char).

Definition fields_of_type (shapefile : Shapefile) (ty : string) : list Field :=
  List.filter (fun f => bool_decide (field_type f = ty)) (shp_fields shapefile).

Definition get_shape_tree (shapefile : Shapefile) (feature : Feature) : result string :=
  let shpfields := shp_fields shapefile in
  for_each (fun builtid idx =>
      match List.filter (fun f => bool_decide (field_pos f = Some (Z.of_nat idx)))
                        (fields_of_type shapefile "tree") with
      | idpart :: _ =>
          raw ← feat_get feature (field_name idpart);
          let part := strip is_blank raw in
          width ← of_option TypeError (field_width idpart);
          OK (builtid +:+ zfill part width)
      | [] => OK builtid
      end)
    (seq 0 (length shpfields)) "".

Definition get_shape_portable (shapefile : Shapefile) (feature : Feature) : result string :=
  field ← of_option IndexError (head (fields_of_type shapefile "portable"));
  feat_get feature (field_name field).

Definition get_shape_name (shapefile : Shapefile) (feature : Feature) : result string :=
  field ← of_option IndexError (head (fields_of_type shapefile "name"));
  feat_get feature (field_name field).

(** [Subject.objects.get(name=n)] *)
Definition get_subject (st : Store) (n : string) : result (nat * Subject) :=
  objects_get (fun s => bool_decide (subject_name s = n)) (subjects st).

(** The dictionary built at the top of the loop over the shapefiles. *)
Definition make_subject_objects (st : Store) (subject_fields : list SubjectConfig)
  : result pydict :=
  for_each (fun subject_objects sconfig =>
      let attr_name := sc_field sconfig in
      found ← for_each (fun _ elem => sub ← get_subject st elem; OK (Some sub))
                       (sc_children sconfig) None;
      sub ← match found with
            | Some sub => OK sub
            | None => get_subject st (sc_id sconfig)
            end;
      OK (dict_set (subject_name (snd sub) +:+ "_by_id") (DField attr_name)
            (dict_set attr_name (DSubject (fst sub) (snd sub)) subject_objects)))
    subject_fields [].

(** [geom[0]] on a multi-geometry: the member, with the SRID of the
    collection. *)
Definition geom_getitem0 (g : GEOSGeometry) : result GEOSGeometry :=
  match geom_shape g with
  | MultiPolygon (rings :: _) => OK (mkGeom (Polygon rings) (srid g))
  | MultiLineString (l :: _) => OK (mkGeom (LineString l) (srid g))
  | MultiPolygon [] | MultiLineString [] => Raise IndexError
  | _ => Raise TypeError
  end.

(** [point.y] *)
Definition point_y (g : GEOSGeometry) : result Q :=
  match geom_shape g with
  | Point (Some (_, y)) => OK y
  | _ => Raise GEOSException
  end.

(** The replacement of a centroid that is not within the geometry. *)
Definition centroid_fallback `{GeosOps} (my_geom : GEOSGeometry) : result GEOSGeometry :=
  first_poly ← geom_getitem0 my_geom;
  first_poly_extent ← geos_extent first_poly;
  let '(min_x, _, max_x, _) := first_poly_extent in
  c ← geos_centroid first_poly;
  my_y ← point_y c;
  let centerline := mkGeom (LineString [(min_x, my_y); (max_x, my_y)]) None in
  intersection ← geos_intersection centerline first_poly;
  intersection ← (if bool_decide (geom_type intersection = TMultiLineString)
                  then geom_getitem0 intersection else OK intersection);
  geos_centroid intersection.

(** The statements of the [try] block after [my_geom] is coerced: they
    read the function's variable [my_geom], which is unbound until a
    feature with a polygonal geometry has been met. *)
Definition normalized `{GeosOps} (tolerance : option string)
    (my_geom : option GEOSGeometry)
  : result (GEOSGeometry * GEOSGeometry * GEOSGeometry) :=
  g ← of_option NameError my_geom;
  tol ← match tolerance with
        | Some t => new_Decimal t None
        | None => Raise TypeError
        end;
  simple ← geos_simplify g tol;
  simple ← (if bool_decide (geom_type simple = TMultiPolygon)
            then OK simple else new_MultiPolygon simple);
  center ← geos_centroid g;
  inside ← geos_within center g;
  center ← (if inside : bool then OK center else centroid_fallback g);
  OK (g, simple, center).

(** The geometry part of the [try] block for one feature: the value of
    [my_geom] it leaves behind, and the geometries of the new unit or the
    exception that skips the feature. *)
Definition normalize_feature `{GeosOps} (tolerance : option string)
    (my_geom : option GEOSGeometry) (feat : Feature)
  : option GEOSGeometry * result (GEOSGeometry * GEOSGeometry * GEOSGeometry) :=
  match geos_buffer (feat_geom feat) 0 with
  | Raise e => (my_geom, Raise e)
  | OK geos =>
      if bool_decide (geom_type geos = TMultiPolygon)
      then (Some geos, normalized tolerance (Some geos))
      else if bool_decide (geom_type geos = TPolygon) then
        match new_MultiPolygon geos with
        | OK m => (Some m, normalized tolerance (Some m))
        | Raise e => (my_geom, Raise e)
        end
      else (my_geom, normalized tolerance my_geom)
  end.

Definition set_geounits (st : Store) (us : list Geounit) : Store :=
  mkStore (geolevels st) (legislative_levels st) (subjects st) us (characteristics st).

(** The identity key of a unit. *)
Definition identity_key (u : Geounit) : string * nat * string * string :=
  (name u, geolevel u, portable_id u, tree_code u).

(** [Geounit.objects.filter(Q(name=..), Q(geolevel=..), Q(portable_id=..),
    Q(tree_code=..))] *)
Definition prefetch_units (st : Store) (key : string * nat * string * string)
  : list (nat * Geounit) :=
  select (fun u => bool_decide (identity_key u = key)) (geounits st).

(** The identity fields [import_shape] derives from a feature: the
    arguments of the probe, in the order they are evaluated. *)
Definition feature_key (shapefile : Shapefile) (feat : Feature)
  : result (string * string * string) :=
  nm ← get_shape_name shapefile feat;
  portable ← get_shape_portable shapefile feat;
  tree ← get_shape_tree shapefile feat;
  OK (nm, portable, tree).

(** The end of the loop body: the Assigner runs inline when the
    configuration has no attribute files. *)
Definition assign_characteristics `{Backend} (config : Config) (subject_objects : pydict)
    (feat : Feature) (st : Store) (g : nat) : result Store :=
  match cfg_attributes config with
  | None => set_geounit_characteristic g subject_objects feat st
  | Some _ => OK st
  end.

(** [Geounit(geom=..., name=..., geolevel=..., simple=..., center=...,
    portable_id=..., tree_code=...)] *)
Definition new_geounit (key : string * string * string) (level : nat)
    (geoms : GEOSGeometry * GEOSGeometry * GEOSGeometry) : Geounit :=
  let '(nm, portable, tree) := key in
  let '(g, simple, center) := geoms in
  mkGeounit nm portable tree None g simple center level.

(** The body of the loop over the features of a layer.  The state is the
    store and the variable [my_geom]. *)
Definition import_feature `{GeosOps} `{Backend} (config : Config)
    (shapefile : Shapefile) (level : nat) (subject_objects : pydict)
    (state : Store * option GEOSGeometry) (feat : Feature)
  : result (Store * option GEOSGeometry) :=
  let '(st, my_geom) := state in
  key ← feature_key shapefile feat;
  let '(nm, portable, tree) := key in
  match prefetch_units st (nm, level, portable, tree) with
  | [] =>
      let '(my_geom, r) := normalize_feature (cfg_tolerance config) my_geom feat in
      match r with
      | OK geoms =>
          let unit := new_geounit key level geoms in
          if geounit_accepts unit then
            st ← assign_characteristics config subject_objects feat
                   (set_geounits st (geounits st ++ [unit])) (length (geounits st));
            OK (st, my_geom)
          else OK (st, my_geom)
      | Raise _ => OK (st, my_geom)
      end
  | (g, _) :: _ =>
      st ← assign_characteristics config subject_objects feat st g;
      OK (st, my_geom)
  end.

(** [Geolevel.objects.get(name=n)] *)
Definition get_geolevel (st : Store) (n : string) : result (nat * Geolevel) :=
  objects_get (fun l => bool_decide (geolevel_name l = n)) (geolevels st).

(** The body of the loop over the shapefiles. *)
Definition import_shapefile `{GeosOps} `{Backend} (config : Config)
    (state : Store * option GEOSGeometry) (shapefile : Shapefile)
  : result (Store * option GEOSGeometry) :=
  level ← get_geolevel (fst state) (cfg_geolevel config);
  subject_objects ← make_subject_objects (fst state) (cfg_subject_fields config);
  for_each (import_feature config shapefile (fst level) subject_objects)
           (shp_layer shapefile) state.

(** The loop over the attribute files calls [get_shape_treeid], a name
    that is defined nowhere: the first feature of an attribute layer
    raises. *)
Definition import_attributes (st : Store) (layers : list (list Feature)) : result Store :=
  for_each (fun st lyr => for_each (fun _ _ => Raise NameError) lyr st) layers st.

Definition import_shape `{GeosOps} `{Backend} (config : Config) (st : Store)
  : result Store :=
  state ← for_each (import_shapefile config) (cfg_shapefiles config) (st, None);
  match cfg_attributes config with
  | Some layers => import_attributes (fst state) layers
  | None => OK (fst state)
  end.

(** ** The Hierarchy Aggregator *)

Definition in_parentunits (code : string) (level : nat) (u : Geounit) : bool :=
  startswith (tree_code u) code && Nat.eqb (geolevel u) level.

(** [Geounit.objects.filter(tree_code__startswith=code, geolevel=level)].
    The query set is lazy: every use of it reads the store again. *)
Definition parentunits_of (st : Store) (code : string) (level : nat)
  : list (nat * Geounit) :=
  select (in_parentunits code level) (geounits st).

Definition set_child (pk : nat) (u : Geounit) : Geounit :=
  mkGeounit (name u) (portable_id u) (tree_code u) (Some pk)
            (geom u) (simple u) (center u) (geolevel u).

(** [parentunits.update(child=geounit)] *)
Definition update_child (st : Store) (code : string) (level : nat) (pk : nat) : Store :=
  set_geounits st
    ((fun u => if in_parentunits code level u then set_child pk u else u) <$> geounits st).

(** [parentunits.unionagg()]: no geometry for an empty query set. *)
Definition unionagg `{GeosOps} (geoms : list GEOSGeometry) : result (option GEOSGeometry) :=
  match geoms with
  | [] => OK None
  | g :: rest => u ← for_each geos_union rest g; OK (Some u)
  end.

(** [Characteristic.objects.filter(geounit__in=parentunits, subject=subject)] *)
Definition characteristics_in (st : Store) (units : list nat) (subject : nat)
  : list Characteristic :=
  List.filter (fun c => existsb (Nat.eqb (c_geounit c)) units && Nat.eqb (c_subject c) subject)
              (characteristics st).

Definition sum_numbers (qset : list Characteristic) : Z :=
  foldr (fun c acc => number c + acc) 0 qset.

(** [qset.aggregate(Sum('number'))['number__sum']]: [None] over no row. *)
Definition Sum_number (qset : list Characteristic) : option Decimal :=
  match qset with
  | [] => None
  | _ :: _ => Some (Decimal_of_number (sum_numbers qset))
  end.

(** The body of the loop over the subjects: the state is the store and
    the counter [num]. *)
Definition aggregate_subject `{Backend} (geounit : nat) (code : string) (level : nat)
    (state : Store * nat) (subject_row : nat * Subject) : result (Store * nat) :=
  let '(st, num) := state in
  let '(subject, subject_obj) := subject_row in
  let parentunits := fst <$> parentunits_of st code level in
  let qset := characteristics_in st parentunits subject in
  let aggdata := Sum_number qset in
  let percentage := zero_sentinel in
  percentage ←
    match aggdata, percentage_denominator subject_obj with
    | Some a, Some den =>
        if Decimal_nonzero a then
          let dset := characteristics_in st parentunits den in
          let denominator_data := Sum_number qset in
          match denominator_data with
          | Some d =>
              if Decimal_gt_0 d then q ← __div__ a d; OK (PyDecimal q)
              else OK percentage
          | None => OK percentage
          end
        else OK percentage
    | _, _ => OK percentage
    end;
  let aggdata := match aggdata with
                 | Some a => PyDecimal a
                 | None => PyStr "0.0"
                 end in
  match characteristic_query st geounit subject with
  | [] =>
      '(st, _) ← save_characteristic st None geounit subject aggdata percentage;
      OK (st, S num)
  | (pk, mychar) :: _ =>
      if pyval_ne_Decimal aggdata (Decimal_of_number (number mychar)) then
        '(st, _) ← save_characteristic st (Some pk) geounit subject aggdata percentage;
        OK (st, S num)
      else OK (st, num)
  end.

Definition set_geometry (u : Geounit) (g s : GEOSGeometry) : Geounit :=
  mkGeounit (name u) (portable_id u) (tree_code u) (child u) g s (center u) (geolevel u).

(** [geounit.save()] after the assignment of [geom] and [simple]: one
    write of the object the loop holds.  The geometry columns do not take
    [None]. *)
Definition save_geometry `{Backend} (st : Store) (geounit : nat * Geounit)
    (g s : option GEOSGeometry) : result Store :=
  match g, s with
  | Some g, Some s =>
      let u := set_geometry (snd geounit) g s in
      if geounit_accepts u
      then OK (set_geounits st (<[fst geounit := u]> (geounits st)))
      else Raise DatabaseError
  | _, _ => Raise DatabaseError
  end.

(** The geometry step of [aggregate_unit] once the union is known: the
    store and the counter [geo]. *)
Definition aggregate_geometry `{GeosOps} `{Backend} (st : Store)
    (geounit : nat * Geounit) (geolevel : Geolevel) (newgeo : GEOSGeometry)
  : result (Store * nat) :=
  d ← geos_difference newgeo (geom (snd geounit));
  let difference := geos_area d in
  if negb (Qeq_bool difference 0) then
    newsimple ← geos_simplify newgeo (tolerance geolevel);
    g ← enforce_multi (Some newgeo);
    s ← enforce_multi (Some newsimple);
    st ← save_geometry st geounit g s;
    OK (st, 1%nat)
  else OK (st, 0%nat).

(** [aggregate_unit(geounit, geolevel, parent, verbose)]: [geounit] is the
    object the caller's loop holds, with its primary key; the result is
    the store with the pair [(geo, num)]. *)
Definition aggregate_unit `{GeosOps} `{Backend} (st : Store)
    (geounit : nat * Geounit) (geolevel : Geolevel) (parent : LegislativeLevel)
  : result (Store * (nat * nat)) :=
  let code := tree_code (snd geounit) in
  let level := ll_geolevel parent in
  let st := update_child st code level (fst geounit) in
  newgeo ← unionagg ((fun r => geom (snd r)) <$> parentunits_of st code level);
  match newgeo with
  | None => OK (st, (0, 0)%nat)
  | Some newgeo =>
      '(st, geo) ← aggregate_geometry st geounit geolevel newgeo;
      '(st, num) ← for_each (aggregate_subject (fst geounit) code level)
                            (rows (subjects st)) (st, 0%nat);
      OK (st, (geo, num))
  end.

(** The loop of [renest_geolevel] over the legislative levels of the
    geolevel: the parent of the last level that has one. *)
Definition last_parent (st : Store) (level : nat) : result (option LegislativeLevel) :=
  let llevels := List.filter (fun l => Nat.eqb (ll_geolevel l) level)
                             (legislative_levels st) in
  for_each (fun parent llevel =>
              match ll_parent llevel with
              | Some p =>
                  row ← of_option DoesNotExist (legislative_levels st !! p);
                  OK (Some row)
              | None => OK parent
              end) llevels None.

(** The body of the loop over the units of the geolevel. *)
Definition renest_unit `{GeosOps} `{Backend} (level : Geolevel) (parent : LegislativeLevel)
    (state : Store * (nat * nat)) (geounit : nat * Geounit)
  : result (Store * (nat * nat)) :=
  let '(st, (geomods, nummods)) := state in
  '(st, (geo, num)) ← aggregate_unit st geounit level parent;
  OK (st, (geomods + geo, nummods + num)%nat).

(** [renest_geolevel(glconf, verbose)]: the store it leaves and the
    counters [(geomods, nummods)] it reports.  The units are the objects
    of one evaluation of the query set, before the loop. *)
Definition renest_geolevel `{GeosOps} `{Backend} (st : Store) (glconf : string)
  : result (Store * (nat * nat)) :=
  level ← get_geolevel st glconf;
  parent ← last_parent st (fst level);
  match parent with
  | Some parent =>
      let unitqset := select (fun u => Nat.eqb (geolevel u) (fst level)) (geounits st) in
      for_each (renest_unit (snd level) parent) unitqset (st, (0, 0)%nat)
  | None => OK (st, (0, 0)%nat)
  end.

(** ** An instance of the geometry interface: cell regions

    The regions whose polygons are unit squares of the integer grid.  On
    them the point-set operations are exact and computable: a region is
    the set of its cells, named by their lower left corners. *)
Module CellGeos.

Definition cell : Type := Z * Z.

Definition unit_square (c : cell) : list coord :=
  let x := inject_Z (fst c) in
  let y := inject_Z (snd c) in
  [(x, y); (x + 1, y); (x + 1, y + 1); (x, y + 1); (x, y)]%Q.

Definition coord_eqb (p q : coord) : bool :=
  Qeq_bool (fst p) (fst q) && Qeq_bool (snd p) (snd q).

Fixpoint ring_eqb (r1 r2 : list coord) : bool :=
  match r1, r2 with
  | [], [] => true
  | p :: r1, q :: r2 => coord_eqb p q && ring_eqb r1 r2
  | _, _ => false
  end.

(** The cell of a polygon that is a unit square, hole-free. *)
Definition cell_of_polygon (rings : list (list coord)) : list cell :=
  match rings with
  | [((x, y) :: _) as ring] =>
      let c := (Qfloor x, Qfloor y) in
      if ring_eqb ring (unit_square c) then [c] else []
  | _ => []
  end.

Definition cells (g : GEOSGeometry) : list cell :=
  remove_dups
    match geom_shape g with
    | Polygon rings => cell_of_polygon rings
    | MultiPolygon members => concat (cell_of_polygon <$> members)
    | _ => []
    end.

Definition region (cs : list cell) (srid : option Z) : GEOSGeometry :=
  mkGeom (MultiPolygon ((fun c => [unit_square c]) <$> cs)) srid.

Definition union (a b : GEOSGeometry) : result GEOSGeometry :=
  OK (region (remove_dups (cells a ++ cells b)) (srid a)).

Definition difference (a b : GEOSGeometry) : result GEOSGeometry :=
  OK (region (list_difference (cells a) (cells b)) (srid a)).

Definition area (g : GEOSGeometry) : Q :=
  inject_Z (Z.of_nat (length (cells g))).

(** A unit square has no vertex to give up, and no self-intersection. *)
Definition simplify (g : GEOSGeometry) (tolerance : Decimal) : result GEOSGeometry :=
  OK g.

Definition buffer (g : GEOSGeometry) (width : Z) : result GEOSGeometry :=
  OK g.

Definition mean (l : list Q) : Q :=
  (foldr Qplus 0 l / inject_Z (Z.of_nat (length l)))%Q.

Definition centroid (g : GEOSGeometry) : result GEOSGeometry :=
  match geom_shape g with
  | LineString [(x0, y0); (x1, y1)] =>
      OK (mkGeom (Point (Some (Qred ((x0 + x1) / 2), Qred ((y0 + y1) / 2))%Q)) (srid g))
  | _ =>
      match cells g with
      | [] => Raise GEOSException
      | cs =>
          let xs := (fun c : cell => inject_Z (fst c) + (1 # 2))%Q <$> cs in
          let ys := (fun c : cell => inject_Z (snd c) + (1 # 2))%Q <$> cs in
          OK (mkGeom (Point (Some (Qred (mean xs), Qred (mean ys)))) (srid g))
      end
  end.

(** The grid lines a coordinate lies between: one column (or row) of
    cells, or the two it separates. *)
Definition around (x : Q) : list Z :=
  if Qeq_bool x (inject_Z (Qfloor x)) then [Qfloor x - 1; Qfloor x] else [Qfloor x].

(** A point is within a region when every cell around it belongs to the
    region. *)
Definition within (p g : GEOSGeometry) : result bool :=
  match geom_shape p with
  | Point (Some (x, y)) =>
      OK (forallb (fun c => bool_decide (c ∈ cells g))
                  (i ← around x; j ← around y; [(i, j)]))
  | _ => OK false
  end.

Definition extent (g : GEOSGeometry) : result (Q * Q * Q * Q) :=
  match cells g with
  | [] => Raise GEOSException
  | c :: cs =>
      let min_x := foldr Z.min (fst c) (fst <$> cs) in
      let min_y := foldr Z.min (snd c) (snd <$> cs) in
      let max_x := foldr Z.max (fst c) (fst <$> cs) + 1 in
      let max_y := foldr Z.max (snd c) (snd <$> cs) + 1 in
      OK (inject_Z min_x, inject_Z min_y, inject_Z max_x, inject_Z max_y)
  end.

(** Maximal runs of consecutive columns, from a sorted list. *)
Fixpoint runs (start last : Z) (cols : list Z) : list (Z * Z) :=
  match cols with
  | [] => [(start, last + 1)]
  | c :: rest =>
      if c <=? last + 1 then runs start (Z.max last c) rest
      else (start, last + 1) :: runs c c rest
  end.

(** A horizontal line meets a region in the runs of cells of its row. *)
Definition intersection (line g : GEOSGeometry) : result GEOSGeometry :=
  match geom_shape line with
  | LineString [(x0, y); (x1, _)] =>
      let cols := merge_sort Z.le
                    (fst <$> List.filter (fun c => bool_decide (snd c ∈ around y)
                                                   && (Qfloor x0 <=? fst c)
                                                   && (fst c <? Qceiling x1))
                                         (cells g)) in
      let segment (r : Z * Z) : list coord :=
        [(inject_Z (fst r), y); (inject_Z (snd r), y)] in
      match cols with
      | [] => OK (mkGeom (GeometryCollection []) (srid line))
      | c :: rest =>
          match runs c c rest with
          | [r] => OK (mkGeom (LineString (segment r)) (srid line))
          | rs => OK (mkGeom (MultiLineString (segment <$> rs)) (srid line))
          end
      end
  | _ => Raise GEOSException
  end.

#[global] Instance ops : GeosOps := {|
  geos_buffer := buffer;
  geos_simplify := simplify;
  geos_centroid := centroid;
  geos_within := within;
  geos_extent := extent;
  geos_intersection := intersection;
  geos_union := union;
  geos_difference := difference;
  geos_area := area
|}.

End CellGeos.

(** A store that accepts every row. *)
Definition accepting_backend : Backend := {|
  geounit_accepts := fun _ => true;
  characteristic_accepts := fun _ => true
|}.


(** ** Reading the store *)

(** The Characteristic of a unit for a subject: the first row of the
    query, the one [query[0]] and [mychar[0]] read. *)
Definition stored_characteristic (st : Store) (g subject : nat) : option Characteristic :=
  snd <$> head (characteristic_query st g subject).

(** The table after the save of a row for [(g, subject)]: written over
    the first row of the query, or added when the query is empty. *)
Definition saved_rows (st : Store) (g subject : nat) (row : Characteristic)
  : list Characteristic :=
  match fst <$> head (characteristic_query st g subject) with
  | Some i => <[i := row]> (characteristics st)
  | None => (characteristics st ++ [row])%list
  end.

(** The columns of a unit that place it in the hierarchy. *)
Definition hierarchy_key (u : Geounit) : string * nat := (tree_code u, geolevel u).

(** The primary keys of the units [aggregate_unit] aggregates into the
    unit of tree code [code]. *)
Definition parent_set (st : Store) (code : string) (level : nat) : list nat :=
  fst <$> parentunits_of st code level.

(** [in_parentunits] read on the hierarchy columns alone. *)
Definition key_in_parentunits (code : string) (level : nat) (k : string * nat) : bool :=
  startswith (fst k) code && Nat.eqb (snd k) level.

(** Two states of the store whose units have the same hierarchy columns. *)
Definition same_keys (st st' : Store) : Prop :=
  hierarchy_key <$> geounits st' = hierarchy_key <$> geounits st.

(** The identity fields of all the features of a configuration, in the
    order of the import. *)
Definition config_keys (shapefiles : list Shapefile)
  : list (result (string * string * string)) :=
  shapefile ← shapefiles; feature_key shapefile <$> shp_layer shapefile.

(** The geometry a feature assigns to [my_geom]: its buffered geometry
    when that is polygonal. *)
Definition own_geometry `{GeosOps} (feat : Feature) : option GEOSGeometry :=
  match geos_buffer (feat_geom feat) 0 with
  | OK geos =>
      if bool_decide (geom_type geos = TMultiPolygon) then Some geos
      else if bool_decide (geom_type geos = TPolygon) then
        match new_MultiPolygon geos with
        | OK m => Some m
        | Raise _ => None
        end
      else None
  | Raise _ => None
  end.

(** A value of [my_geom] from which the statements of the [try] block
    build a unit. *)
Definition usable `{GeosOps} (tolerance : option string) (my_geom : option GEOSGeometry)
  : bool :=
  match normalized tolerance my_geom with
  | OK _ => true
  | Raise _ => false
  end.

(** The identity key of the unit of a feature at a geolevel. *)
Definition unit_key (level : nat) (key : string * string * string)
  : string * nat * string * string :=
  let '(nm, portable, tree) := key in (nm, level, portable, tree).

(** A feature from whose own geometry the [try] block builds a unit. *)
Definition self_sufficient `{GeosOps} (tolerance : option string) (feat : Feature) : bool :=
  match own_geometry feat with
  | Some g => usable tolerance (Some g)
  | None => false
  end.

(** A store holds a unit of the given identity key. *)
Definition has_key (st : Store) (key : string * nat * string * string) : Prop :=
  key ∈ identity_key <$> geounits st.

#[global] Instance has_key_dec st key : Decision (has_key st key).
Proof. unfold has_key. apply _. Defined.

(** The columns the import never writes. *)
Definition same_settings (st st' : Store) : Prop :=
  geolevels st' = geolevels st ∧ legislative_levels st' = legislative_levels st ∧
  subjects st' = subjects st.

(** An item of [subject_objects] under which the Assigner writes the
    Characteristic of [subject]. *)
Definition writes_subject (subject : nat) (item : string * dictval) : bool :=
  negb (endswith (fst item) "_by_id") &&
  match snd item with
  | DSubject s _ => Nat.eqb s subject
  | DField _ => false
  end.

(** The spec's words for [number]: the attribute parsed as a decimal and
    truncated to 4 fractional digits, toward zero. *)
Definition spec_truncated_number (raw : string) : option Z :=
  d ← Decimal_of_string raw;
  Some (signed_int (_rescale d (-4) ROUND_DOWN)).

(** ** A small state: blocks under a county *)
Module Demo.

Definition dec (s : string) : Decimal :=
  default (mkDecimal false 0 0) (Decimal_of_string s).

(** Geolevel 0 is the block level, geolevel 1 the county level; the
    legislative level of the counties has the one of the blocks as its
    parent.  Subject 0 is the total population, subject 1 the white
    population with the total as its denominator. *)
Definition empty_store : Store := {|
  geolevels := [mkGeolevel "block" (dec "0.1"); mkGeolevel "county" (dec "10")];
  legislative_levels := [mkLegislativeLevel 0 None; mkLegislativeLevel 1 (Some 0%nat)];
  subjects := [mkSubject "poptot" None; mkSubject "popwhite" (Some 0%nat)];
  geounits := [];
  characteristics := []
|}.

Definition shp_fields : list Field := [
  mkField "NAME" "name" None None;
  mkField "GEOID" "portable" None None;
  mkField "STATE" "tree" (Some 0) (Some 2);
  mkField "BLOCK" "tree" (Some 1) (Some 2)
].

Definition square (i j : Z) : GEOSGeometry :=
  mkGeom (Polygon [CellGeos.unit_square (i, j)]) (Some 3785).

Definition block (nm blk total white : string) (g : GEOSGeometry) : Feature := {|
  fid := 0;
  feat_fields := [("NAME", nm); ("GEOID", "b" +:+ blk); ("STATE", "0");
                  ("BLOCK", blk); ("TOTAL", total); ("WHITE", white)];
  feat_geom := g
|}.

Definition subject_fields : list SubjectConfig := [
  mkSubjectConfig "poptot" "TOTAL" [];
  mkSubjectConfig "popwhite" "WHITE" []
].

Definition blocks_config (layer : list Feature) : Config := {|
  cfg_shapefiles := [mkShapefile shp_fields layer];
  cfg_attributes := None;
  cfg_geolevel := "block";
  cfg_subject_fields := subject_fields;
  cfg_tolerance := Some "0.1"
|}.

Definition block_A : Feature := block "A" "1" "100.00000" "45.12345" (square 0 0).
Definition block_B : Feature := block "B" "2" "150" "45.12346" (square 1 0).

(** A county of tree code ["00"], whose digitized outline covers the
    cells of the two blocks and one more. *)
Definition county_P : Feature := {|
  fid := 0;
  feat_fields := [("NAME", "P"); ("GEOID", "c0"); ("STATE", "0")];
  feat_geom := CellGeos.region [(0, 0); (1, 0); (2, 0)] (Some 3785)
|}.

Definition county_fields : list Field := [
  mkField "NAME" "name" None None;
  mkField "GEOID" "portable" None None;
  mkField "STATE" "tree" (Some 0) (Some 2)
].

Definition counties_config : Config := {|
  cfg_shapefiles := [mkShapefile county_fields [county_P]];
  cfg_attributes := Some [];
  cfg_geolevel := "county";
  cfg_subject_fields := [];
  cfg_tolerance := Some "10"
|}.

(** The dictionary [import_shape] builds from [subject_fields]. *)
Definition subject_objects : pydict := [
  ("TOTAL", DSubject 0 (mkSubject "poptot" None));
  ("poptot_by_id", DField "TOTAL");
  ("WHITE", DSubject 1 (mkSubject "popwhite" (Some 0%nat)));
  ("popwhite_by_id", DField "WHITE")
].

(** A store whose [number] column holds at most 12 digits. *)
Definition twelve_digits : Backend := {|
  geounit_accepts := fun _ => true;
  characteristic_accepts := fun c => Z.abs (number c) <? 10 ^ 12
|}.

(** The store after the import of the two blocks and of the county, and
    after the renesting of the county level. *)
Definition imported : Store := Eval vm_compute in
  match (st ← import_shape (H := CellGeos.ops) (H0 := accepting_backend)
                 (blocks_config [block_A; block_B]) empty_store;
         import_shape (H := CellGeos.ops) (H0 := accepting_backend) counties_config st) with
  | OK st => st
  | Raise _ => empty_store
  end.

Definition renested : Store := Eval vm_compute in
  match renest_geolevel (H := CellGeos.ops) (H0 := accepting_backend) imported "county" with
  | OK (st, _) => st
  | Raise _ => empty_store
  end.

(** The county, as the renested store holds it. *)
Definition county : Geounit := Eval vm_compute in
  default (mkGeounit "" "" "" None (square 0 0) (square 0 0) (square 0 0) 0)
          (geounits renested !! 2%nat).

(** A second state: the county was digitized over the cell of block A
    alone, so that the union of its blocks reaches outside its outline. *)
Definition small_county_P : Feature := {|
  fid := 0;
  feat_fields := [("NAME", "P"); ("GEOID", "c0"); ("STATE", "0")];
  feat_geom := CellGeos.region [(0, 0)] (Some 3785)
|}.

Definition small_counties_config : Config := {|
  cfg_shapefiles := [mkShapefile county_fields [small_county_P]];
  cfg_attributes := Some [];
  cfg_geolevel := "county";
  cfg_subject_fields := [];
  cfg_tolerance := Some "10"
|}.

Definition imported_small : Store := Eval vm_compute in
  match (st ← import_shape (H := CellGeos.ops) (H0 := accepting_backend)
                 (blocks_config [block_A; block_B]) empty_store;
         import_shape (H := CellGeos.ops) (H0 := accepting_backend)
                      small_counties_config st) with
  | OK st => st
  | Raise _ => empty_store
  end.



(** The store after the import of the two blocks alone. *)
Definition blocks_imported : Store := Eval vm_compute in
  match import_shape (H := CellGeos.ops) (H0 := accepting_backend)
          (blocks_config [block_A; block_B]) empty_store with
  | OK st => st
  | Raise _ => empty_store
  end.

End Demo.

(** ** A second instance of the geometry interface: rectilinear polygons

    The polygons whose vertices have integer coordinates and whose edges
    are horizontal or vertical, with or without holes.  The point set of
    such a polygon is the union of the closed unit cells its rings
    enclose, so that the operations are computable, and exact also on
    the doubles GEOS computes with (the coordinates met are integers and
    halves).  They are as the simple-features definitions give them:
    - the centroid of a polygonal geometry is its centre of area, the
      mean of the centres of its cells; the centroid of a line of two
      points is its midpoint;
    - a point is within a polygonal geometry when it lies in its
      interior: a point of the boundary is not within;
    - the intersection of a horizontal line with a polygon is the part
      of the line in the closed polygon, boundary included.  The line is
      noded where the boundary of the polygon meets it, and the result
      has one LineString for each piece between two nodes, in the order
      of the line: a LineString for one piece, a MultiLineString for
      several;
    - a buffer of width 0 and a topology-preserving simplification
      return a valid rectilinear polygon as it is (no vertex lies
      within the tolerance of the line through its neighbours). *)
Module RingGeos.

(** The vertical edges of a ring: the abscissa and the two ordinates. *)
Fixpoint vertical_edges (ring : list coord) : list (Q * Q * Q) :=
  match ring with
  | (x0, y0) :: (((x1, y1) :: _) as rest) =>
      (if Qeq_bool x0 x1
       then [if Qle_bool y0 y1 then (x0, y0, y1) else (x0, y1, y0)]
       else [])
      ++ vertical_edges rest
  | _ => []
  end.

Definition Qlt_bool (a b : Q) : bool := negb (Qle_bool b a).

(** The centre of a cell is inside a ring when the ray from it to the
    left crosses an odd number of edges. *)
Definition inside (ring : list coord) (c : CellGeos.cell) : bool :=
  let x := (inject_Z (fst c) + (1 # 2))%Q in
  let y := (inject_Z (snd c) + (1 # 2))%Q in
  Nat.odd (length (List.filter
                     (fun e : Q * Q * Q =>
                        let '(ex, lo, hi) := e in
                        Qlt_bool ex x && Qlt_bool lo y && Qlt_bool y hi)
                     (vertical_edges ring))).

(** The cells of the bounding box of a ring that the ring encloses. *)
Definition ring_cells (ring : list coord) : list CellGeos.cell :=
  match ring with
  | [] => []
  | (x, y) :: rest =>
      let min_x := foldr Z.min (Qfloor x) ((fun p => Qfloor (fst p)) <$> rest) in
      let max_x := foldr Z.max (Qceiling x) ((fun p => Qceiling (fst p)) <$> rest) in
      let min_y := foldr Z.min (Qfloor y) ((fun p => Qfloor (snd p)) <$> rest) in
      let max_y := foldr Z.max (Qceiling y) ((fun p => Qceiling (snd p)) <$> rest) in
      List.filter (inside ring)
        (i ← seqZ min_x (max_x - min_x); j ← seqZ min_y (max_y - min_y); [(i, j)])
  end.

(** The cells of a polygon: inside its shell and inside none of its
    holes. *)
Definition polygon_cells (rings : list (list coord)) : list CellGeos.cell :=
  match rings with
  | [] => []
  | shell :: holes =>
      List.filter (fun c => forallb (fun hole => negb (inside hole c)) holes)
                  (ring_cells shell)
  end.

Definition cells (g : GEOSGeometry) : list CellGeos.cell :=
  remove_dups
    match geom_shape g with
    | Polygon rings => polygon_cells rings
    | MultiPolygon members => concat (polygon_cells <$> members)
    | _ => []
    end.

Definition union (a b : GEOSGeometry) : result GEOSGeometry :=
  OK (CellGeos.region (remove_dups (cells a ++ cells b)) (srid a)).

Definition difference (a b : GEOSGeometry) : result GEOSGeometry :=
  OK (CellGeos.region (list_difference (cells a) (cells b)) (srid a)).

Definition area (g : GEOSGeometry) : Q :=
  inject_Z (Z.of_nat (length (cells g))).

Definition simplify (g : GEOSGeometry) (tolerance : Decimal) : result GEOSGeometry :=
  OK g.

Definition buffer (g : GEOSGeometry) (width : Z) : result GEOSGeometry :=
  OK g.

Definition centroid (g : GEOSGeometry) : result GEOSGeometry :=
  match geom_shape g with
  | LineString [(x0, y0); (x1, y1)] =>
      OK (mkGeom (Point (Some (Qred ((x0 + x1) / 2), Qred ((y0 + y1) / 2))%Q)) (srid g))
  | _ =>
      match cells g with
      | [] => Raise GEOSException
      | cs =>
          let xs := (fun c : CellGeos.cell => inject_Z (fst c) + (1 # 2))%Q <$> cs in
          let ys := (fun c : CellGeos.cell => inject_Z (snd c) + (1 # 2))%Q <$> cs in
          OK (mkGeom (Point (Some (Qred (CellGeos.mean xs), Qred (CellGeos.mean ys))))
                     (srid g))
      end
  end.

(** A point is in the interior of a union of closed cells when every
    cell around it belongs to the union. *)
Definition within (p g : GEOSGeometry) : result bool :=
  match geom_shape p with
  | Point (Some (x, y)) =>
      OK (forallb (fun c => bool_decide (c ∈ cells g))
                  (i ← CellGeos.around x; j ← CellGeos.around y; [(i, j)]))
  | _ => OK false
  end.

Definition extent (g : GEOSGeometry) : result (Q * Q * Q * Q) :=
  match cells g with
  | [] => Raise GEOSException
  | c :: cs =>
      let min_x := foldr Z.min (fst c) (fst <$> cs) in
      let min_y := foldr Z.min (snd c) (snd <$> cs) in
      let max_x := foldr Z.max (fst c) (fst <$> cs) + 1 in
      let max_y := foldr Z.max (snd c) (snd <$> cs) + 1 in
      OK (inject_Z min_x, inject_Z min_y, inject_Z max_x, inject_Z max_y)
  end.

(** The runs of consecutive columns over which the rows around the line
    belong to the polygon in the same way: the boundary meets the line
    where the way changes. *)
Fixpoint pieces (cur : Z * Z * list bool) (cols : list (Z * list bool))
  : list (Z * Z * list bool) :=
  match cols with
  | [] => [cur]
  | (c, s) :: rest =>
      let '(first, last, s0) := cur in
      if bool_decide (s = s0) then pieces (first, c, s0) rest
      else cur :: pieces (c, c, s) rest
  end.

Definition intersection (line g : GEOSGeometry) : result GEOSGeometry :=
  match geom_shape line with
  | LineString [(x0, y); (x1, _)] =>
      let cs := cells g in
      let status (i : Z) : list bool :=
        (fun j => bool_decide ((i, j) ∈ cs)) <$> CellGeos.around y in
      let cols := (fun i => (i, status i)) <$> seqZ (Qfloor x0) (Qceiling x1 - Qfloor x0) in
      let segment (r : Z * Z * list bool) : list coord :=
        [(inject_Z (fst (fst r)), y); (inject_Z (snd (fst r) + 1), y)] in
      let parts :=
        match cols with
        | [] => []
        | (c, s) :: rest => List.filter (fun r => existsb id (snd r)) (pieces (c, c, s) rest)
        end in
      match parts with
      | [] => OK (mkGeom (GeometryCollection []) (srid line))
      | [r] => OK (mkGeom (LineString (segment r)) (srid line))
      | rs => OK (mkGeom (MultiLineString (segment <$> rs)) (srid line))
      end
  | _ => Raise GEOSException
  end.

#[global] Instance ops : GeosOps := {|
  geos_buffer := buffer;
  geos_simplify := simplify;
  geos_centroid := centroid;
  geos_within := within;
  geos_extent := extent;
  geos_intersection := intersection;
  geos_union := union;
  geos_difference := difference;
  geos_area := area
|}.

End RingGeos.

(** ** A polygon whose centre of area lies on its boundary

    A polygon in the shape of an inverted T: a foot 9 wide and 1 high
    under a stem 1 wide that rises to 4 over the columns from 2 to 3.
    Its area is 12 and its centre of area is the point (4, 1), on the
    upper edge of the foot. *)
Module Tee.

Definition ring : list coord :=
  [(0, 0); (9, 0); (9, 1); (3, 1); (3, 4); (2, 4); (2, 1); (0, 1); (0, 0)]%Q.

Definition polygon : GEOSGeometry := mkGeom (Polygon [ring]) (Some 3785).

Definition feature : Feature := Demo.block "T" "7" "120" "60" polygon.

Definition point (x y : Q) : GEOSGeometry := mkGeom (Point (Some (x, y))) None.

End Tee.

(** A polygon in the shape of a ring: a square of side 3 with the unit
    square of its middle as a hole. *)
Module Ring.

Definition shell : list coord := [(0, 0); (3, 0); (3, 3); (0, 3); (0, 0)]%Q.
Definition hole : list coord := [(1, 1); (1, 2); (2, 2); (2, 1); (1, 1)]%Q.
Definition polygon : GEOSGeometry := mkGeom (Polygon [shell; hole]) (Some 3785).
Definition feature : Feature := Demo.block "R" "8" "80" "40" polygon.

End Ring.

(** ** The spec's words for the percentage

    The attribute and the attribute of the denominator parsed and
    truncated to 4 fractional digits; their quotient truncated to 8
    fractional digits when the denominator is above zero, and the zero
    sentinel otherwise. *)
Definition spec_percentage (raw_n raw_d : string) : option pyval :=
  n ← Decimal_of_string raw_n;
  d ← Decimal_of_string raw_d;
  let N := _rescale n (-4) ROUND_DOWN in
  let D := _rescale d (-4) ROUND_DOWN in
  if Decimal_gt_0 D then
    match __div__ N D with
    | OK q => Some (PyDecimal (_rescale q (-8) ROUND_DOWN))
    | Raise _ => None
    end
  else Some zero_sentinel.

(** ** Contiguity overrides *)

(** A row of the ContiguityOverride table: the two columns
    [import_contiguity_overrides] passes to [get_or_create], each the
    primary key of a Geounit. *)
Record ContiguityOverride : Type := mkContiguityOverride {
  override_geounit : nat;
  connect_to_geounit : nat
}.

#[global] Instance ContiguityOverride_eq_dec : EqDecision ContiguityOverride.
Proof. solve_decision. Defined.

(** What [import_contiguity_overrides] can raise: the [Exception] it
    builds for a portable id no unit carries, with that id, and the
    exception of [get_or_create] when several rows match. *)
Inductive override_error : Type :=
| NoGeounitWithPortableId (portable_id : string)
| MultipleObjectsReturned.

(** [temp = Geounit.objects.filter(portable_id=portable_id)] and
    [temp[0]], the first row of the query in the order of the table, or
    [None] when [len(temp) == 0]. *)
Definition first_with_portable_id (st : Store) (pid : string) : option nat :=
  fst <$> head (select (fun u => bool_decide (portable_id u = pid)) (geounits st)).

(** [ContiguityOverride.objects.get_or_create(override_geounit=...,
    connect_to_geounit=...)]: the table and the flag [created]. *)
Definition get_or_create_override (table : list ContiguityOverride)
    (row : ContiguityOverride)
  : override_error + list ContiguityOverride * bool :=
  match List.filter (fun r => bool_decide (r = row)) table with
  | [] => inr ((table ++ [row])%list, true)
  | [_] => inr (table, false)
  | _ => inl MultipleObjectsReturned
  end.

(** The body of the loop over the [ContiguityOverride] elements; an
    element is the pair of its attributes [id] and [connect_to]. *)
Definition import_contiguity_override (st : Store) (table : list ContiguityOverride)
    (co : string * string) : override_error + list ContiguityOverride :=
  match first_with_portable_id st (fst co) with
  | None => inl (NoGeounitWithPortableId (fst co))
  | Some override_geounit =>
      match first_with_portable_id st (snd co) with
      | None => inl (NoGeounitWithPortableId (snd co))
      | Some connect_to_geounit =>
          match get_or_create_override table
                  (mkContiguityOverride override_geounit connect_to_geounit) with
          | inr (table, _) => inr table
          | inl e => inl e
          end
      end
  end.

Fixpoint import_contiguity_loop (st : Store) (config : list (string * string))
    (table : list ContiguityOverride) : override_error + list ContiguityOverride :=
  match config with
  | [] => inr table
  | co :: rest =>
      match import_contiguity_override st table co with
      | inr table => import_contiguity_loop st rest table
      | inl e => inl e
      end
  end.

(** [ContiguityOverride.objects.all().delete()] *)
Definition delete_all (table : list ContiguityOverride) : list ContiguityOverride := [].

(** [import_contiguity_overrides(config, verbose)]: the table it leaves,
    from the table it finds and the [ContiguityOverride] elements of the
    configuration in document order. *)
Definition import_contiguity_overrides (st : Store) (previous : list ContiguityOverride)
    (config : list (string * string)) : override_error + list ContiguityOverride :=
  let table := delete_all previous in
  import_contiguity_loop st config table.

(** ** Further readings of the store and of the configuration *)

(** At most one Characteristic for each unit and subject. *)
Definition unique_characteristics (st : Store) : Prop :=
  ∀ g subject, (length (characteristic_query st g subject) <= 1)%nat.

(** The columns of a unit the renesting never assigns. *)
Definition identity_columns (u : Geounit)
  : string * string * string * nat * GEOSGeometry :=
  (name u, portable_id u, tree_code u, geolevel u, center u).

(** The settings and the columns of the units a pass never assigns. *)
Definition same_identity (st st' : Store) : Prop :=
  identity_columns <$> geounits st' = identity_columns <$> geounits st ∧
  same_settings st st'.

(** The [Field] element [get_shape_tree] reads at a position. *)
Definition tree_field (shapefile : Shapefile) (idx : nat) : option Field :=
  head (List.filter (fun f => bool_decide (field_pos f = Some (Z.of_nat idx)))
                    (fields_of_type shapefile "tree")).

(** A unit whose geometry and simplified geometry are MultiPolygons. *)
Definition multi_geometries (u : Geounit) : Prop :=
  geom_type (geom u) = TMultiPolygon ∧ geom_type (simple u) = TMultiPolygon.

(** The pair of units an element of the configuration names. *)
Definition override_of (st : Store) (co : string * string) : option ContiguityOverride :=
  o ← first_with_portable_id st (fst co);
  c ← first_with_portable_id st (snd co);
  Some (mkContiguityOverride o c).

(** The body of the loop of [get_shape_tree], read on the field of the
    position. *)
Definition tree_step (shapefile : Shapefile) (feature : Feature)
    (builtid : string) (idx : nat) : result string :=
  match tree_field shapefile idx with
  | Some idpart =>
      raw ← feat_get feature (field_name idpart);
      width ← of_option TypeError (field_width idpart);
      OK (builtid +:+ zfill (strip is_blank raw) width)
  | None => OK builtid
  end.

(** A unit as [import_shape] creates it for a configuration: at the
    geolevel the configuration names, with no child, and with
    MultiPolygons for its two geometries. *)
Definition imported_unit (st : Store) (config : Config) (u : Geounit) : Prop :=
  child u = None ∧ multi_geometries u ∧
  ∃ level, get_geolevel st (cfg_geolevel config) = OK level ∧ geolevel u = fst level.

(** The variable [my_geom] holds nothing or a MultiPolygon. *)
Definition multi_or_unbound (my_geom : option GEOSGeometry) : Prop :=
  ∀ g, my_geom = Some g -> geom_type g = TMultiPolygon.

(** The width a position contributes to a tree code. *)
Definition tree_width (shapefile : Shapefile) (idx : nat) : nat :=
  match tree_field shapefile idx with
  | Some idpart => Z.to_nat (default 0 (field_width idpart))
  | None => 0
  end.

(** The fragments of a feature fit the widths of the tree fields. *)
Definition fragments_fit (shapefile : Shapefile) (feature : Feature) : Prop :=
  ∀ idx idpart raw width,
    tree_field shapefile idx = Some idpart ->
    feat_get feature (field_name idpart) = OK raw ->
    field_width idpart = Some width ->
    Z.of_nat (String.length (strip is_blank raw)) <= width.

(** The Subject a [Subject] element of the configuration is stored
    under: the one its last [Subject] child names, or the one its own
    id names when it has no such child. *)
Definition resolved_subject (st : Store) (sconfig : SubjectConfig) : result (nat * Subject) :=
  get_subject st (default (sc_id sconfig) (last (sc_children sconfig))).

(** * Properties *)

Local Close Scope string_scope.

(** ** Lists and tables *)

Section tables.
Context {A : Type}.
Implicit Types (l : list A) (p : A -> bool).

Lemma rows_from_app k l1 l2 :
  rows_from k (l1 ++ l2) = rows_from k l1 ++ rows_from (k + length l1) l2.
Proof.
  revert k. induction l1 as [|x l1 IH]; intros k; simpl.
  - by rewrite Nat.add_0_r.
  - rewrite IH. do 3 f_equal. lia.
Qed.

Lemma rows_from_lookup k l i x :
  (i, x) ∈ rows_from k l ↔ ∃ j, i = (k + j)%nat ∧ l !! j = Some x.
Proof.
  revert k. induction l as [|y l IH]; intros k; simpl.
  - split; [by intros ?%elem_of_nil | by intros (j & _ & ?)].
  - rewrite elem_of_cons, IH. split.
    + intros [[= -> ->]|(j & -> & Hj)].
      * exists 0%nat. split; [lia | done].
      * exists (S j). split; [lia | done].
    + intros ([|j] & -> & Hj); simpl in Hj.
      * left. f_equal; [lia | congruence].
      * right. exists j. split; [lia | done].
Qed.

Lemma elem_of_rows l i x : (i, x) ∈ rows l ↔ l !! i = Some x.
Proof.
  unfold rows. rewrite rows_from_lookup. split.
  - by intros (j & -> & ?).
  - intros ?. by exists i.
Qed.

Lemma elem_of_select p l i x :
  (i, x) ∈ select p l ↔ l !! i = Some x ∧ p x = true.
Proof.
  unfold select. rewrite list_elem_of_In, filter_In, <- list_elem_of_In, elem_of_rows.
  done.
Qed.

Lemma select_app p l x :
  select p (l ++ [x]) = select p l ++ (if p x then [(length l, x)] else []).
Proof.
  unfold select, rows. rewrite rows_from_app, List.filter_app. simpl.
  by destruct (p x).
Qed.

Lemma filter_rows_insert_ne (q : nat * A -> bool) k l j x y :
  l !! j = Some y -> q ((k + j)%nat, y) = false -> q ((k + j)%nat, x) = false ->
  List.filter q (rows_from k (<[j := x]> l)) = List.filter q (rows_from k l).
Proof.
  revert k j. induction l as [|z l IH]; intros k j Hj Hy Hx; [done|].
  destruct j as [|j]; simpl in *.
  - injection Hj as ->. rewrite Nat.add_0_r in Hy, Hx. by rewrite Hx, Hy.
  - rewrite (IH (S k) j); [done | done | |].
    + by replace (S k + j)%nat with (k + S j)%nat by lia.
    + by replace (S k + j)%nat with (k + S j)%nat by lia.
Qed.

Lemma select_insert_ne p l j x y :
  l !! j = Some y -> p y = false -> p x = false ->
  select p (<[j := x]> l) = select p l.
Proof. intros. unfold select, rows. by eapply filter_rows_insert_ne. Qed.

Lemma filter_rows_insert_head (q : nat * A -> bool) k l i y x rest :
  List.filter q (rows_from k l) = (i, y) :: rest ->
  q (i, x) = true ->
  ∃ j, i = (k + j)%nat ∧ l !! j = Some y ∧
       List.filter q (rows_from k (<[j := x]> l)) = (i, x) :: rest.
Proof.
  revert k. induction l as [|z l IH]; intros k Hf Hx; [done|].
  simpl in Hf. destruct (q (k, z)) eqn:Hz.
  - injection Hf as -> -> <-. exists 0%nat. simpl.
    rewrite Nat.add_0_r, Hx. done.
  - destruct (IH _ Hf Hx) as (j & -> & Hj & Hins).
    exists (S j). simpl. rewrite Hz, Hins.
    split; [lia|]. split; [done|]. do 2 f_equal. 
Qed.

Lemma select_insert_head p l i y x rest :
  select p l = (i, y) :: rest -> p x = true ->
  l !! i = Some y ∧ select p (<[i := x]> l) = (i, x) :: rest.
Proof.
  intros Hs Hx. unfold select, rows in *.
  destruct (filter_rows_insert_head _ 0 l i y x rest Hs Hx) as (j & -> & ? & ?).
  done.
Qed.

Lemma filter_insert_ne (q : A -> bool) l j x y :
  l !! j = Some y -> q y = false -> q x = false ->
  List.filter q (<[j := x]> l) = List.filter q l.
Proof.
  revert j. induction l as [|z l IH]; intros j Hj Hy Hx; [done|].
  destruct j as [|j]; simpl in *.
  - injection Hj as ->. by rewrite Hx, Hy.
  - by rewrite (IH j).
Qed.

Lemma filter_app_ne (q : A -> bool) l x :
  q x = false -> List.filter q (l ++ [x]) = List.filter q l.
Proof. intros Hx. rewrite List.filter_app. simpl. rewrite Hx. apply app_nil_r. Qed.

End tables.

(** ** The result monad and loops *)

Lemma bind_OK {A B} (r : result A) (k : A -> result B) (b : B) :
  (r ≫= k) = OK b -> ∃ a, r = OK a ∧ k a = OK b.
Proof. destruct r as [a|e]; simpl; [by exists a | done]. Qed.

Lemma of_option_OK {A} (e : exn) (o : option A) (a : A) :
  of_option e o = OK a -> o = Some a.
Proof. destruct o; simpl; congruence. Qed.

Lemma for_each_cons {A S} (body : S -> A -> result S) (x : A) (l : list A) (s : S) :
  for_each body (x :: l) s = (body s x ≫= for_each body l).
Proof. done. Qed.

Lemma for_each_app {A S} (body : S -> A -> result S) (l1 l2 : list A) (s : S) :
  for_each body (l1 ++ l2) s = (for_each body l1 s ≫= for_each body l2).
Proof.
  revert s. induction l1 as [|x l1 IH]; intros s; simpl; [done|].
  destruct (body s x) as [s'|e]; simpl; [apply IH | done].
Qed.

(** An invariant of the state that every iteration keeps is kept by the
    loop. *)
Lemma for_each_invariant {A S} (I : S -> Prop) (P : A -> Prop)
    (body : S -> A -> result S) (l : list A) (s s' : S) :
  (∀ s x s', P x -> I s -> body s x = OK s' -> I s') ->
  Forall P l -> I s -> for_each body l s = OK s' -> I s'.
Proof.
  intros Hbody HP. revert s. induction HP as [|x l Hx HP IH]; intros s Hs Hrun; simpl in Hrun.
  - by injection Hrun as <-.
  - apply bind_OK in Hrun as (s1 & Hx1 & Hrest). eauto.
Qed.

Ltac inv_OK H :=
  repeat match type of H with
         | (_ ≫= _) = OK _ =>
             let a := fresh "a" in
             let Ha := fresh "H" a in
             apply bind_OK in H as (a & Ha & H)
         end.

(** ** Decimal arithmetic *)

Lemma quantize_exp self exp r d : quantize self exp r = OK d -> _exp d = _exp exp.
Proof.
  unfold quantize. intros Hq.
  repeat match type of Hq with
         | (if ?c then _ else _) = OK _ => destruct c; try discriminate
         end; injection Hq as <-; try done.
  unfold _rescale. by repeat case_match.
Qed.

Lemma _rescale_id d r : _rescale d (_exp d) r = d.
Proof.
  unfold _rescale. destruct d as [s c e]; simpl.
  destruct (c =? 0) eqn:Hc.
  - apply Z.eqb_eq in Hc as ->. done.
  - rewrite Z.leb_refl, Z.sub_diag, Z.mul_1_r. done.
Qed.

(** ** The Characteristic Assigner *)

Lemma head_Some_cons {A} (l : list A) (x : A) : head l = Some x -> l = x :: tail l.
Proof. destruct l; simpl; congruence. Qed.

Section assigner.
Context `{Backend}.

Lemma save_characteristic_inv st g subject num pct st' i :
  save_characteristic st (fst <$> head (characteristic_query st g subject))
                      g subject num pct = OK (st', i) ->
  ∃ z, number_of_pyval num = Some z ∧
       characteristic_accepts (mkCharacteristic g subject z pct) = true ∧
       st' = set_characteristics st (saved_rows st g subject (mkCharacteristic g subject z pct)).
Proof.
  unfold save_characteristic, saved_rows. intros Hsave.
  destruct (number_of_pyval num) as [z|]; [|done].
  exists z. split; [done|].
  destruct (characteristic_accepts _) eqn:Hacc; [|done]. split; [done|].
  destruct (fst <$> head _); by injection Hsave as <- _.
Qed.

Lemma stored_after_save st g subject row :
  c_geounit row = g -> c_subject row = subject ->
  stored_characteristic (set_characteristics st (saved_rows st g subject row)) g subject
  = Some row.
Proof.
  intros Hg Hs. unfold stored_characteristic, saved_rows, characteristic_query. simpl.
  set (p := fun c => Nat.eqb (c_subject c) subject && Nat.eqb (c_geounit c) g).
  assert (Hrow : p row = true).
  { unfold p. rewrite Hg, Hs, !Nat.eqb_refl. done. }
  destruct (head (select p (characteristics st))) as [[i y]|] eqn:Hhead; simpl.
  - apply head_Some_cons in Hhead.
    destruct (select_insert_head p _ i y row _ Hhead Hrow) as [_ ->]. done.
  - assert (select p (characteristics st) = []) as Hnil
      by (destruct (select p _); [done | discriminate]).
    rewrite select_app, Hnil, Hrow. done.
Qed.

Lemma query_after_save st g subject row g' subject' :
  c_geounit row = g -> c_subject row = subject ->
  (subject', g') ≠ (subject, g) ->
  characteristic_query (set_characteristics st (saved_rows st g subject row)) g' subject'
  = characteristic_query st g' subject'.
Proof.
  intros Hg Hs Hne. unfold saved_rows, characteristic_query. simpl.
  set (p := fun c => Nat.eqb (c_subject c) subject && Nat.eqb (c_geounit c) g).
  set (p' := fun c => Nat.eqb (c_subject c) subject' && Nat.eqb (c_geounit c) g').
  assert (Hrow : p' row = false).
  { unfold p'. rewrite Hg, Hs. apply not_true_is_false. intros Heq. apply Hne.
    rewrite andb_true_iff, !Nat.eqb_eq in Heq. destruct Heq as [<- <-]. done. }
  destruct (head (select p (characteristics st))) as [[i y]|] eqn:Hhead; simpl.
  - assert ((i, y) ∈ select p (characteristics st)) as [Hi Hy]%elem_of_select.
    { apply head_Some_cons in Hhead. rewrite Hhead. left. }
    apply (select_insert_ne p' _ i row y Hi); [|done].
    unfold p, p' in *. apply not_true_is_false. intros Heq. apply Hne.
    rewrite andb_true_iff, !Nat.eqb_eq in Hy, Heq.
    destruct Hy as [<- <-], Heq as [<- <-]. done.
  - rewrite select_app, Hrow. apply app_nil_r.
Qed.

Lemma quantized_field_exp feat attr value :
  quantized_field feat attr = OK value -> _exp value = -4.
Proof.
  unfold quantized_field, new_Decimal. intros Hq. inv_OK Hq.
  injection Ha1 as <-. by apply quantize_exp in Hq.
Qed.

Lemma number_of_quantized feat attr value :
  quantized_field feat attr = OK value ->
  number_of_pyval (PyDecimal value) = Some (signed_int value).
Proof.
  intros He%quantized_field_exp. simpl. by rewrite <- He, _rescale_id.
Qed.

(** What one iteration of the Assigner's loop leaves: the row of the
    subject holds the quantized value, or zero when the store refused
    it, with the percentage computed before the save. *)
Lemma set_one_characteristic_inv g so feat st attr subject obj st' :
  endswith attr "_by_id" = false ->
  set_one_characteristic g so feat st (attr, DSubject subject obj) = OK st' ->
  ∃ value pct z,
    quantized_field feat attr = OK value ∧
    characteristic_percentage st so feat obj value = OK pct ∧
    (z = signed_int value ∨
     characteristic_accepts (mkCharacteristic g subject (signed_int value) pct) = false ∧ z = 0) ∧
    characteristic_accepts (mkCharacteristic g subject z pct) = true ∧
    st' = set_characteristics st (saved_rows st g subject (mkCharacteristic g subject z pct)).
Proof.
  intros Hattr Hrun. unfold set_one_characteristic in Hrun. rewrite Hattr in Hrun.
  inv_OK Hrun. exists a, a0.
  pose proof (number_of_quantized _ _ _ Ha) as Hnum.
  destruct (save_characteristic st _ g subject (PyDecimal a) a0) as [[st1 i]|e] eqn:Hsave.
  - injection Hrun as <-.
    apply save_characteristic_inv in Hsave as (z & Hz & Hacc & ->).
    exists z. rewrite Hnum in Hz. injection Hz as <-. split_and!; try done. by left.
  - inv_OK Hrun. destruct a1 as [st1 i]. injection Hrun as <-.
    apply save_characteristic_inv in Ha1 as (z & Hz & Hacc & ->).
    vm_compute in Hz. injection Hz as <-.
    exists 0. split_and!; try done. right. split; [|done].
    unfold save_characteristic in Hsave. rewrite Hnum in Hsave.
    destruct (characteristic_accepts _) eqn:Hacc' in Hsave; [|done].
    by destruct (fst <$> head _).
Qed.

Lemma set_one_characteristic_static g so feat st item st' :
  set_one_characteristic g so feat st item = OK st' ->
  subjects st' = subjects st ∧ geounits st' = geounits st ∧
  geolevels st' = geolevels st ∧ legislative_levels st' = legislative_levels st.
Proof.
  destruct item as [attr [subject obj|field]]; unfold set_one_characteristic at 1;
    destruct (endswith attr "_by_id") eqn:Hattr; try by intros [= <-].
  intros Hrun.
  assert (set_one_characteristic g so feat st (attr, DSubject subject obj) = OK st') as Hinv
    by (unfold set_one_characteristic; by rewrite Hattr).
  apply set_one_characteristic_inv in Hinv as (? & ? & ? & _ & _ & _ & _ & ->); done.
Qed.

Lemma set_one_characteristic_frame g so feat st item st' subject :
  writes_subject subject item = false ->
  set_one_characteristic g so feat st item = OK st' ->
  characteristic_query st' g subject = characteristic_query st g subject.
Proof.
  intros Hw Hrun. destruct item as [attr entry].
  unfold writes_subject in Hw. cbn [fst snd] in Hw.
  destruct (endswith attr "_by_id") eqn:Hattr.
  { unfold set_one_characteristic in Hrun. rewrite Hattr in Hrun. by injection Hrun as <-. }
  destruct entry as [s obj|field].
  - apply set_one_characteristic_inv in Hrun as (? & ? & ? & _ & _ & _ & _ & ->); [|done].
    apply query_after_save; [done..|].
    apply Nat.eqb_neq in Hw. congruence.
  - unfold set_one_characteristic in Hrun. by rewrite Hattr in Hrun.
Qed.

Lemma assigner_loop_frame g so feat items st st' subject :
  forallb (fun item => negb (writes_subject subject item)) items = true ->
  for_each (set_one_characteristic g so feat) items st = OK st' ->
  characteristic_query st' g subject = characteristic_query st g subject ∧
  subjects st' = subjects st.
Proof.
  revert st. induction items as [|item items IH]; intros st Hnone Hrun; simpl in *.
  - by injection Hrun as <-.
  - apply andb_true_iff in Hnone as [Hitem Hnone]. apply negb_true_iff in Hitem.
    apply bind_OK in Hrun as (st1 & Hone & Hrest).
    destruct (IH _ Hnone Hrest) as [-> ->].
    split; [by eapply set_one_characteristic_frame|].
    by apply set_one_characteristic_static in Hone as [? _].
Qed.

Lemma characteristic_percentage_subjects st1 st2 so feat obj value :
  subjects st1 = subjects st2 ->
  characteristic_percentage st1 so feat obj value
  = characteristic_percentage st2 so feat obj value.
Proof. unfold characteristic_percentage. by intros ->. Qed.

(** The three cases of [characteristic_percentage]. *)
Lemma characteristic_percentage_inv st so feat obj N pct :
  characteristic_percentage st so feat obj N = OK pct ->
  match percentage_denominator obj with
  | None => pct = zero_sentinel
  | Some den =>
      ∃ den_subject field D,
        subjects st !! den = Some den_subject ∧
        dict_get (subject_name den_subject +:+ "_by_id") so = OK (DField field) ∧
        quantized_field feat field = OK D ∧
        if Decimal_gt_0 D then ∃ q, __div__ N D = OK q ∧ pct = PyDecimal q
        else pct = zero_sentinel
  end.
Proof.
  unfold characteristic_percentage. destruct (percentage_denominator obj) as [den|].
  - intros Hrun. inv_OK Hrun. destruct a0 as [|field]; [done|]. inv_OK Hrun.
    exists a, field, a0. split_and!; try done.
    + by apply of_option_OK in Ha.
    + destruct (Decimal_gt_0 a0).
      * inv_OK Hrun. injection Hrun as <-. by exists a1.
      * by injection Hrun as <-.
  - by intros [= <-].
Qed.

End assigner.

(** *** Number: the rounding of [quantize] *)

(** The rounding of [quantized_field] is the context's: the string
    ['ROUND_DOWN'] goes to the constructor of the exponent and never
    reaches [quantize]. *)
Lemma quantized_field_half_even feat attr raw d value :
  feat_get feat attr = OK raw ->
  Decimal_of_string raw = Some d ->
  quantized_field feat attr = OK value ->
  value = _rescale d (-4) ROUND_HALF_EVEN.
Proof.
  unfold quantized_field, new_Decimal. intros Hget Hparse Hq.
  rewrite Hget in Hq. simpl in Hq. rewrite Hparse in Hq. simpl in Hq.
  unfold quantize in Hq. simpl in Hq.
  repeat match type of Hq with
         | (if ?c then _ else _) = OK _ => destruct c eqn:?; try discriminate
         end; injection Hq as <-; [|done].
  unfold _rescale. by rewrite Heqb.
Qed.

(** C5 (the code at a value whose fifth fractional digit is above 5): the
    attribute 45.12346 of block B is stored as 45.1235, in units of
    1/10000, where truncation to 4 fractional digits gives 45.1234; the
    value 45.12345 of block A, a tie, is stored as 45.1234. *)
Theorem number_is_rounded_half_even :
  (st ← import_shape (H := CellGeos.ops) (H0 := accepting_backend)
          (Demo.blocks_config [Demo.block_A; Demo.block_B]) Demo.empty_store;
   OK (number <$> stored_characteristic st 1 1, number <$> stored_characteristic st 0 1))
  = OK (Some 451235, Some 451234) ∧
  spec_truncated_number "45.12346" = Some 451234 ∧
  spec_truncated_number "45.12345" = Some 451234.
Proof. vm_compute. done. Qed.

(** *** Percentage *)

Section percentage.
Context `{Backend}.

(** X25: after the Assigner has run for a unit, the Characteristic of a
    subject mapped under one attribute holds as percentage the value
    handed to the store: for N the attribute and D the attribute of the
    denominator subject, both quantized at 4 places with the rounding
    of the context, the quotient N / D of the decimal division when
    D > 0, the zero sentinel when D <= 0, and the zero sentinel when
    the subject has no denominator. *)
Theorem percentage_law g so feat st st' before after attr subject obj :
  set_geounit_characteristic g so feat st = OK st' ->
  so = before ++ (attr, DSubject subject obj) :: after ->
  endswith attr "_by_id" = false ->
  forallb (fun item => negb (writes_subject subject item)) (before ++ after) = true ->
  ∃ c N,
    stored_characteristic st' g subject = Some c ∧
    quantized_field feat attr = OK N ∧
    match percentage_denominator obj with
    | None => percentage c = zero_sentinel
    | Some den =>
        ∃ den_subject field D,
          subjects st !! den = Some den_subject ∧
          dict_get (subject_name den_subject +:+ "_by_id") so = OK (DField field) ∧
          quantized_field feat field = OK D ∧
          if Decimal_gt_0 D then ∃ q, __div__ N D = OK q ∧ percentage c = PyDecimal q
          else percentage c = zero_sentinel
    end.
Proof.
  intros Hrun Hso Hattr Hothers.
  unfold set_geounit_characteristic in Hrun. rewrite Hso in Hrun at 2.
  rewrite for_each_app in Hrun. apply bind_OK in Hrun as (st1 & Hbefore & Hrun).
  simpl in Hrun. apply bind_OK in Hrun as (st2 & Hone & Hafter).
  rewrite forallb_app in Hothers. apply andb_true_iff in Hothers as [Hb Ha].
  destruct (assigner_loop_frame _ _ _ _ _ _ _ Hb Hbefore) as [_ Hsubj1].
  destruct (assigner_loop_frame _ _ _ _ _ _ _ Ha Hafter) as [Hq _].
  apply set_one_characteristic_inv in Hone as (N & pct & z & HN & Hpct & _ & _ & ->); [|done].
  exists (mkCharacteristic g subject z pct), N. split_and!; [|done|].
  - unfold stored_characteristic. rewrite Hq. by apply stored_after_save.
  - rewrite (characteristic_percentage_subjects st1 st) in Hpct by done.
    apply characteristic_percentage_inv in Hpct. done.
Qed.

End percentage.

Lemma percentage_law_witness :
  ∃ st', set_geounit_characteristic (H := accepting_backend) 0
           Demo.subject_objects Demo.block_A Demo.empty_store = OK st' ∧
    ∃ c N,
      stored_characteristic st' 0 1 = Some c ∧
      quantized_field Demo.block_A "WHITE" = OK N ∧
      ∃ den_subject field D,
        subjects Demo.empty_store !! 0%nat = Some den_subject ∧
        dict_get (subject_name den_subject +:+ "_by_id") Demo.subject_objects
          = OK (DField field) ∧
        quantized_field Demo.block_A field = OK D ∧
        if Decimal_gt_0 D then ∃ q, __div__ N D = OK q ∧ percentage c = PyDecimal q
        else percentage c = zero_sentinel.
Proof.
  eexists. split; [vm_compute; reflexivity|].
  apply (percentage_law (H := accepting_backend) 0 Demo.subject_objects Demo.block_A
           Demo.empty_store _
           [("TOTAL"%string, DSubject 0 (mkSubject "poptot" None));
            ("poptot_by_id"%string, DField "TOTAL")]
           [("popwhite_by_id"%string, DField "WHITE")]
           "WHITE" 1 (mkSubject "popwhite" (Some 0%nat)));
    vm_compute; reflexivity.
Defined.

(** The assignment example of the percentage: 45.1234 / 100.0000. *)
Example percentage_example :
  __div__ (mkDecimal false 451234 (-4)) (mkDecimal false 1000000 (-4))
  = OK (mkDecimal false 451234 (-6)).
Proof. vm_compute. done. Qed.

(** *** Failures in the Assigner *)

(** C8 (the code at an attribute that is not a number): block A carries
    the value N/A for the white population.  The conversion to a decimal
    stands before the [try] that guards the save: it raises
    [InvalidOperation], the exception leaves the Assigner, which stores
    no zero for the value, and it leaves the import, which never reads
    block B. *)
Lemma unparsable_value_aborts_import :
  set_geounit_characteristic (H := accepting_backend) 0 Demo.subject_objects
    (Demo.block "A" "1" "100" "N/A" (Demo.square 0 0)) Demo.empty_store
  = Raise InvalidOperation ∧
  import_shape (H := CellGeos.ops) (H0 := accepting_backend)
    (Demo.blocks_config [Demo.block "A" "1" "100" "N/A" (Demo.square 0 0); Demo.block_B])
    Demo.empty_store
  = Raise InvalidOperation.
Proof. vm_compute. done. Qed.

(** ** The multi-polygon coercion *)

Lemma nonempty_geom_bool g :
  geom_type g ≠ TPolygon -> geom_empty g = false -> geom_bool g = true.
Proof.
  unfold geom_type, geom_empty, geom_bool. destruct g as [sh sr]; simpl.
  destruct sh as [[?|]|[|??]|[|??]|?|[|??]|[|??]|[|??]|[|??]]; simpl; done.
Qed.

(** C7: [enforce_multi] wraps a polygon into a one-member multi-polygon,
    returns a multi-polygon as it is, turns any other geometry that is
    not empty into the empty collection with the SRID of its argument,
    and returns [None] for [None]. *)
Theorem enforce_multi_cases :
  (∀ rings sr,
      enforce_multi (Some (mkGeom (Polygon rings) sr))
      = OK (Some (mkGeom (MultiPolygon [rings]) None))) ∧
  (∀ g, geom_type g = TMultiPolygon -> enforce_multi (Some g) = OK (Some g)) ∧
  (∀ g, geom_type g ≠ TPolygon -> geom_type g ≠ TMultiPolygon -> geom_empty g = false ->
        enforce_multi (Some g) = OK (Some (mkGeom (GeometryCollection []) (srid g)))) ∧
  enforce_multi None = OK None.
Proof.
  split_and!; try done.
  - intros g Hty. unfold enforce_multi. rewrite Hty. simpl. by destruct (geom_bool g).
  - intros g Hpoly Hmulti Hempty. unfold enforce_multi.
    rewrite (nonempty_geom_bool g Hpoly Hempty).
    rewrite !bool_decide_eq_false_2 by done. done.
Qed.

Lemma enforce_multi_cases_witness :
  enforce_multi (Some (mkGeom (LineString [(0, 0); (1, 1)]%Q) (Some 3785)))
  = OK (Some (mkGeom (GeometryCollection []) (Some 3785))).
Proof.
  apply (proj1 (proj2 (proj2 enforce_multi_cases))
           (mkGeom (LineString [(0, 0); (1, 1)]%Q) (Some 3785))); done.
Defined.

(** [enforce_multi] never raises, and gives a geometry for a geometry. *)
Lemma enforce_multi_total g : ∃ g', enforce_multi (Some g) = OK (Some g').
Proof.
  unfold enforce_multi. destruct (geom_bool g); [|by eauto].
  destruct (bool_decide (geom_type g = TMultiPolygon)); [by eauto|].
  destruct (bool_decide (geom_type g = TPolygon)) eqn:Hp; [|by eauto].
  apply bool_decide_eq_true in Hp. unfold new_MultiPolygon, geom_type in *.
  destruct (geom_shape g); simpl in *; try done. eauto.
Qed.

(** ** The Hierarchy Aggregator *)

Lemma number_of_Decimal_of_number z :
  number_of_pyval (PyDecimal (Decimal_of_number z)) = Some z.
Proof.
  simpl. change (-4) with (_exp (Decimal_of_number z)). rewrite _rescale_id.
  unfold signed_int, Decimal_of_number. simpl.
  destruct (Z.ltb_spec z 0); f_equal; [rewrite Z.abs_neq | rewrite Z.abs_eq]; lia.
Qed.

Lemma signed_int_Decimal_of_number z : signed_int (Decimal_of_number z) = z.
Proof.
  unfold signed_int, Decimal_of_number. simpl.
  destruct (Z.ltb_spec z 0); [rewrite Z.abs_neq | rewrite Z.abs_eq]; lia.
Qed.

Lemma Decimal_ne_number x y :
  Decimal_ne (Decimal_of_number x) (Decimal_of_number y) = false -> x = y.
Proof.
  unfold Decimal_ne. rewrite !signed_int_Decimal_of_number.
  change (_exp (Decimal_of_number x)) with (-4).
  change (_exp (Decimal_of_number y)) with (-4).
  rewrite Z.min_id, Z.sub_diag, Z.pow_0_r, !Z.mul_1_r.
  intros Hne%negb_false_iff. by apply Z.eqb_eq in Hne.
Qed.

Section select_keys.
Context {A B : Type}.

Lemma rows_from_fmap (f : A -> B) k (l : list A) :
  rows_from k (f <$> l) = prod_map id f <$> rows_from k l.
Proof.
  revert k. induction l as [|x l IH]; intros k; simpl; [done|]. by rewrite IH.
Qed.

Lemma select_fmap (q : B -> bool) (f : A -> B) (l : list A) :
  select q (f <$> l) = prod_map id f <$> select (fun x => q (f x)) l.
Proof.
  unfold select, rows. generalize 0%nat.
  induction l as [|x l IH]; intros k; simpl; [done|].
  destruct (q (f x)); simpl; by rewrite IH.
Qed.

Lemma fst_select_fmap (q : B -> bool) (f : A -> B) (l : list A) :
  fst <$> select q (f <$> l) = fst <$> select (fun x => q (f x)) l.
Proof.
  rewrite select_fmap, <- list_fmap_compose. apply list_fmap_ext.
  by intros ? [??].
Qed.

End select_keys.

Lemma select_ext {A} (p q : A -> bool) (l : list A) :
  (∀ x, p x = q x) -> select p l = select q l.
Proof.
  intros Hpq. unfold select. apply filter_ext. intros [??]. apply Hpq.
Qed.

Lemma in_parentunits_key code level u :
  in_parentunits code level u = key_in_parentunits code level (hierarchy_key u).
Proof. reflexivity. Qed.

Lemma parent_set_same_keys st st' code level :
  same_keys st st' -> parent_set st' code level = parent_set st code level.
Proof.
  unfold same_keys, parent_set, parentunits_of. intros Hkeys.
  rewrite (select_ext (in_parentunits code level)
             (fun u => key_in_parentunits code level (hierarchy_key u)) (geounits st'))
    by apply in_parentunits_key.
  rewrite (select_ext (in_parentunits code level)
             (fun u => key_in_parentunits code level (hierarchy_key u)) (geounits st))
    by apply in_parentunits_key.
  rewrite <- (fst_select_fmap (key_in_parentunits code level) hierarchy_key (geounits st')).
  rewrite <- (fst_select_fmap (key_in_parentunits code level) hierarchy_key (geounits st)).
  by rewrite Hkeys.
Qed.

Lemma same_keys_refl st : same_keys st st.
Proof. done. Qed.

Lemma same_keys_trans st1 st2 st3 :
  same_keys st1 st2 -> same_keys st2 st3 -> same_keys st1 st3.
Proof. unfold same_keys. congruence. Qed.

Lemma update_child_same_keys st code level pk :
  same_keys st (update_child st code level pk).
Proof.
  unfold same_keys, update_child. simpl. rewrite <- list_fmap_compose.
  apply list_fmap_ext. intros _ u _. simpl. by destruct (in_parentunits code level u).
Qed.


Lemma existsb_not_elem_of (p : nat) (units : list nat) :
  p ∉ units -> existsb (Nat.eqb p) units = false.
Proof.
  intros Hp. apply not_true_is_false. intros (x & Hx & Heq)%existsb_exists.
  apply Nat.eqb_eq in Heq as <-. by apply list_elem_of_In in Hx.
Qed.

Lemma number_of_aggdata (qset : list Characteristic) :
  number_of_pyval match Sum_number qset with
                  | Some a => PyDecimal a
                  | None => PyStr "0.0"
                  end
  = Some (sum_numbers qset).
Proof.
  destruct qset as [|c qset]; [done|].
  unfold Sum_number. apply number_of_Decimal_of_number.
Qed.

(** A save of a row of unit [p] leaves the rows of other units as they
    are. *)
Lemma characteristics_in_saved st p subject row units s :
  c_geounit row = p -> c_subject row = subject -> p ∉ units ->
  characteristics_in (set_characteristics st (saved_rows st p subject row)) units s
  = characteristics_in st units s.
Proof.
  intros Hp Hs Hunits. unfold characteristics_in, saved_rows, characteristic_query. simpl.
  set (q := fun c => existsb (Nat.eqb (c_geounit c)) units && Nat.eqb (c_subject c) s).
  assert (Hq : ∀ c, c_geounit c = p -> q c = false).
  { intros c Hc. unfold q. by rewrite Hc, existsb_not_elem_of. }
  destruct (head (select _ (characteristics st))) as [[i y]|] eqn:Hhead; simpl.
  - apply head_Some_cons in Hhead.
    assert ((i, y) ∈ select (fun c => Nat.eqb (c_subject c) subject && Nat.eqb (c_geounit c) p)
                        (characteristics st)) as [Hi Hy]%elem_of_select
      by (rewrite Hhead; left).
    apply andb_true_iff in Hy as [_ Hy%Nat.eqb_eq].
    apply (filter_insert_ne q _ i row y Hi); by apply Hq.
  - apply filter_app_ne. by apply Hq.
Qed.

Section aggregator.
Context `{GeosOps} `{Backend}.

(** What one iteration of the loop over the subjects leaves: the
    Characteristic of the unit holds the sum over the parent set, and the
    store is as before or differs by one save of a row of the unit. *)
Lemma aggregate_subject_inv p code level st num subject subject_obj st' num' :
  aggregate_subject p code level (st, num) (subject, subject_obj) = OK (st', num') ->
  (∃ c, stored_characteristic st' p subject = Some c ∧
        number c = sum_numbers (characteristics_in st (parent_set st code level) subject)) ∧
  (st' = st ∨
   ∃ row, c_geounit row = p ∧ c_subject row = subject ∧
          st' = set_characteristics st (saved_rows st p subject row)).
Proof.
  unfold aggregate_subject. fold (parent_set st code level).
  set (qset := characteristics_in st (parent_set st code level) subject).
  intros Hrun. apply bind_OK in Hrun as (pct & _ & Hrun).
  pose proof (number_of_aggdata qset) as Hnum.
  destruct (characteristic_query st p subject) as [|[pk mychar] rest] eqn:Hquery.
  - apply bind_OK in Hrun as ([st1 i] & Hsave & Hrun). injection Hrun as <- _.
    change None with (fst <$> head (@nil (nat * Characteristic))) in Hsave.
    rewrite <- Hquery in Hsave.
    apply save_characteristic_inv in Hsave as (z & Hz & _ & ->).
    rewrite Hnum in Hz. injection Hz as <-. split.
    + eexists. split; [by apply stored_after_save | done].
    + right. by exists (mkCharacteristic p subject (sum_numbers qset) pct).
  - destruct (pyval_ne_Decimal _ _) eqn:Hne.
    + apply bind_OK in Hrun as ([st1 i] & Hsave & Hrun). injection Hrun as <- _.
      change (Some pk) with (fst <$> head ((pk, mychar) :: rest)) in Hsave.
      rewrite <- Hquery in Hsave.
      apply save_characteristic_inv in Hsave as (z & Hz & _ & ->).
      rewrite Hnum in Hz. injection Hz as <-. split.
      * eexists. split; [by apply stored_after_save | done].
      * right. by exists (mkCharacteristic p subject (sum_numbers qset) pct).
    + injection Hrun as <- _. split; [|by left].
      exists mychar. split.
      * unfold stored_characteristic. by rewrite Hquery.
      * destruct qset as [|c qset'] eqn:Hqset; [done|].
        simpl in Hne. by apply Decimal_ne_number in Hne.
Qed.

Lemma aggregate_subject_static p code level st num row st' num' :
  aggregate_subject p code level (st, num) row = OK (st', num') ->
  geounits st' = geounits st ∧ subjects st' = subjects st.
Proof.
  destruct row as [subject subject_obj].
  intros [_ [->|(? & _ & _ & ->)]]%aggregate_subject_inv; done.
Qed.

Lemma aggregate_subject_others p code level st num row st' num' units s :
  aggregate_subject p code level (st, num) row = OK (st', num') ->
  p ∉ units ->
  characteristics_in st' units s = characteristics_in st units s.
Proof.
  destruct row as [subject subject_obj].
  intros [_ [->|(? & ? & ? & ->)]]%aggregate_subject_inv Hp; [done|].
  by apply characteristics_in_saved.
Qed.

Lemma aggregate_subject_frame p code level st num subject subject_obj st' num' p' s :
  aggregate_subject p code level (st, num) (subject, subject_obj) = OK (st', num') ->
  (s, p') ≠ (subject, p) ->
  characteristic_query st' p' s = characteristic_query st p' s.
Proof.
  intros [_ [->|(? & ? & ? & ->)]]%aggregate_subject_inv Hne; [done|].
  by apply query_after_save.
Qed.

Lemma parent_set_geounits st st' code level :
  geounits st' = geounits st -> parent_set st' code level = parent_set st code level.
Proof. unfold parent_set, parentunits_of. by intros ->. Qed.

(** The loop over the subjects. *)
Lemma aggregate_subjects_inv p code level items st num st' num' :
  NoDup (fst <$> items) ->
  p ∉ parent_set st code level ->
  for_each (aggregate_subject p code level) items (st, num) = OK (st', num') ->
  geounits st' = geounits st ∧ subjects st' = subjects st ∧
  (∀ units s, p ∉ units -> characteristics_in st' units s = characteristics_in st units s) ∧
  (∀ p' s, p' ≠ p ∨ s ∉ fst <$> items ->
           characteristic_query st' p' s = characteristic_query st p' s) ∧
  (∀ s, s ∈ fst <$> items ->
        ∃ c, stored_characteristic st' p s = Some c ∧
             number c = sum_numbers (characteristics_in st (parent_set st code level) s)).
Proof.
  revert st num. induction items as [|[s0 obj] items IH]; intros st num Hnodup Hp Hrun.
  - injection Hrun as <- <-. split_and!; try done. by intros s ?%elem_of_nil.
  - rewrite for_each_cons in Hrun. apply bind_OK in Hrun as ([st1 num1] & Hone & Hrest).
    rewrite fmap_cons in Hnodup. apply NoDup_cons in Hnodup as [Hs0 Hnodup].
    destruct (aggregate_subject_static _ _ _ _ _ _ _ _ Hone) as [Hunits1 Hsubjects1].
    pose proof (parent_set_geounits st st1 code level Hunits1) as Hset.
    destruct (IH st1 num1 Hnodup) as (Hunits & Hsubjects & Hothers & Hframe & Hsums);
      [by rewrite Hset | done |].
    split_and!.
    + congruence.
    + congruence.
    + intros units s Hu. rewrite Hothers by done.
      by eapply aggregate_subject_others.
    + intros p' s Hne. rewrite Hframe.
      * eapply aggregate_subject_frame; [done|]. simpl in Hne.
        intros [= -> ->]. destruct Hne as [?|Hne]; [done|]. apply Hne. left.
      * destruct Hne as [?|Hne]; [by left|]. right. intros ?. apply Hne. by right.
    + intros s Hs. simpl in Hs. destruct (decide (s ∈ fst <$> items)) as [Hin|Hout].
      * destruct (Hsums s Hin) as (c & Hc & Hnum). exists c. split; [done|].
        rewrite Hnum, Hset. f_equal. by eapply aggregate_subject_others.
      * apply elem_of_cons in Hs as [->|?]; [|done].
        apply aggregate_subject_inv in Hone as [(c & Hc & Hnum) _].
        exists c. split; [|done]. unfold stored_characteristic in *.
        rewrite Hframe; [done|]. by right.
Qed.

Lemma fst_rows_from {A} k (l : list A) : fst <$> rows_from k l = seq k (length l).
Proof.
  revert k. induction l as [|x l IH]; intros k; simpl; [done|]. by rewrite IH.
Qed.

Lemma NoDup_fst_select {A} (q : A -> bool) (l : list A) : NoDup (fst <$> select q l).
Proof.
  unfold select, rows. generalize 0%nat. induction l as [|x l IH]; intros k; simpl.
  - constructor.
  - destruct (q x); simpl; [|apply IH]. constructor; [|apply IH].
    intros ((i & y) & -> & Hin)%list_elem_of_fmap. simpl in Hin.
    apply list_elem_of_In, filter_In in Hin as [Hin%list_elem_of_In _].
    apply rows_from_lookup in Hin as (j & Hj & _). lia.
Qed.

Lemma characteristics_in_ext st st' units s :
  characteristics st' = characteristics st ->
  characteristics_in st' units s = characteristics_in st units s.
Proof. unfold characteristics_in. by intros ->. Qed.

Lemma characteristic_query_ext st st' p s :
  characteristics st' = characteristics st ->
  characteristic_query st' p s = characteristic_query st p s.
Proof. unfold characteristic_query. by intros ->. Qed.

(** The geometry step: nothing is written when the difference has no
    area; otherwise the unit is written once, with both geometries. *)
Lemma aggregate_geometry_inv st geounit level newgeo st' geo :
  aggregate_geometry st geounit level newgeo = OK (st', geo) ->
  ∃ d, geos_difference newgeo (geom (snd geounit)) = OK d ∧
       if Qeq_bool (geos_area d) 0 then st' = st ∧ geo = 0%nat
       else ∃ newsimple g s,
           geos_simplify newgeo (tolerance level) = OK newsimple ∧
           enforce_multi (Some newgeo) = OK (Some g) ∧
           enforce_multi (Some newsimple) = OK (Some s) ∧
           geounit_accepts (set_geometry (snd geounit) g s) = true ∧
           st' = set_geounits st
                   (<[fst geounit := set_geometry (snd geounit) g s]> (geounits st)) ∧
           geo = 1%nat.
Proof.
  unfold aggregate_geometry. intros Hrun. apply bind_OK in Hrun as (d & Hd & Hrun).
  exists d. split; [done|]. destruct (Qeq_bool (geos_area d) 0); simpl in Hrun.
  - by injection Hrun as <- <-.
  - apply bind_OK in Hrun as (newsimple & Hsimple & Hrun).
    apply bind_OK in Hrun as (g & Hg & Hrun).
    apply bind_OK in Hrun as (s & Hs & Hrun).
    apply bind_OK in Hrun as (st2 & Hsave & Hrun). injection Hrun as <- <-.
    unfold save_geometry in Hsave. destruct g as [g|]; [|done]. destruct s as [s|]; [|done].
    destruct (geounit_accepts _) eqn:Hacc; [|done]. injection Hsave as <-.
    by exists newsimple, g, s.
Qed.

Lemma aggregate_geometry_static st p u level newgeo st' geo :
  aggregate_geometry st (p, u) level newgeo = OK (st', geo) ->
  hierarchy_key <$> geounits st !! p = Some (hierarchy_key u) ->
  same_keys st st' ∧ subjects st' = subjects st ∧ characteristics st' = characteristics st.
Proof.
  intros (d & _ & Hcases)%aggregate_geometry_inv Hkey.
  destruct (Qeq_bool (geos_area d) 0).
  - by destruct Hcases as [-> _].
  - destruct Hcases as (? & g & s & _ & _ & _ & _ & -> & _). split_and!; try done.
    unfold same_keys. simpl. rewrite list_fmap_insert.
    apply list_insert_id. by rewrite list_lookup_fmap.
Qed.

(** [aggregate_unit] is the update of the parent set followed, when the
    union exists, by the geometry step and the loop over the subjects. *)
Lemma aggregate_unit_inv st p u level parent st' geo num :
  aggregate_unit st (p, u) level parent = OK (st', (geo, num)) ->
  ∃ newgeo,
    unionagg ((fun r => geom (snd r)) <$>
              parentunits_of (update_child st (tree_code u) (ll_geolevel parent) p)
                             (tree_code u) (ll_geolevel parent)) = OK newgeo ∧
    match newgeo with
    | None => st' = update_child st (tree_code u) (ll_geolevel parent) p ∧
              geo = 0%nat ∧ num = 0%nat
    | Some newgeo =>
        ∃ st2,
          aggregate_geometry (update_child st (tree_code u) (ll_geolevel parent) p)
                             (p, u) level newgeo = OK (st2, geo) ∧
          for_each (aggregate_subject p (tree_code u) (ll_geolevel parent))
                   (rows (subjects st2)) (st2, 0%nat) = OK (st', num)
    end.
Proof.
  unfold aggregate_unit. simpl. intros Hrun. apply bind_OK in Hrun as (newgeo & Hunion & Hrun).
  exists newgeo. split; [done|]. destruct newgeo as [newgeo|].
  - apply bind_OK in Hrun as ([st2 geo'] & Hgeo & Hrun).
    apply bind_OK in Hrun as ([st3 num'] & Hloop & Hrun).
    injection Hrun as <- <- <-. by exists st2.
  - by injection Hrun as <- <- <-.
Qed.

Lemma unionagg_nonempty geoms newgeo :
  geoms ≠ [] -> unionagg geoms = OK newgeo -> ∃ g, newgeo = Some g.
Proof.
  destruct geoms as [|g0 geoms]; [done|]. intros _ Hrun. unfold unionagg in Hrun.
  apply bind_OK in Hrun as (g & _ & Hrun). injection Hrun as <-. by exists g.
Qed.

(** One call of [aggregate_unit] on a unit that is not in its own parent
    set: the hierarchy columns stay, the rows of other units stay, and
    when the parent set is not empty the unit holds the sums. *)
Lemma aggregate_unit_sums st p u level parent st' cnt :
  aggregate_unit st (p, u) level parent = OK (st', cnt) ->
  hierarchy_key <$> geounits st !! p = Some (hierarchy_key u) ->
  p ∉ parent_set st (tree_code u) (ll_geolevel parent) ->
  same_keys st st' ∧ subjects st' = subjects st ∧
  (∀ units s, p ∉ units -> characteristics_in st' units s = characteristics_in st units s) ∧
  (∀ p' s, p' ≠ p -> characteristic_query st' p' s = characteristic_query st p' s) ∧
  (parent_set st (tree_code u) (ll_geolevel parent) ≠ [] ->
   ∀ s, (s < length (subjects st))%nat ->
        ∃ c, stored_characteristic st' p s = Some c ∧
             number c = sum_numbers
                          (characteristics_in st'
                             (parent_set st (tree_code u) (ll_geolevel parent)) s)).
Proof.
  destruct cnt as [geo num]. intros (newgeo & Hunion & Hcases)%aggregate_unit_inv Hkey Hp.
  set (code := tree_code u) in *. set (lvl := ll_geolevel parent) in *.
  set (st1 := update_child st code lvl p) in *.
  pose proof (update_child_same_keys st code lvl p) as Hkeys1. fold st1 in Hkeys1.
  pose proof (parent_set_same_keys _ _ code lvl Hkeys1) as Hset1.
  destruct newgeo as [newgeo|].
  - destruct Hcases as (st2 & Hgeo & Hloop).
    apply aggregate_geometry_static in Hgeo as (Hkeys2 & Hsubj2 & Hchars2).
    2:{ rewrite <- list_lookup_fmap, Hkeys1, list_lookup_fmap. done. }
    pose proof (parent_set_same_keys _ _ code lvl Hkeys2) as Hset2.
    apply aggregate_subjects_inv in Hloop
      as (Hunits & Hsubj & Hothers & Hframe & Hsums).
    2:{ unfold rows. rewrite fst_rows_from. apply NoDup_seq. }
    2:{ by rewrite Hset2, Hset1. }
    split_and!.
    + eapply same_keys_trans; [exact Hkeys1|]. eapply same_keys_trans; [exact Hkeys2|].
      unfold same_keys. by rewrite Hunits.
    + by rewrite Hsubj, Hsubj2.
    + intros units s Hu. rewrite Hothers by done.
      by apply characteristics_in_ext.
    + intros p' s Hp'. rewrite Hframe by (by left).
      by apply characteristic_query_ext.
    + intros _ s Hs. destruct (Hsums s) as (c & Hc & Hnum).
      { unfold rows. rewrite fst_rows_from, Hsubj2. apply elem_of_seq. simpl. lia. }
      exists c. split; [done|]. rewrite Hnum, Hset2, Hset1.
      f_equal. symmetry. apply Hothers. done.
  - destruct Hcases as (-> & _ & _). split_and!; try done.
    intros Hne. exfalso.
    apply (unionagg_nonempty _ _) in Hunion as [? [=]].
    fold (parent_set st code lvl) in Hne. rewrite <- Hset1 in Hne.
    unfold parent_set in Hne. intros Hnil. apply fmap_nil_inv in Hnil.
    by rewrite Hnil in Hne.
Qed.

Lemma elem_of_parent_set st code level p :
  p ∈ parent_set st code level ->
  ∃ u, geounits st !! p = Some u ∧ geolevel u = level.
Proof.
  unfold parent_set, parentunits_of.
  intros ((p' & u) & -> & [Hu Hin]%elem_of_select)%list_elem_of_fmap.
  exists u. split; [done|]. unfold in_parentunits in Hin.
  by apply andb_true_iff in Hin as [_ ?%Nat.eqb_eq].
Qed.

(** The loop of [renest_geolevel] over units of level [L] whose parent
    sets are at another level. *)
Lemma renest_units_inv st0 L level parent items st cnt st' cnt' :
  ll_geolevel parent ≠ L ->
  (∀ p u, (p, u) ∈ items -> geounits st0 !! p = Some u ∧ geolevel u = L) ->
  NoDup (fst <$> items) ->
  same_keys st0 st -> subjects st = subjects st0 ->
  for_each (renest_unit level parent) items (st, cnt) = OK (st', cnt') ->
  same_keys st0 st' ∧ subjects st' = subjects st0 ∧
  (∀ units s, (∀ p, p ∈ fst <$> items -> p ∉ units) ->
              characteristics_in st' units s = characteristics_in st units s) ∧
  (∀ p s, p ∉ fst <$> items -> characteristic_query st' p s = characteristic_query st p s) ∧
  (∀ p u, (p, u) ∈ items ->
          parent_set st0 (tree_code u) (ll_geolevel parent) ≠ [] ->
          ∀ s, (s < length (subjects st0))%nat ->
               ∃ c, stored_characteristic st' p s = Some c ∧
                    number c = sum_numbers
                                 (characteristics_in st'
                                    (parent_set st0 (tree_code u) (ll_geolevel parent)) s)).
Proof.
  intros Hlevels. revert st cnt.
  induction items as [|[p u] items IH]; intros st cnt Hitems Hnodup Hkeys Hsubj Hrun.
  - injection Hrun as <- <-. split_and!; try done. by intros p u ?%elem_of_nil.
  - rewrite for_each_cons in Hrun. apply bind_OK in Hrun as ([st1 cnt1] & Hone & Hrest).
    rewrite fmap_cons in Hnodup. apply NoDup_cons in Hnodup as [Hp Hnodup]. simpl in Hp.
    destruct (Hitems p u) as [Hu HuL]; [left|].
    assert (Hout : ∀ q v code, (q, v) ∈ (p, u) :: items ->
                               q ∉ parent_set st0 code (ll_geolevel parent)).
    { intros q v code Hin (v' & Hv' & Hlvl)%elem_of_parent_set.
      destruct (Hitems q v Hin) as [Hv HvL]. congruence. }
    unfold renest_unit in Hone. destruct cnt as [geomods nummods].
    apply bind_OK in Hone as ([st1' [geo num]] & Hunit & Hone). injection Hone as -> <-.
    apply aggregate_unit_sums in Hunit as (Hkeys1 & Hsubj1 & Hothers1 & Hframe1 & Hsums1).
    2:{ rewrite <- list_lookup_fmap, Hkeys, list_lookup_fmap, Hu. done. }
    2:{ rewrite (parent_set_same_keys st0 st) by done. eapply Hout. left. }
    destruct (IH st1 (geomods + geo, nummods + num)%nat)
      as (Hkeys' & Hsubj' & Hothers & Hframe & Hsums); try done.
    { intros q v Hin. apply Hitems. by right. }
    { by eapply same_keys_trans. }
    { congruence. }
    split_and!; try done.
    + intros units s Hunits. rewrite Hothers.
      * apply Hothers1. apply Hunits. left.
      * intros q Hq. apply Hunits. by right.
    + intros q s Hq. rewrite Hframe.
      * apply Hframe1. intros ->. apply Hq. left.
      * intros ?. apply Hq. by right.
    + intros q v Hin Hne s Hs. apply elem_of_cons in Hin as [[= -> ->]|Hin].
      * rewrite (parent_set_same_keys st0 st) in Hsums1 by done.
        destruct (Hsums1 Hne s) as (c & Hc & Hnum); [by rewrite Hsubj|].
        exists c. split.
        -- unfold stored_characteristic in *. by rewrite Hframe.
        -- rewrite Hnum. f_equal. symmetry. apply Hothers.
           intros q ((q' & v) & -> & Hin)%list_elem_of_fmap. eapply Hout. by right.
      * by apply Hsums.
Qed.

End aggregator.

(** *** The sum law *)

Section sum_law.
Context `{GeosOps} `{Backend}.


End sum_law.


(** The end-to-end example: the county over the blocks of population 100
    and 150 holds 250. *)
Example sum_law_example :
  number <$> stored_characteristic Demo.renested 2 0 = Some 2500000.
Proof. vm_compute. done. Qed.

(** *** The parent set is written first *)

Section frame.
Context `{GeosOps} `{Backend}.



End frame.


(** *** The geometry step *)


Section geometry_step.
Context `{GeosOps} `{Backend}.


End geometry_step.


(** *** The percentage of a renested unit *)

Section renest_percentage.
Context `{Backend}.

(** Whenever [aggregate_subject] writes a Characteristic, its percentage
    is the zero sentinel or the sum of the subject divided by itself: the
    query set of the denominator subject is built and never summed. *)
Lemma aggregate_subject_percentage p code level st num subject subject_obj st' :
  aggregate_subject p code level (st, num) (subject, subject_obj) = OK (st', S num) ->
  ∃ c, stored_characteristic st' p subject = Some c ∧
       (percentage c = zero_sentinel ∨
        ∃ a q, Sum_number (characteristics_in st (parent_set st code level) subject) = Some a ∧
               __div__ a a = OK q ∧ percentage c = PyDecimal q).
Proof.
  unfold aggregate_subject. fold (parent_set st code level).
  set (qset := characteristics_in st (parent_set st code level) subject).
  intros Hrun. apply bind_OK in Hrun as (pct & Hpct & Hrun).
  assert (pct = zero_sentinel ∨
          ∃ a q, Sum_number qset = Some a ∧ __div__ a a = OK q ∧ pct = PyDecimal q) as Hcases.
  { destruct (Sum_number qset) as [a|]; [|left; by injection Hpct].
    destruct (percentage_denominator subject_obj); [|left; by injection Hpct].
    destruct (Decimal_nonzero a); [|left; by injection Hpct].
    destruct (Decimal_gt_0 a); [|left; by injection Hpct].
    apply bind_OK in Hpct as (q & Hq & Hpct). injection Hpct as <-.
    right. by exists a, q. }
  pose proof (number_of_aggdata qset) as Hnum.
  destruct (characteristic_query st p subject) as [|[pk mychar] rest] eqn:Hquery.
  - apply bind_OK in Hrun as ([st1 i] & Hsave & Hrun). injection Hrun as <-.
    change None with (fst <$> head (@nil (nat * Characteristic))) in Hsave.
    rewrite <- Hquery in Hsave.
    apply save_characteristic_inv in Hsave as (z & Hz & _ & ->).
    eexists. split; [by apply stored_after_save | done].
  - destruct (pyval_ne_Decimal _ _) eqn:Hne.
    + apply bind_OK in Hrun as ([st1 i] & Hsave & Hrun). injection Hrun as <-.
      change (Some pk) with (fst <$> head ((pk, mychar) :: rest)) in Hsave.
      rewrite <- Hquery in Hsave.
      apply save_characteristic_inv in Hsave as (z & Hz & _ & ->).
      eexists. split; [by apply stored_after_save | done].
    + injection Hrun as _ Hn. lia.
Qed.

End renest_percentage.

(** C2 (the code on the two blocks): the white population of the county
    is 90.2469 and its total population 250.0000; the percentage the
    pass stores is 90.2469 / 90.2469 = 1, where the sum of the subject
    over the sum of its denominator is 0.3609876. *)
Theorem renest_percentage_divides_by_numerator :
  (sum_numbers (characteristics_in Demo.imported (parent_set Demo.imported "00" 0) 1),
   sum_numbers (characteristics_in Demo.imported (parent_set Demo.imported "00" 0) 0))
  = (902469, 2500000) ∧
  renest_geolevel (H := CellGeos.ops) (H0 := accepting_backend) Demo.imported "county"
  = OK (Demo.renested, (0, 2)%nat) ∧
  percentage <$> stored_characteristic Demo.renested 2 1
  = Some (PyDecimal (mkDecimal false 1 0)) ∧
  __div__ (Decimal_of_number 902469) (Decimal_of_number 2500000)
  = OK (mkDecimal false 3609876 (-7)).
Proof. vm_compute. done. Qed.

(** ** The Shapefile Ingestor *)

Section assigner_runs.
Context `{Backend}.

Lemma set_geounit_characteristic_static g so feat st st' :
  set_geounit_characteristic g so feat st = OK st' ->
  geounits st' = geounits st ∧ same_settings st st'.
Proof.
  unfold set_geounit_characteristic.
  apply (for_each_invariant (fun s => geounits s = geounits st ∧ same_settings st s)
           (fun _ => True)); [|by apply Forall_true|done].
  intros s item s' _ [Hunits (Hl & Hll & Hs)] Hone.
  apply set_one_characteristic_static in Hone as (? & ? & ? & ?).
  unfold same_settings. split_and!; congruence.
Qed.

(** Whether an iteration of the Assigner raises does not depend on the
    rows of the store. *)
Lemma set_one_characteristic_returns g so feat st st' item st2 :
  set_one_characteristic g so feat st item = OK st' ->
  subjects st2 = subjects st ->
  ∃ st2', set_one_characteristic g so feat st2 item = OK st2'.
Proof.
  destruct item as [attr entry]. intros Hone Hsubj.
  destruct (endswith attr "_by_id") eqn:Hattr.
  { exists st2. unfold set_one_characteristic. by rewrite Hattr. }
  destruct entry as [subject obj|field].
  2:{ unfold set_one_characteristic in Hone. by rewrite Hattr in Hone. }
  apply set_one_characteristic_inv in Hone
    as (value & pct & z & Hvalue & Hpct & Hz & Hacc & _); [|done].
  rewrite <- (characteristic_percentage_subjects st2 st) in Hpct by done.
  unfold set_one_characteristic. rewrite Hattr, Hvalue. simpl. rewrite Hpct. simpl.
  set (pk := fst <$> head (characteristic_query st2 g subject)).
  unfold save_characteristic at 1. rewrite (number_of_quantized _ _ _ Hvalue).
  destruct (characteristic_accepts (mkCharacteristic g subject (signed_int value) pct))
    eqn:Hfirst.
  - destruct pk; eauto.
  - destruct Hz as [->|[_ ->]]; [congruence|].
    unfold save_characteristic. change (number_of_pyval (PyStr "0.0")) with (Some 0).
    cbv beta iota zeta. rewrite Hacc. destruct pk; simpl; eauto.
Qed.

Lemma set_geounit_characteristic_returns g so feat st st' st2 :
  set_geounit_characteristic g so feat st = OK st' ->
  subjects st2 = subjects st ->
  ∃ st2', set_geounit_characteristic g so feat st2 = OK st2'.
Proof.
  unfold set_geounit_characteristic. generalize so at 2 4. intros items.
  revert st st2. induction items as [|item items IH]; intros st st2 Hrun Hsubj.
  - by exists st2.
  - rewrite for_each_cons in *. apply bind_OK in Hrun as (st1 & Hone & Hrest).
    destruct (set_one_characteristic_returns _ _ _ _ _ _ st2 Hone Hsubj) as [st3 Hone2].
    rewrite Hone2. simpl. apply (IH st1); [done|].
    apply set_one_characteristic_static in Hone as [-> _].
    apply set_one_characteristic_static in Hone2 as [-> _]. done.
Qed.

End assigner_runs.

Lemma select_prefix {A} (p : A -> bool) (l l' : list A) :
  select p (l ++ l')
  = select p l ++ List.filter (fun r => p (snd r)) (rows_from (length l) l').
Proof. unfold select, rows. by rewrite rows_from_app, List.filter_app. Qed.

Lemma head_select_prefix {A} (p : A -> bool) (l l' : list A) r :
  head (select p l) = Some r -> head (select p (l ++ l')) = Some r.
Proof.
  rewrite select_prefix. intros Hhead%head_Some_cons. by rewrite Hhead.
Qed.

Lemma head_select_new {A} (p : A -> bool) (l l' : list A) x :
  select p l = [] -> p x = true ->
  head (select p (l ++ x :: l')) = Some (length l, x).
Proof. rewrite select_prefix. intros -> Hx. simpl. by rewrite Hx. Qed.

Lemma prefetch_units_nil st key :
  prefetch_units st key = [] <-> ¬ has_key st key.
Proof.
  unfold prefetch_units, has_key. split.
  - intros Hnil (u & -> & (i & Hi)%list_elem_of_lookup)%list_elem_of_fmap.
    assert ((i, u) ∈ select (fun v => bool_decide (identity_key v = identity_key u))
                        (geounits st)) as Hin.
    { apply elem_of_select. split; [done|]. by apply bool_decide_eq_true. }
    rewrite Hnil in Hin. by apply elem_of_nil in Hin.
  - intros Hno. destruct (select _ _) as [|[i u] rest] eqn:Hsel; [done|].
    exfalso. apply Hno.
    assert ((i, u) ∈ select (fun v => bool_decide (identity_key v = key)) (geounits st))
      as [Hi Hu%bool_decide_eq_true]%elem_of_select by (rewrite Hsel; left).
    apply list_elem_of_fmap. exists u. split; [done|]. by eapply list_elem_of_lookup_2.
Qed.

Lemma has_key_app st st' key l :
  geounits st' = geounits st ++ l -> has_key st key -> has_key st' key.
Proof.
  unfold has_key. intros -> Hin. rewrite fmap_app. apply elem_of_app. by left.
Qed.

Section ingest.
Context `{GeosOps} `{Backend}.

Lemma usable_None tolerance : usable tolerance None = false.
Proof. done. Qed.

(** A polygonal feature sets [my_geom] to its own geometry; any other
    feature leaves [my_geom] as it is and builds on what it holds. *)
Lemma normalize_feature_cases tolerance my_geom feat :
  match own_geometry feat with
  | Some g => normalize_feature tolerance my_geom feat
              = (Some g, normalized tolerance (Some g))
  | None => ∃ r, normalize_feature tolerance my_geom feat = (my_geom, r) ∧
                 (usable tolerance my_geom = false -> ∃ e, r = Raise e)
  end.
Proof.
  unfold own_geometry, normalize_feature, usable.
  destruct (geos_buffer (feat_geom feat) 0) as [geos|e]; [|by eauto].
  destruct (bool_decide (geom_type geos = TMultiPolygon)); [done|].
  destruct (bool_decide (geom_type geos = TPolygon)).
  - destruct (new_MultiPolygon geos); [done | by eauto].
  - eexists. split; [done|]. destruct (normalized tolerance my_geom); [done | by eauto].
Qed.

Lemma assign_characteristics_static config so feat st g st' :
  assign_characteristics config so feat st g = OK st' ->
  geounits st' = geounits st ∧ same_settings st st'.
Proof.
  unfold assign_characteristics. destruct (cfg_attributes config).
  - by intros [= <-].
  - apply set_geounit_characteristic_static.
Qed.

Lemma assign_characteristics_returns config so feat st g st' st2 :
  assign_characteristics config so feat st g = OK st' ->
  subjects st2 = subjects st ->
  ∃ st2', assign_characteristics config so feat st2 g = OK st2'.
Proof.
  unfold assign_characteristics. destruct (cfg_attributes config).
  - by eauto.
  - apply set_geounit_characteristic_returns.
Qed.

(** The three ways an iteration over a feature ends: the unit of its key
    is reused, the feature is skipped, or a unit is added under a key the
    store did not hold. *)
Lemma import_feature_inv config shapefile level so st my_geom feat st' my_geom' :
  import_feature config shapefile level so (st, my_geom) feat = OK (st', my_geom') ->
  ∃ nm portable tree,
    feature_key shapefile feat = OK (nm, portable, tree) ∧
    ((∃ g u rest,
         prefetch_units st (nm, level, portable, tree) = (g, u) :: rest ∧
         my_geom' = my_geom ∧
         assign_characteristics config so feat st g = OK st') ∨
     (prefetch_units st (nm, level, portable, tree) = [] ∧ st' = st ∧
      my_geom' = fst (normalize_feature (cfg_tolerance config) my_geom feat) ∧
      ∀ geoms, snd (normalize_feature (cfg_tolerance config) my_geom feat) = OK geoms ->
               geounit_accepts (new_geounit (nm, portable, tree) level geoms) = false) ∨
     (prefetch_units st (nm, level, portable, tree) = [] ∧
      ∃ geoms,
        normalize_feature (cfg_tolerance config) my_geom feat = (my_geom', OK geoms) ∧
        assign_characteristics config so feat
          (set_geounits st (geounits st ++ [new_geounit (nm, portable, tree) level geoms]))
          (length (geounits st)) = OK st')).
Proof.
  unfold import_feature. intros Hrun. apply bind_OK in Hrun as ([[nm portable] tree] & Hkey & Hrun).
  exists nm, portable, tree. split; [done|].
  destruct (prefetch_units st _) as [|[g u] rest].
  - destruct (normalize_feature _ my_geom feat) as [v r]. simpl.
    destruct r as [geoms|e].
    + destruct (geounit_accepts _) eqn:Hacc.
      * apply bind_OK in Hrun as (st1 & Hassign & Hrun). injection Hrun as <- <-.
        right. right. split; [done|]. by exists geoms.
      * injection Hrun as <- <-. right. left. split_and!; try done.
        by intros ? [= <-].
    + injection Hrun as <- <-. right. left. split_and!; done.
  - apply bind_OK in Hrun as (st1 & Hassign & Hrun). injection Hrun as <- <-.
    left. by exists g, u, rest.
Qed.

Lemma identity_key_new_geounit nm portable tree level geoms :
  identity_key (new_geounit (nm, portable, tree) level geoms) = (nm, level, portable, tree).
Proof. by destruct geoms as [[??]?]. Qed.

(** An iteration adds at most one unit, under the key of its feature and
    only when the store held none of that key. *)
Lemma import_feature_grows config shapefile level so st my_geom feat st' my_geom' :
  import_feature config shapefile level so (st, my_geom) feat = OK (st', my_geom') ->
  same_settings st st' ∧
  (geounits st' = geounits st ∨
   ∃ unit nm portable tree,
     geounits st' = geounits st ++ [unit] ∧
     feature_key shapefile feat = OK (nm, portable, tree) ∧
     identity_key unit = (nm, level, portable, tree) ∧
     ¬ has_key st (nm, level, portable, tree)).
Proof.
  intros (nm & portable & tree & Hkey & Hcases)%import_feature_inv.
  destruct Hcases as [(g & u & rest & _ & _ & Hassign)
                     |[(_ & -> & _ & _)|(Hnone & geoms & _ & Hassign)]].
  - apply assign_characteristics_static in Hassign as [-> ?]. by split; [|left].
  - split; [done | by left].
  - apply assign_characteristics_static in Hassign as [-> ?]. split; [done|]. right.
    exists (new_geounit (nm, portable, tree) level geoms), nm, portable, tree.
    split_and!; try done.
    + apply identity_key_new_geounit.
    + by apply prefetch_units_nil.
Qed.

Lemma unit_key_inj level level' k k' : unit_key level k = unit_key level' k' -> k = k'.
Proof. destruct k as [[??]?], k' as [[??]?]. simpl. congruence. Qed.

(** The loop over the features of a layer only adds units, each under
    the key of a feature of the layer, and never a second unit of a key. *)
Lemma import_features_grow config shapefile level so feats st my_geom st' my_geom' :
  for_each (import_feature config shapefile level so) feats (st, my_geom)
  = OK (st', my_geom') ->
  same_settings st st' ∧
  (∃ l, geounits st' = geounits st ++ l) ∧
  (∀ key, has_key st' key ->
          has_key st key ∨
          ∃ k, OK k ∈ feature_key shapefile <$> feats ∧ key = unit_key level k) ∧
  (NoDup (identity_key <$> geounits st) -> NoDup (identity_key <$> geounits st')).
Proof.
  revert st my_geom. induction feats as [|feat feats IH]; intros st my_geom Hrun.
  - injection Hrun as <- <-. split_and!; try done.
    + exists []. by rewrite app_nil_r.
    + by left.
  - rewrite for_each_cons in Hrun. apply bind_OK in Hrun as ([st1 v1] & Hone & Hrest).
    apply import_feature_grows in Hone as [(Hl & Hll & Hs) Hgrow].
    destruct (IH _ _ Hrest) as ((Hl' & Hll' & Hs') & [l Happ] & Hkeys & Hnodup).
    split_and!.
    + unfold same_settings. split_and!; congruence.
    + destruct Hgrow as [Heq|(unit & ? & ? & ? & Heq & _)]; rewrite Happ, Heq.
      * by exists l.
      * exists ([unit] ++ l). by rewrite app_assoc.
    + intros key [Hin|(k & Hk & ->)]%Hkeys.
      * destruct Hgrow as [Heq|(unit & nm & portable & tree & Heq & Hkey & Hunit & _)].
        -- left. unfold has_key in *. by rewrite <- Heq.
        -- unfold has_key in Hin. rewrite Heq, fmap_app in Hin.
           apply elem_of_app in Hin as [Hin|Hin%list_elem_of_singleton]; [by left|].
           right. exists (nm, portable, tree). split; [|by rewrite Hin, Hunit].
           rewrite fmap_cons, Hkey. left.
      * right. exists k. split; [|done]. rewrite fmap_cons. by right.
    + intros Hst. apply Hnodup.
      destruct Hgrow as [->|(unit & nm & portable & tree & -> & _ & Hunit & Hnew)]; [done|].
      rewrite fmap_app. apply NoDup_app. split_and!; [done| |apply NoDup_singleton].
      intros key Hin ->%list_elem_of_singleton. apply Hnew. by rewrite <- Hunit.
Qed.

(** After its iteration, a feature has its unit in the store unless it
    cannot build one from its own geometry (when the store accepts every
    unit). *)
Lemma import_feature_settled config shapefile level so st my_geom feat st' my_geom' k :
  (∀ u, geounit_accepts u = true) ->
  import_feature config shapefile level so (st, my_geom) feat = OK (st', my_geom') ->
  feature_key shapefile feat = OK k ->
  has_key st' (unit_key level k) ∨ self_sufficient (cfg_tolerance config) feat = false.
Proof.
  intros Hacc (nm & portable & tree & Hkey & Hcases)%import_feature_inv Hk.
  rewrite Hkey in Hk. injection Hk as <-. simpl.
  destruct Hcases as [(g & u & rest & Hfound & _ & Hassign)
                     |[(_ & -> & _ & Hrefused)|(_ & geoms & _ & Hassign)]].
  - left. apply assign_characteristics_static in Hassign as [Hunits _].
    unfold has_key. rewrite Hunits. apply dec_stable. intros Hno.
    apply prefetch_units_nil in Hno. by rewrite Hno in Hfound.
  - right. unfold self_sufficient, usable.
    pose proof (normalize_feature_cases (cfg_tolerance config) my_geom feat) as Hcases.
    destruct (own_geometry feat) as [g|]; [|done].
    rewrite Hcases in Hrefused. simpl in Hrefused.
    destruct (normalized (cfg_tolerance config) (Some g)) as [geoms|]; [|done].
    specialize (Hrefused geoms eq_refl). by rewrite Hacc in Hrefused.
  - left. apply assign_characteristics_static in Hassign as [Hunits _].
    unfold has_key. rewrite Hunits. simpl. rewrite fmap_app. apply elem_of_app. right.
    apply list_elem_of_singleton. symmetry. apply identity_key_new_geounit.
Qed.

(** A second visit of a feature whose unit is in the store. *)
Lemma import_feature_reuse config shapefile level so st my_geom feat nm portable tree g u st' :
  feature_key shapefile feat = OK (nm, portable, tree) ->
  head (prefetch_units st (nm, level, portable, tree)) = Some (g, u) ->
  assign_characteristics config so feat st g = OK st' ->
  import_feature config shapefile level so (st, my_geom) feat = OK (st', my_geom).
Proof.
  intros Hkey Hhead%head_Some_cons Hassign. unfold import_feature.
  rewrite Hkey. simpl. rewrite Hhead, Hassign. done.
Qed.

(** A second visit of a feature that has no unit and cannot build one,
    while [my_geom] holds nothing usable. *)
Lemma import_feature_skip config shapefile level so st my_geom feat k :
  feature_key shapefile feat = OK k ->
  ¬ has_key st (unit_key level k) ->
  self_sufficient (cfg_tolerance config) feat = false ->
  usable (cfg_tolerance config) my_geom = false ->
  ∃ my_geom',
    import_feature config shapefile level so (st, my_geom) feat = OK (st, my_geom') ∧
    usable (cfg_tolerance config) my_geom' = false.
Proof.
  intros Hkey Hno%prefetch_units_nil Hself Hstale. destruct k as [[nm portable] tree].
  unfold import_feature. rewrite Hkey. simpl in *. rewrite Hno.
  pose proof (normalize_feature_cases (cfg_tolerance config) my_geom feat) as Hcases.
  unfold self_sufficient in Hself.
  destruct (own_geometry feat) as [g|].
  - rewrite Hcases. exists (Some g). split; [|done].
    unfold usable in Hself. by destruct (normalized _ (Some g)).
  - destruct Hcases as (r & -> & Hr). destruct (Hr Hstale) as [e ->].
    by exists my_geom.
Qed.

(** The second pass over a layer, in a store that holds at least the
    units the first pass left: every feature finds the unit the first
    pass used or is skipped again; no unit is added. *)
Lemma import_features_again config shapefile level so feats st v st' v' X w :
  (∀ u, geounit_accepts u = true) ->
  for_each (import_feature config shapefile level so) feats (st, v) = OK (st', v') ->
  (∃ l, geounits X = geounits st' ++ l) ->
  subjects X = subjects st ->
  usable (cfg_tolerance config) w = false ->
  NoDup (feature_key shapefile <$> feats) ->
  (∀ k, OK k ∈ feature_key shapefile <$> feats ->
        has_key X (unit_key level k) -> has_key st' (unit_key level k)) ->
  ∃ X' w',
    for_each (import_feature config shapefile level so) feats (X, w) = OK (X', w') ∧
    geounits X' = geounits X ∧ same_settings X X' ∧
    usable (cfg_tolerance config) w' = false.
Proof.
  intros Hacc. revert st v X w.
  induction feats as [|feat feats IH]; intros st v X w Hrun [l HX] Hsubj Hstale Hnodup Hcover.
  - exists X, w. by split_and!.
  - rewrite for_each_cons in Hrun. apply bind_OK in Hrun as ([st1 v1] & Hone & Hrest).
    rewrite fmap_cons in Hnodup. apply NoDup_cons in Hnodup as [Hfresh Hnodup].
    destruct (import_features_grow _ _ _ _ _ _ _ _ _ Hrest)
      as ((_ & _ & Hsubj1) & [l1 Hst'] & Hadded & _).
    pose proof Hone as (nm & portable & tree & Hkey & Hcases)%import_feature_inv.
    assert (Hin1 : has_key X (nm, level, portable, tree) ->
                   has_key st1 (nm, level, portable, tree)).
    { intros HinX. apply (Hcover (nm, portable, tree)) in HinX.
      2:{ rewrite fmap_cons, Hkey. left. }
      apply Hadded in HinX as [?|(k & Hk & Heq)]; [done|].
      apply (unit_key_inj level level (nm, portable, tree) k) in Heq as <-.
      by rewrite Hkey in Hfresh. }
    assert (∃ X1 w1,
               import_feature config shapefile level so (X, w) feat = OK (X1, w1) ∧
               geounits X1 = geounits X ∧ same_settings X X1 ∧
               usable (cfg_tolerance config) w1 = false) as (X1 & w1 & Hstep & HX1 & Hset1 & Hw1).
    { destruct (decide (has_key X (nm, level, portable, tree))) as [HinX|HoutX].
      - specialize (Hin1 HinX).
        destruct Hcases as [(g & u & rest & Hfound & _ & Hassign)
                           |[(Hnone & -> & _ & _)|(Hnone & geoms & _ & Hassign)]].
        + destruct (assign_characteristics_returns _ _ _ _ _ _ X Hassign Hsubj)
            as [X1 Hassign2].
          destruct (assign_characteristics_static _ _ _ _ _ _ Hassign2) as [? ?].
          exists X1, w. split_and!; [|done..].
          eapply import_feature_reuse; [done| |done].
          apply assign_characteristics_static in Hassign as [Hunits1 _].
          unfold prefetch_units. rewrite HX, Hst', Hunits1, <- app_assoc.
          apply head_select_prefix. unfold prefetch_units in Hfound. by rewrite Hfound.
        + by apply prefetch_units_nil in Hnone.
        + destruct (assign_characteristics_returns _ _ _ _ _ _ X Hassign Hsubj)
            as [X1 Hassign2].
          destruct (assign_characteristics_static _ _ _ _ _ _ Hassign2) as [? ?].
          exists X1, w. split_and!; [|done..].
          eapply import_feature_reuse; [done| |done].
          apply assign_characteristics_static in Hassign as [Hunits1 _]. simpl in Hunits1.
          unfold prefetch_units. rewrite HX, Hst', Hunits1, <- !app_assoc. simpl.
          apply head_select_new; [done|].
          apply bool_decide_eq_true. apply identity_key_new_geounit.
      - destruct (import_feature_settled _ _ _ _ _ _ _ _ _ _ Hacc Hone Hkey) as [Hin|Hself].
        + exfalso. apply HoutX. simpl in Hin.
          eapply (has_key_app st1 X); [|done]. by rewrite HX, Hst', <- app_assoc.
        + destruct (import_feature_skip config shapefile level so X w feat
                      (nm, portable, tree) Hkey HoutX Hself Hstale) as (w1 & Hskip & Hw1).
          exists X, w1. by split_and!. }
    destruct (IH st1 v1 X1 w1) as (X' & w' & Hrun2 & HX' & Hset' & Hw'); try done.
    + exists l. by rewrite HX1.
    + destruct Hset1 as (_ & _ & ->). rewrite Hsubj.
      apply import_feature_grows in Hone as [(_ & _ & ->) _]. done.
    + intros k Hk Hin. apply Hcover; [rewrite fmap_cons; by right|].
      unfold has_key in *. by rewrite <- HX1.
    + exists X', w'. rewrite for_each_cons, Hstep. simpl. split_and!; try done.
      * congruence.
      * destruct Hset1 as (? & ? & ?), Hset' as (? & ? & ?).
        unfold same_settings. split_and!; congruence.
Qed.

Lemma config_keys_cons shapefile shapefiles :
  config_keys (shapefile :: shapefiles)
  = (feature_key shapefile <$> shp_layer shapefile) ++ config_keys shapefiles.
Proof. done. Qed.

Lemma get_geolevel_settings st X n :
  same_settings st X -> get_geolevel X n = get_geolevel st n.
Proof. intros (Hl & _ & _). unfold get_geolevel. by rewrite Hl. Qed.

Lemma make_subject_objects_settings st X subject_fields :
  same_settings st X ->
  make_subject_objects X subject_fields = make_subject_objects st subject_fields.
Proof.
  intros (_ & _ & Hs). unfold make_subject_objects, get_subject. by rewrite Hs.
Qed.

Lemma import_shapefile_inv config st v shapefile st' v' :
  import_shapefile config (st, v) shapefile = OK (st', v') ->
  ∃ level so,
    get_geolevel st (cfg_geolevel config) = OK level ∧
    make_subject_objects st (cfg_subject_fields config) = OK so ∧
    for_each (import_feature config shapefile (fst level) so) (shp_layer shapefile) (st, v)
    = OK (st', v').
Proof.
  unfold import_shapefile. simpl. intros Hrun.
  apply bind_OK in Hrun as (level & Hlevel & Hrun).
  apply bind_OK in Hrun as (so & Hso & Hrun). by exists level, so.
Qed.

Lemma import_shapefile_intro config st v shapefile level so r :
  get_geolevel st (cfg_geolevel config) = OK level ->
  make_subject_objects st (cfg_subject_fields config) = OK so ->
  for_each (import_feature config shapefile (fst level) so) (shp_layer shapefile) (st, v)
  = r ->
  import_shapefile config (st, v) shapefile = r.
Proof. unfold import_shapefile. cbn [fst]. by intros -> -> <-. Qed.

(** The loop over the shapefiles only adds units, under keys of features
    of the shapefiles. *)
Lemma import_shapefiles_grow config shapefiles st v st' v' :
  for_each (import_shapefile config) shapefiles (st, v) = OK (st', v') ->
  same_settings st st' ∧
  (∃ l, geounits st' = geounits st ++ l) ∧
  (∀ key, has_key st' key ->
          has_key st key ∨
          ∃ k level, OK k ∈ config_keys shapefiles ∧ key = unit_key level k) ∧
  (NoDup (identity_key <$> geounits st) -> NoDup (identity_key <$> geounits st')).
Proof.
  revert st v. induction shapefiles as [|shapefile shapefiles IH]; intros st v Hrun.
  - injection Hrun as <- <-. split_and!; try done.
    + exists []. by rewrite app_nil_r.
    + by left.
  - rewrite for_each_cons in Hrun. apply bind_OK in Hrun as ([st1 v1] & Hone & Hrest).
    apply import_shapefile_inv in Hone as (level & so & _ & _ & Hone).
    apply import_features_grow in Hone as ((Hl & Hll & Hs) & [l1 Happ1] & Hkeys1 & Hnodup1).
    destruct (IH _ _ Hrest) as ((Hl' & Hll' & Hs') & [l Happ] & Hkeys & Hnodup).
    split_and!.
    + unfold same_settings. split_and!; congruence.
    + exists (l1 ++ l). by rewrite Happ, Happ1, app_assoc.
    + intros key [Hin|(k & lvl & Hk & ->)]%Hkeys.
      * apply Hkeys1 in Hin as [?|(k & Hk & ->)]; [by left|].
        right. exists k, (fst level). split; [|done].
        rewrite config_keys_cons. apply elem_of_app. by left.
      * right. exists k, lvl. split; [|done].
        rewrite config_keys_cons. apply elem_of_app. by right.
    + eauto.
Qed.

(** The second pass over the shapefiles. *)
Lemma import_shapefiles_again config shapefiles st v st' v' X w :
  (∀ u, geounit_accepts u = true) ->
  for_each (import_shapefile config) shapefiles (st, v) = OK (st', v') ->
  (∃ l, geounits X = geounits st' ++ l) ->
  same_settings st X ->
  usable (cfg_tolerance config) w = false ->
  NoDup (config_keys shapefiles) ->
  (∀ k level, OK k ∈ config_keys shapefiles ->
              has_key X (unit_key level k) -> has_key st' (unit_key level k)) ->
  ∃ X' w',
    for_each (import_shapefile config) shapefiles (X, w) = OK (X', w') ∧
    geounits X' = geounits X ∧ same_settings X X' ∧
    usable (cfg_tolerance config) w' = false.
Proof.
  intros Hacc. revert st v X w.
  induction shapefiles as [|shapefile shapefiles IH];
    intros st v X w Hrun [l HX] Hset Hstale Hnodup Hcover.
  - exists X, w. by split_and!.
  - rewrite for_each_cons in Hrun. apply bind_OK in Hrun as ([st1 v1] & Hone & Hrest).
    rewrite config_keys_cons in Hnodup. apply NoDup_app in Hnodup as (Hnd1 & Hdisj & Hnd2).
    destruct (import_shapefiles_grow _ _ _ _ _ _ Hrest)
      as (Hset1' & [l1 Hst'] & Hadded & _).
    apply import_shapefile_inv in Hone as (level & so & Hlevel & Hso & Hone).
    pose proof (import_features_grow _ _ _ _ _ _ _ _ _ Hone) as (Hset1 & _ & _ & _).
    destruct (import_features_again config shapefile (fst level) so (shp_layer shapefile)
                st v st1 v1 X w) as (X1 & w1 & Hrun1 & HX1 & HsetX1 & Hw1); try done.
    { exists (l1 ++ l). by rewrite HX, Hst', app_assoc. }
    { by destruct Hset as (_ & _ & ?). }
    { intros k Hk HinX.
      apply (Hcover k (fst level)) in HinX.
      2:{ rewrite config_keys_cons. apply elem_of_app. by left. }
      apply Hadded in HinX as [?|(k' & lvl & Hk' & Heq)]; [done|].
      apply unit_key_inj in Heq as <-. by destruct (Hdisj _ Hk). }
    destruct (IH st1 v1 X1 w1) as (X' & w' & Hrun2 & HX' & Hset' & Hw'); try done.
    + exists l. by rewrite HX1.
    + destruct Hset as (? & ? & ?), Hset1 as (? & ? & ?), HsetX1 as (? & ? & ?).
      unfold same_settings. split_and!; congruence.
    + intros k lvl Hk Hin. apply Hcover.
      * rewrite config_keys_cons. apply elem_of_app. by right.
      * unfold has_key in *. by rewrite <- HX1.
    + exists X', w'. rewrite for_each_cons. split_and!; try done.
      * rewrite (import_shapefile_intro config X w shapefile level so (OK (X1, w1))).
        -- done.
        -- by rewrite (get_geolevel_settings st X).
        -- by rewrite (make_subject_objects_settings st X).
        -- done.
      * congruence.
      * destruct HsetX1 as (? & ? & ?), Hset' as (? & ? & ?).
        unfold same_settings. split_and!; congruence.
Qed.

(** Whatever the identity fields of the features, a second pass that
    returns has added no unit. *)
Lemma import_features_again_units config shapefile level so feats st v st' v' X w X' w' :
  (∀ u, geounit_accepts u = true) ->
  for_each (import_feature config shapefile level so) feats (st, v) = OK (st', v') ->
  (∃ l, geounits X = geounits st' ++ l) ->
  usable (cfg_tolerance config) w = false ->
  for_each (import_feature config shapefile level so) feats (X, w) = OK (X', w') ->
  geounits X' = geounits X ∧ usable (cfg_tolerance config) w' = false.
Proof.
  intros Hacc. revert st v X w.
  induction feats as [|feat feats IH]; intros st v X w Hrun [l HX] Hstale Hrun2.
  - by injection Hrun2 as <- <-.
  - rewrite for_each_cons in Hrun, Hrun2.
    apply bind_OK in Hrun as ([st1 v1] & Hone & Hrest).
    apply bind_OK in Hrun2 as ([X1 w1] & Hone2 & Hrest2).
    destruct (import_features_grow _ _ _ _ _ _ _ _ _ Hrest) as (_ & [l1 Hst'] & _ & _).
    assert (geounits X1 = geounits X ∧ usable (cfg_tolerance config) w1 = false)
      as [HX1 Hw1].
    { pose proof Hone2 as (nm & portable & tree & Hkey & Hcases)%import_feature_inv.
      pose proof (normalize_feature_cases (cfg_tolerance config) w feat) as Hnorm.
      destruct Hcases as [(g & u & rest & _ & -> & Hassign)
                         |[(_ & -> & -> & Hrefused)|(Hnone & geoms & Hgeoms & _)]].
      - by apply assign_characteristics_static in Hassign as [-> _].
      - split; [done|]. destruct (own_geometry feat) as [g|].
        + rewrite Hnorm in Hrefused |- *. simpl in *. unfold usable.
          destruct (normalized _ (Some g)) as [geoms|]; [|done].
          specialize (Hrefused geoms eq_refl). by rewrite Hacc in Hrefused.
        + by destruct Hnorm as (r & -> & _).
      - exfalso. apply prefetch_units_nil in Hnone.
        destruct (import_feature_settled _ _ _ _ _ _ _ _ _ _ Hacc Hone Hkey) as [Hin|Hself].
        + apply Hnone. simpl in Hin.
          eapply (has_key_app st1 X); [|done]. by rewrite HX, Hst', <- app_assoc.
        + unfold self_sufficient, usable in *. destruct (own_geometry feat) as [g|].
          * rewrite Hnorm in Hgeoms. injection Hgeoms as _ Hgeoms.
            by rewrite Hgeoms in Hself.
          * destruct Hnorm as (r & Hr & Hraise). rewrite Hr in Hgeoms.
            injection Hgeoms as _ ->. by destruct (Hraise Hstale). }
    destruct (IH st1 v1 X1 w1) as [HX' Hw']; try done.
    + exists l. by rewrite HX1.
    + split; [congruence | done].
Qed.

Lemma import_shapefiles_again_units config shapefiles st v st' v' X w X' w' :
  (∀ u, geounit_accepts u = true) ->
  for_each (import_shapefile config) shapefiles (st, v) = OK (st', v') ->
  (∃ l, geounits X = geounits st' ++ l) ->
  same_settings st X ->
  usable (cfg_tolerance config) w = false ->
  for_each (import_shapefile config) shapefiles (X, w) = OK (X', w') ->
  geounits X' = geounits X ∧ usable (cfg_tolerance config) w' = false.
Proof.
  intros Hacc. revert st v X w.
  induction shapefiles as [|shapefile shapefiles IH];
    intros st v X w Hrun [l HX] Hset Hstale Hrun2.
  - by injection Hrun2 as <- <-.
  - rewrite for_each_cons in Hrun, Hrun2.
    apply bind_OK in Hrun as ([st1 v1] & Hone & Hrest).
    apply bind_OK in Hrun2 as ([X1 w1] & Hone2 & Hrest2).
    destruct (import_shapefiles_grow _ _ _ _ _ _ Hrest) as (_ & [l1 Hst'] & _ & _).
    apply import_shapefile_inv in Hone as (level & so & Hlevel & Hso & Hone).
    apply import_shapefile_inv in Hone2 as (level2 & so2 & Hlevel2 & Hso2 & Hone2).
    rewrite (get_geolevel_settings st X), Hlevel in Hlevel2 by done.
    rewrite (make_subject_objects_settings st X), Hso in Hso2 by done.
    injection Hlevel2 as <-. injection Hso2 as <-.
    pose proof (import_features_grow _ _ _ _ _ _ _ _ _ Hone) as (Hset1 & _ & _ & _).
    pose proof (import_features_grow _ _ _ _ _ _ _ _ _ Hone2) as (HsetX1 & _ & _ & _).
    destruct (import_features_again_units config shapefile (fst level) so
                (shp_layer shapefile) st v st1 v1 X w X1 w1) as [HX1 Hw1]; try done.
    { exists (l1 ++ l). by rewrite HX, Hst', app_assoc. }
    destruct (IH st1 v1 X1 w1) as [HX' Hw']; try done.
    + exists l. by rewrite HX1.
    + destruct Hset as (? & ? & ?), Hset1 as (? & ? & ?), HsetX1 as (? & ? & ?).
      unfold same_settings. split_and!; congruence.
    + split; [congruence | done].
Qed.

Lemma import_attributes_inv st layers st' :
  import_attributes st layers = OK st' ->
  st' = st ∧ ∀ st2, import_attributes st2 layers = OK st2.
Proof.
  unfold import_attributes. revert st.
  induction layers as [|lyr layers IH]; intros st Hrun.
  - by injection Hrun as <-.
  - rewrite for_each_cons in Hrun. apply bind_OK in Hrun as (st1 & Hlyr & Hrest).
    destruct lyr as [|feat lyr]; [|done]. injection Hlyr as <-.
    destruct (IH _ Hrest) as [-> Hany]. split; [done|].
    intros st2. rewrite for_each_cons. simpl. apply Hany.
Qed.

(** C4: after an import that returned, in a store that accepts the units
    it is given, a second import of the same source that returns leaves
    the table of units as it is; it does return when the features of the
    source have pairwise distinct identity fields; and an import adds no
    second unit of an identity key. *)
Theorem import_shape_idempotent config st st1 :
  (∀ u, geounit_accepts u = true) ->
  import_shape config st = OK st1 ->
  (∀ st2, import_shape config st1 = OK st2 -> geounits st2 = geounits st1) ∧
  (NoDup (config_keys (cfg_shapefiles config)) -> ∃ st2, import_shape config st1 = OK st2) ∧
  (NoDup (identity_key <$> geounits st) -> NoDup (identity_key <$> geounits st1)).
Proof.
  intros Hacc Hrun. unfold import_shape in Hrun.
  apply bind_OK in Hrun as ([stA vA] & Hloop & Hattr). simpl in Hattr.
  assert (st1 = stA ∧
          ∀ st2, match cfg_attributes config with
                 | Some layers => import_attributes st2 layers
                 | None => OK st2
                 end = OK st2) as [-> Hagain].
  { destruct (cfg_attributes config) as [layers|].
    - by apply import_attributes_inv in Hattr as [-> ?].
    - by injection Hattr as <-. }
  destruct (import_shapefiles_grow _ _ _ _ _ _ Hloop) as (Hset & _ & _ & Hkeys).
  split_and!; [| |done].
  - intros st2 Hrun2. unfold import_shape in Hrun2.
    apply bind_OK in Hrun2 as ([X' w'] & Hloop2 & Hattr2). simpl in Hattr2.
    rewrite Hagain in Hattr2. injection Hattr2 as <-.
    eapply (import_shapefiles_again_units config (cfg_shapefiles config) st None stA vA
              stA None X' w'); try done.
    exists []. by rewrite app_nil_r.
  - intros Hnodup.
    destruct (import_shapefiles_again config (cfg_shapefiles config) st None stA vA stA None)
      as (X' & w' & Hrun2 & HX' & _ & _); try done.
    { exists []. by rewrite app_nil_r. }
    exists X'. unfold import_shape. rewrite Hrun2. simpl. by rewrite Hagain.
Qed.

End ingest.

Lemma import_shape_idempotent_witness :
  (∀ st2, import_shape (H := CellGeos.ops) (H0 := accepting_backend)
            (Demo.blocks_config [Demo.block_A; Demo.block_B]) Demo.blocks_imported = OK st2 ->
          geounits st2 = geounits Demo.blocks_imported) ∧
  (NoDup (config_keys (cfg_shapefiles (Demo.blocks_config [Demo.block_A; Demo.block_B]))) ->
   ∃ st2, import_shape (H := CellGeos.ops) (H0 := accepting_backend)
            (Demo.blocks_config [Demo.block_A; Demo.block_B]) Demo.blocks_imported = OK st2) ∧
  (NoDup (identity_key <$> geounits Demo.empty_store) ->
   NoDup (identity_key <$> geounits Demo.blocks_imported)).
Proof.
  apply (import_shape_idempotent (H := CellGeos.ops) (H0 := accepting_backend)
           (Demo.blocks_config [Demo.block_A; Demo.block_B]) Demo.empty_store
           Demo.blocks_imported).
  - intros u. reflexivity.
  - vm_compute. reflexivity.
Defined.

(** The second import of the two blocks, evaluated: the store is the one
    the first import left, rows of the characteristics included. *)
Example import_twice :
  config_keys (cfg_shapefiles (Demo.blocks_config [Demo.block_A; Demo.block_B]))
  = [OK ("A", "b1", "0001"); OK ("B", "b2", "0002")]%string ∧
  import_shape (H := CellGeos.ops) (H0 := accepting_backend)
    (Demo.blocks_config [Demo.block_A; Demo.block_B]) Demo.blocks_imported
  = OK Demo.blocks_imported.
Proof. vm_compute. done. Qed.

(** * Further properties of the code *)

(** ** Decimal: digits, rounding, division *)

Lemma ndigits_fuel_pos fuel c : 1 <= ndigits_fuel fuel c.
Proof.
  revert c. induction fuel as [|fuel IH]; intros c; simpl; [lia|].
  destruct (c <? 10); [lia|]. specialize (IH (c / 10)). lia.
Qed.

Lemma ndigits_fuel_spec fuel c :
  0 < c < 2 ^ Z.of_nat fuel ->
  10 ^ (ndigits_fuel fuel c - 1) <= c < 10 ^ ndigits_fuel fuel c.
Proof.
  revert c. induction fuel as [|fuel IH]; intros c Hc.
  - simpl in Hc. lia.
  - simpl ndigits_fuel. destruct (Z.ltb_spec c 10) as [Hlt|Hge].
    + simpl. lia.
    + assert (0 < c / 10 < 2 ^ Z.of_nat fuel) as Hdiv.
      { split; [apply Z.div_str_pos; lia|].
        apply Z.div_lt_upper_bound; [lia|].
        rewrite Nat2Z.inj_succ, Z.pow_succ_r in Hc by lia. lia. }
      specialize (IH _ Hdiv). pose proof (ndigits_fuel_pos fuel (c / 10)) as Hpos.
      set (m := ndigits_fuel fuel (c / 10)) in *.
      replace (1 + m - 1) with (Z.succ (m - 1)) by lia.
      replace (1 + m) with (Z.succ m) by lia.
      rewrite !Z.pow_succ_r by lia.
      pose proof (Z.div_mod c 10 ltac:(lia)) as Heq.
      pose proof (Z.mod_pos_bound c 10 ltac:(lia)) as Hmod.
      lia.
Qed.

(** [len(str(c))] for a positive coefficient. *)
Lemma ndigits_spec c : 0 < c -> 10 ^ (ndigits c - 1) <= c < 10 ^ ndigits c.
Proof.
  intros Hc. unfold ndigits. apply ndigits_fuel_spec. split; [done|].
  rewrite Nat2Z.inj_add, Z2Nat.id by apply Z.log2_nonneg.
  pose proof (Z.log2_spec c Hc) as [_ Hlog]. by rewrite <- Z.add_1_r in Hlog.
Qed.

Lemma div_eucl_div_mod a b : Z.div_eucl a b = (a / b, a mod b).
Proof. unfold Z.div, Z.modulo. by destruct (Z.div_eucl a b). Qed.

(** A nonzero decimal divided by itself is exactly 1. *)
Lemma __div___self a : 0 < _int a -> __div__ a a = OK (mkDecimal false 1 0).
Proof.
  intros Ha. unfold __div__.
  destruct (Z.eqb_spec (_int a) 0) as [Hz|_]; [lia|].
  replace (ndigits (_int a) - ndigits (_int a) + prec + 1) with 29 by (unfold prec; lia).
  replace (_exp a - _exp a - 29) with (-29) by lia.
  replace (_exp a - _exp a) with 0 by lia.
  change (0 <=? 29) with true. cbv beta iota.
  rewrite div_eucl_div_mod, Z.mul_comm, Z.div_mul, Z.mod_mul by lia.
  rewrite xorb_nilpotent. vm_compute. done.
Qed.

Lemma __div___self_inv a q :
  0 <= _int a -> __div__ a a = OK q -> q = mkDecimal false 1 0.
Proof.
  intros Hnonneg Hdiv. destruct (Z.eq_dec (_int a) 0) as [Hz|Hnz].
  - unfold __div__ in Hdiv. rewrite Hz in Hdiv. simpl in Hdiv. discriminate.
  - rewrite __div___self in Hdiv by lia. by injection Hdiv.
Qed.

Lemma int_of_digits_app acc a b :
  int_of_digits acc (a +:+ b) = int_of_digits (int_of_digits acc a) b.
Proof. revert acc. induction a as [|c a IH]; intros acc; simpl; [done|]. apply IH. Qed.

Lemma int_of_digits_take s : ∀ acc d r,
  take_digits s = (d, r) -> 0 <= acc -> 0 <= int_of_digits acc d.
Proof.
  induction s as [|c s IH]; intros acc d r Htake Hacc; simpl in Htake.
  - by injection Htake as <- <-.
  - destruct (is_digit c) eqn:Hc.
    + destruct (take_digits s) as [d' r'] eqn:Hs. injection Htake as <- <-. simpl.
      apply (IH _ d' r'); [done|].
      unfold is_digit in Hc. apply andb_true_iff in Hc as [Hlo%Z.leb_le _].
      unfold digit_value. lia.
    + by injection Htake as <- <-.
Qed.

(** The coefficient the parser builds is never negative: the sign is kept
    apart. *)
Lemma Decimal_of_string_nonneg raw d : Decimal_of_string raw = Some d -> 0 <= _int d.
Proof.
  unfold Decimal_of_string. intros Hparse.
  destruct (take_sign (strip is_space raw)) as [neg s1].
  destruct (take_digits s1) as [intpart s2] eqn:Hint.
  match type of Hparse with
  | (let '(_, _) := ?m in _) = _ => set (frac := m) in *
  end.
  assert (frac = (EmptyString, s2) ∨ ∃ r, frac = take_digits r) as Hfrac.
  { subst frac. destruct s2 as [|[[] [] [] [] [] [] [] []] r]; eauto. }
  destruct frac as [fracpart s3].
  assert (0 <= int_of_digits 0 (intpart +:+ fracpart)) as Hnonneg.
  { rewrite int_of_digits_app.
    pose proof (int_of_digits_take _ 0 _ _ Hint ltac:(lia)) as Hi.
    destruct Hfrac as [Hfrac|[r Hfrac]].
    - by injection Hfrac as -> _.
    - symmetry in Hfrac. by eapply int_of_digits_take. }
  destruct (parse_exponent s3); [|by repeat case_match].
  repeat case_match; try discriminate; by injection Hparse as <-.
Qed.

Lemma _rescale_half_even_nearest d e :
  0 <= _int d -> _exp d < e ->
  Z.abs (2 * (_int d - _int (_rescale d e ROUND_HALF_EVEN) * 10 ^ (e - _exp d)))
  <= 10 ^ (e - _exp d) ∧
  (Z.abs (2 * (_int d - _int (_rescale d e ROUND_HALF_EVEN) * 10 ^ (e - _exp d)))
   = 10 ^ (e - _exp d) ->
   Z.even (_int (_rescale d e ROUND_HALF_EVEN)) = true).
Proof.
  intros Hc He. unfold _rescale.
  assert (0 < 10 ^ (e - _exp d)) as Hp by (apply Z.pow_pos_nonneg; lia).
  set (p := 10 ^ (e - _exp d)) in *.
  destruct (Z.eqb_spec (_int d) 0) as [Hz|Hnz].
  { simpl. rewrite Hz. simpl. split; [lia|]. intros. done. }
  destruct (Z.leb_spec e (_exp d)) as [Hle|_]; [lia|].
  pose proof (Z.div_mod (_int d) p ltac:(lia)) as Heq.
  pose proof (Z.mod_pos_bound (_int d) p Hp) as Hmod.
  set (q := _int d / p) in *. set (rest := _int d mod p) in *.
  destruct (Z.ltb_spec p (2 * rest)) as [Hhigh|Hlow]; simpl.
  - split; [lia|]. intros Habs. lia.
  - destruct (Z.eqb_spec (2 * rest) p) as [Htie|Hnot].
    + destruct (Z.even q) eqn:Heven; simpl.
      * split; [lia | done].
      * split; [lia|]. intros _.
        replace (q + 1) with (Z.succ q) by lia.
        by rewrite Z.even_succ, <- Z.negb_even, Heven.
    + split; [lia|]. intros Habs. lia.
Qed.

(** X1: the value [quantized_field] reads from an attribute has the sign
    of the parsed literal and exponent -4; a literal of at most 4
    fractional digits is kept exactly, and a longer one becomes the
    nearest multiple of 0.0001, a tie going to the even coefficient. *)
Theorem quantized_field_nearest feat attr raw d value :
  feat_get feat attr = OK raw ->
  Decimal_of_string raw = Some d ->
  quantized_field feat attr = OK value ->
  _sign value = _sign d ∧ _exp value = -4 ∧
  if -4 <=? _exp d then _int value = _int d * 10 ^ (_exp d + 4)
  else
    Z.abs (2 * (_int d - _int value * 10 ^ (-4 - _exp d))) <= 10 ^ (-4 - _exp d) ∧
    (Z.abs (2 * (_int d - _int value * 10 ^ (-4 - _exp d))) = 10 ^ (-4 - _exp d) ->
     Z.even (_int value) = true).
Proof.
  intros Hget Hparse Hq.
  pose proof (quantized_field_exp _ _ _ Hq) as Hexp.
  pose proof (Decimal_of_string_nonneg _ _ Hparse) as Hnonneg.
  rewrite (quantized_field_half_even _ _ _ _ _ Hget Hparse Hq) in Hexp |- *.
  split; [unfold _rescale; by repeat case_match|]. split; [done|].
  destruct (Z.leb_spec (-4) (_exp d)) as [Hle|Hlt].
  - unfold _rescale. destruct (Z.eqb_spec (_int d) 0) as [Hz|_]; simpl.
    + rewrite Hz. done.
    + destruct (Z.leb_spec (-4) (_exp d)); [|lia]. simpl.
      by replace (_exp d - -4) with (_exp d + 4) by lia.
  - by apply _rescale_half_even_nearest.
Qed.

Lemma quantized_field_nearest_witness :
  _sign (mkDecimal false 451234 (-4)) = _sign (mkDecimal false 4512345 (-5)) ∧
  _exp (mkDecimal false 451234 (-4)) = -4 ∧
  if -4 <=? _exp (mkDecimal false 4512345 (-5))
  then _int (mkDecimal false 451234 (-4))
       = _int (mkDecimal false 4512345 (-5)) * 10 ^ (_exp (mkDecimal false 4512345 (-5)) + 4)
  else
    Z.abs (2 * (_int (mkDecimal false 4512345 (-5))
                - _int (mkDecimal false 451234 (-4))
                  * 10 ^ (-4 - _exp (mkDecimal false 4512345 (-5)))))
    <= 10 ^ (-4 - _exp (mkDecimal false 4512345 (-5))) ∧
    (Z.abs (2 * (_int (mkDecimal false 4512345 (-5))
                 - _int (mkDecimal false 451234 (-4))
                   * 10 ^ (-4 - _exp (mkDecimal false 4512345 (-5)))))
     = 10 ^ (-4 - _exp (mkDecimal false 4512345 (-5))) ->
     Z.even (_int (mkDecimal false 451234 (-4))) = true).
Proof.
  apply (quantized_field_nearest Demo.block_A "WHITE" "45.12345"
           (mkDecimal false 4512345 (-5)) (mkDecimal false 451234 (-4)));
    vm_compute; reflexivity.
Defined.

(** X2: an attribute whose literal has no fractional digit and a value
    of 10^24 or more cannot be quantized at 4 places within the 28 digits
    of the context: [quantized_field] raises [InvalidOperation], and the
    loop body of the Assigner raises it without reaching the save or its
    fallback. *)
Theorem quantized_field_too_many_digits `{Backend} g so feat st attr subject obj raw d :
  feat_get feat attr = OK raw ->
  Decimal_of_string raw = Some d ->
  0 <= _exp d ->
  10 ^ 24 <= _int d * 10 ^ _exp d ->
  endswith attr "_by_id" = false ->
  quantized_field feat attr = Raise InvalidOperation ∧
  set_one_characteristic g so feat st (attr, DSubject subject obj) = Raise InvalidOperation.
Proof.
  intros Hget Hparse Hexp Hbig Hattr.
  assert (quantized_field feat attr = Raise InvalidOperation) as Hq.
  { unfold quantized_field, new_Decimal. rewrite Hget. simpl. rewrite Hparse. simpl.
    unfold quantize. simpl.
    assert (0 < 10 ^ _exp d) as Hpow by (apply Z.pow_pos_nonneg; lia).
    assert (0 < _int d) as Hpos by nia.
    destruct (Z.eqb_spec (_int d) 0) as [Hz|_]; [lia|].
    pose proof (ndigits_spec _ Hpos) as [_ Hhigh].
    pose proof (ndigits_fuel_pos (Z.to_nat (Z.log2 (_int d)) + 1) (_int d)) as Hnd.
    fold (ndigits (_int d)) in Hnd.
    assert (10 ^ 24 < 10 ^ (ndigits (_int d) + _exp d)) as Hlt.
    { rewrite Z.pow_add_r by lia. nia. }
    apply Z.pow_lt_mono_r_iff in Hlt; [|lia|lia].
    destruct (Emax <? adjusted d); [done|].
    change (0 - Z.of_nat 4) with (-4).
    destruct (Z.ltb_spec prec (adjusted d - -4 + 1)) as [_|Hfits]; [done|].
    unfold adjusted, prec in Hfits. lia. }
  split; [done|]. unfold set_one_characteristic. rewrite Hattr, Hq. done.
Qed.

Lemma quantized_field_too_many_digits_witness :
  quantized_field (Demo.block "A" "1" "1000000000000000000000000" "5" (Demo.square 0 0))
    "TOTAL" = Raise InvalidOperation ∧
  set_one_characteristic (H := accepting_backend) 0 Demo.subject_objects
    (Demo.block "A" "1" "1000000000000000000000000" "5" (Demo.square 0 0))
    Demo.empty_store ("TOTAL"%string, DSubject 0 (mkSubject "poptot" None))
  = Raise InvalidOperation.
Proof.
  apply (quantized_field_too_many_digits (H := accepting_backend) 0 Demo.subject_objects
           (Demo.block "A" "1" "1000000000000000000000000" "5" (Demo.square 0 0))
           Demo.empty_store "TOTAL" 0 (mkSubject "poptot" None)
           "1000000000000000000000000" (mkDecimal false (10 ^ 24) 0));
    vm_compute; try reflexivity; discriminate.
Defined.

(** ** The Assigner: what a call writes *)

Section assigner_writes.
Context `{Backend}.

(** One iteration of the Assigner's loop leaves the store as it was or
    saves one row of the unit. *)
Lemma set_one_characteristic_step g so feat st item st' :
  set_one_characteristic g so feat st item = OK st' ->
  st' = st ∨
  ∃ row, c_geounit row = g ∧
         st' = set_characteristics st (saved_rows st g (c_subject row) row).
Proof.
  destruct item as [attr [subject obj|field]]; unfold set_one_characteristic at 1;
    destruct (endswith attr "_by_id") eqn:Hattr; try by (intros [= <-]; left).
  intros Hrun.
  assert (set_one_characteristic g so feat st (attr, DSubject subject obj) = OK st') as Hinv
    by (unfold set_one_characteristic; by rewrite Hattr).
  apply set_one_characteristic_inv in Hinv as (? & pct & z & _ & _ & _ & _ & ->); [|done].
  right. by exists (mkCharacteristic g subject z pct).
Qed.

Lemma assigner_loop_others g so feat items st st' g' subject :
  for_each (set_one_characteristic g so feat) items st = OK st' ->
  g' ≠ g ->
  characteristic_query st' g' subject = characteristic_query st g' subject.
Proof.
  intros Hrun Hne. revert st Hrun.
  induction items as [|item items IH]; intros st Hrun.
  - by injection Hrun as <-.
  - rewrite for_each_cons in Hrun. apply bind_OK in Hrun as (st1 & Hone & Hrest).
    rewrite (IH st1 Hrest).
    apply set_one_characteristic_step in Hone as [->|(row & Hg & ->)]; [done|].
    apply query_after_save; [done..|]. congruence.
Qed.

Lemma saved_rows_unique st g row :
  c_geounit row = g ->
  unique_characteristics st ->
  unique_characteristics (set_characteristics st (saved_rows st g (c_subject row) row)).
Proof.
  intros Hg Hunique g' s'.
  destruct (decide ((s', g') = (c_subject row, g))) as [[= -> ->]|Hne].
  - specialize (Hunique g (c_subject row)).
    unfold saved_rows, characteristic_query in *. simpl.
    set (p := fun c => Nat.eqb (c_subject c) (c_subject row) && Nat.eqb (c_geounit c) g) in *.
    assert (Hrow : p row = true).
    { unfold p. rewrite Hg, !Nat.eqb_refl. done. }
    destruct (select p (characteristics st)) as [|[i y] rest] eqn:Hsel; simpl.
    + rewrite select_app, Hsel, Hrow. simpl. lia.
    + destruct (select_insert_head p _ i y row _ Hsel Hrow) as [_ ->]. done.
  - by rewrite query_after_save.
Qed.

(** X3: after the Assigner has run for a unit, the Characteristic of a
    subject mapped under one attribute holds as [number], in units of
    1/10000, the attribute rounded half-even to 4 places, or 0 when the
    store refused the row that held that number. *)
Theorem assigner_number_law g so feat st st' before after attr subject obj raw d :
  set_geounit_characteristic g so feat st = OK st' ->
  so = before ++ (attr, DSubject subject obj) :: after ->
  endswith attr "_by_id" = false ->
  forallb (fun item => negb (writes_subject subject item)) (before ++ after) = true ->
  feat_get feat attr = OK raw ->
  Decimal_of_string raw = Some d ->
  ∃ c, stored_characteristic st' g subject = Some c ∧
       c_geounit c = g ∧ c_subject c = subject ∧
       (number c = signed_int (_rescale d (-4) ROUND_HALF_EVEN) ∨
        number c = 0 ∧
        characteristic_accepts
          (mkCharacteristic g subject (signed_int (_rescale d (-4) ROUND_HALF_EVEN))
                            (percentage c)) = false).
Proof.
  intros Hrun Hso Hattr Hothers Hget Hparse.
  unfold set_geounit_characteristic in Hrun. rewrite Hso in Hrun at 2.
  rewrite for_each_app in Hrun. apply bind_OK in Hrun as (st1 & Hbefore & Hrun).
  simpl in Hrun. apply bind_OK in Hrun as (st2 & Hone & Hafter).
  rewrite forallb_app in Hothers. apply andb_true_iff in Hothers as [Hb Ha].
  destruct (assigner_loop_frame _ _ _ _ _ _ _ Ha Hafter) as [Hq _].
  apply set_one_characteristic_inv in Hone as (N & pct & z & HN & _ & Hz & _ & ->); [|done].
  rewrite (quantized_field_half_even _ _ _ _ _ Hget Hparse HN) in Hz.
  exists (mkCharacteristic g subject z pct). split_and!; [|done|done|].
  - unfold stored_characteristic. rewrite Hq. by apply stored_after_save.
  - simpl. destruct Hz as [->|[Hrefused ->]]; [by left | by right].
Qed.

(** X4: a call of the Assigner for a unit leaves the units, the
    subjects, the geolevels and the legislative levels as they were, and
    every Characteristic of every other unit in its row, unchanged. *)
Theorem assigner_frame g so feat st st' :
  set_geounit_characteristic g so feat st = OK st' ->
  geounits st' = geounits st ∧ same_settings st st' ∧
  ∀ g' subject, g' ≠ g ->
    characteristic_query st' g' subject = characteristic_query st g' subject.
Proof.
  intros Hrun.
  destruct (set_geounit_characteristic_static _ _ _ _ _ Hrun) as [Hunits Hsettings].
  split_and!; [done..|]. intros g' subject Hne.
  by eapply assigner_loop_others.
Qed.

(** X5: the Assigner keeps the table at one Characteristic for each unit
    and subject: it writes over the row it finds and adds a row only
    where the query found none. *)
Theorem assigner_keeps_unique g so feat st st' :
  set_geounit_characteristic g so feat st = OK st' ->
  unique_characteristics st -> unique_characteristics st'.
Proof.
  unfold set_geounit_characteristic. intros Hrun Hunique.
  eapply (for_each_invariant unique_characteristics (fun _ => True)); [| |done|done].
  - intros s x s' _ Hs [->|(row & Hg & ->)]%set_one_characteristic_step; [done|].
    by apply saved_rows_unique.
  - by apply Forall_forall.
Qed.

End assigner_writes.

Lemma assigner_number_law_witness :
  ∃ st', set_geounit_characteristic (H := accepting_backend) 0
           Demo.subject_objects Demo.block_B Demo.empty_store = OK st' ∧
    ∃ c, stored_characteristic st' 0 1 = Some c ∧
         c_geounit c = 0%nat ∧ c_subject c = 1%nat ∧
         (number c = signed_int (_rescale (mkDecimal false 4512346 (-5)) (-4) ROUND_HALF_EVEN) ∨
          number c = 0 ∧
          characteristic_accepts (Backend := accepting_backend)
            (mkCharacteristic 0 1
               (signed_int (_rescale (mkDecimal false 4512346 (-5)) (-4) ROUND_HALF_EVEN))
               (percentage c)) = false).
Proof.
  eexists. split; [vm_compute; reflexivity|].
  apply (assigner_number_law (H := accepting_backend) 0 Demo.subject_objects Demo.block_B
           Demo.empty_store _
           [("TOTAL"%string, DSubject 0 (mkSubject "poptot" None));
            ("poptot_by_id"%string, DField "TOTAL")]
           [("popwhite_by_id"%string, DField "WHITE")]
           "WHITE" 1 (mkSubject "popwhite" (Some 0%nat)) "45.12346");
    vm_compute; reflexivity.
Defined.

(** The Assigner run for the unit of block A in the store that holds the
    two blocks. *)
Lemma assigner_frame_witness :
  ∃ st', set_geounit_characteristic (H := accepting_backend) 0
           Demo.subject_objects Demo.block_A Demo.blocks_imported = OK st' ∧
    geounits st' = geounits Demo.blocks_imported ∧ same_settings Demo.blocks_imported st' ∧
    ∀ g' subject, g' ≠ 0%nat ->
      characteristic_query st' g' subject
      = characteristic_query Demo.blocks_imported g' subject.
Proof.
  eexists. split; [vm_compute; reflexivity|].
  apply (assigner_frame (H := accepting_backend) 0 Demo.subject_objects Demo.block_A
           Demo.blocks_imported).
  vm_compute; reflexivity.
Defined.

Lemma assigner_keeps_unique_witness :
  ∃ st', set_geounit_characteristic (H := accepting_backend) 0
           Demo.subject_objects Demo.block_A Demo.empty_store = OK st' ∧
    unique_characteristics st'.
Proof.
  eexists. split; [vm_compute; reflexivity|].
  apply (assigner_keeps_unique (H := accepting_backend) 0 Demo.subject_objects Demo.block_A
           Demo.empty_store).
  - vm_compute; reflexivity.
  - intros g subject. vm_compute. lia.
Defined.

(** ** The Aggregator: what a pass keeps *)

Lemma set_geounits_id st : set_geounits st (geounits st) = st.
Proof. by destruct st. Qed.

Lemma select_nil_iff {A} (p : A -> bool) (l : list A) :
  select p l = [] <-> ∀ x, x ∈ l -> p x = false.
Proof.
  split.
  - intros Hnil x [i Hi]%list_elem_of_lookup. apply not_true_is_false. intros Hp.
    assert ((i, x) ∈ select p l) as Hin by (by apply elem_of_select).
    rewrite Hnil in Hin. by apply elem_of_nil in Hin.
  - intros Hall. destruct (select p l) as [|[i x] rest] eqn:Hsel; [done|].
    assert ((i, x) ∈ select p l) as [Hi Hp]%elem_of_select by (rewrite Hsel; left).
    rewrite Hall in Hp; [done|]. by eapply list_elem_of_lookup_2.
Qed.

Lemma update_child_columns st code level pk :
  identity_columns <$> geounits (update_child st code level pk)
  = identity_columns <$> geounits st.
Proof.
  unfold update_child. simpl. rewrite <- list_fmap_compose.
  apply list_fmap_ext. intros i u _. simpl. by destruct (in_parentunits code level u).
Qed.

Section aggregator_keeps.
Context `{GeosOps} `{Backend}.

Lemma same_identity_refl st : same_identity st st.
Proof. by repeat split. Qed.

Lemma same_identity_trans st1 st2 st3 :
  same_identity st1 st2 -> same_identity st2 st3 -> same_identity st1 st3.
Proof.
  intros (? & ? & ? & ?) (? & ? & ? & ?). repeat split; congruence.
Qed.

Lemma aggregate_subject_step p code level st num row st' num' :
  aggregate_subject p code level (st, num) row = OK (st', num') ->
  (st' = st ∧ num' = num) ∨
  (num' = S num ∧
   ∃ r, c_geounit r = p ∧
        st' = set_characteristics st (saved_rows st p (c_subject r) r)).
Proof.
  destruct row as [subject subject_obj]. unfold aggregate_subject.
  intros Hrun. apply bind_OK in Hrun as (pct & _ & Hrun).
  destruct (characteristic_query st p subject) as [|[pk mychar] rest] eqn:Hquery.
  - apply bind_OK in Hrun as ([st1 i] & Hsave & Hrun). injection Hrun as <- <-.
    change None with (fst <$> head (@nil (nat * Characteristic))) in Hsave.
    rewrite <- Hquery in Hsave.
    apply save_characteristic_inv in Hsave as (z & _ & _ & ->).
    right. split; [done|]. by exists (mkCharacteristic p subject z pct).
  - destruct (pyval_ne_Decimal _ _).
    + apply bind_OK in Hrun as ([st1 i] & Hsave & Hrun). injection Hrun as <- <-.
      change (Some pk) with (fst <$> head ((pk, mychar) :: rest)) in Hsave.
      rewrite <- Hquery in Hsave.
      apply save_characteristic_inv in Hsave as (z & _ & _ & ->).
      right. split; [done|]. by exists (mkCharacteristic p subject z pct).
    + injection Hrun as <- <-. by left.
Qed.

Lemma aggregate_subjects_keep p code level items st num st' num' :
  for_each (aggregate_subject p code level) items (st, num) = OK (st', num') ->
  same_identity st st' ∧
  (num' <= num + length items)%nat ∧
  (unique_characteristics st -> unique_characteristics st').
Proof.
  revert st num. induction items as [|item items IH]; intros st num Hrun.
  - injection Hrun as <- <-. split_and!; [apply same_identity_refl | simpl; lia | done].
  - rewrite for_each_cons in Hrun. apply bind_OK in Hrun as ([st1 num1] & Hone & Hrest).
    destruct (IH _ _ Hrest) as (Hid & Hnum & Hunique).
    apply aggregate_subject_step in Hone as [[-> ->]|(-> & r & Hr & ->)].
    + split_and!; [done | simpl; lia | done].
    + split_and!; [done | simpl; lia |].
      intros Hst. apply Hunique. by apply saved_rows_unique.
Qed.

Lemma aggregate_geometry_keeps st p u level newgeo st' geo :
  aggregate_geometry st (p, u) level newgeo = OK (st', geo) ->
  identity_columns <$> geounits st !! p = Some (identity_columns u) ->
  same_identity st st' ∧ (geo <= 1)%nat ∧ characteristics st' = characteristics st.
Proof.
  intros (d & _ & Hcases)%aggregate_geometry_inv Hcols.
  destruct (Qeq_bool (geos_area d) 0).
  - destruct Hcases as [-> ->]. split_and!; [apply same_identity_refl | lia | done].
  - destruct Hcases as (? & g & s & _ & _ & _ & _ & -> & ->). split_and!; try done.
    split; [|done]. simpl. rewrite list_fmap_insert.
    apply list_insert_id. by rewrite list_lookup_fmap.
Qed.

Lemma unique_characteristics_ext st st' :
  characteristics st' = characteristics st ->
  unique_characteristics st -> unique_characteristics st'.
Proof.
  intros Heq Hunique g s. unfold characteristic_query. rewrite Heq. apply Hunique.
Qed.

Lemma aggregate_unit_keeps st p u level parent st' geo num :
  aggregate_unit st (p, u) level parent = OK (st', (geo, num)) ->
  identity_columns <$> geounits st !! p = Some (identity_columns u) ->
  same_identity st st' ∧
  (geo <= 1)%nat ∧ (num <= length (subjects st))%nat ∧
  (unique_characteristics st -> unique_characteristics st').
Proof.
  intros (newgeo & _ & Hcases)%aggregate_unit_inv Hcols.
  set (st1 := update_child st (tree_code u) (ll_geolevel parent) p) in *.
  assert (same_identity st st1) as Hid1.
  { split; [apply update_child_columns | done]. }
  destruct newgeo as [newgeo|].
  - destruct Hcases as (st2 & Hgeo & Hloop).
    apply aggregate_geometry_keeps in Hgeo as (Hid2 & Hgeo & Hchars).
    2:{ rewrite <- list_lookup_fmap. destruct Hid1 as [-> _]. by rewrite list_lookup_fmap. }
    apply aggregate_subjects_keep in Hloop as (Hid3 & Hnum & Hunique).
    unfold rows in Hnum. rewrite <- (length_fmap fst), fst_rows_from, length_seq in Hnum.
    assert (subjects st2 = subjects st) as Hsubj.
    { destruct Hid2 as (_ & _ & _ & ->). done. }
    split_and!; [|done| rewrite <- Hsubj; lia |].
    + eapply same_identity_trans; [done|]. by eapply same_identity_trans.
    + intros Hst. apply Hunique. apply (unique_characteristics_ext st); [|done].
      by rewrite Hchars.
  - destruct Hcases as (-> & -> & ->). split_and!; [done | lia | lia |].
    by apply unique_characteristics_ext.
Qed.

Lemma renest_units_keep level parent items st0 st geomods nummods st' geomods' nummods' :
  (∀ p u, (p, u) ∈ items -> geounits st0 !! p = Some u) ->
  same_identity st0 st ->
  for_each (renest_unit level parent) items (st, (geomods, nummods))
  = OK (st', (geomods', nummods')) ->
  same_identity st0 st' ∧
  (geomods' <= geomods + length items)%nat ∧
  (nummods' <= nummods + length items * length (subjects st0))%nat ∧
  (unique_characteristics st -> unique_characteristics st').
Proof.
  revert st geomods nummods.
  induction items as [|[p u] items IH]; intros st geomods nummods Hitems Hid Hrun.
  - injection Hrun as <- <- <-. split_and!; [done | simpl; lia | simpl; lia | done].
  - rewrite for_each_cons in Hrun.
    apply bind_OK in Hrun as ([st1 [geomods1 nummods1]] & Hone & Hrest).
    unfold renest_unit in Hone.
    apply bind_OK in Hone as ([st1' [geo num]] & Hunit & Hone).
    injection Hone as -> <- <-.
    apply aggregate_unit_keeps in Hunit as (Hid1 & Hgeo & Hnum & Hunique1).
    2:{ rewrite <- list_lookup_fmap. destruct Hid as [-> _].
        rewrite list_lookup_fmap, (Hitems p u); [done | left]. }
    destruct (IH st1 (geomods + geo)%nat (nummods + num)%nat)
      as (Hid' & Hgeo' & Hnum' & Hunique'); [| |done|].
    { intros q v Hin. apply Hitems. by right. }
    { by eapply same_identity_trans. }
    assert (subjects st = subjects st0) as Hsubj.
    { destruct Hid as (_ & _ & _ & ->). done. }
    rewrite Hsubj in Hnum.
    split_and!; [done | simpl; lia | simpl; lia |].
    intros Hst. by apply Hunique', Hunique1.
Qed.

Lemma renest_geolevel_inv st glconf st' cnt :
  renest_geolevel st glconf = OK (st', cnt) ->
  ∃ level parent,
    get_geolevel st glconf = OK level ∧
    last_parent st (fst level) = OK parent ∧
    match parent with
    | Some parent =>
        for_each (renest_unit (snd level) parent)
                 (select (fun u => Nat.eqb (geolevel u) (fst level)) (geounits st))
                 (st, (0, 0)%nat) = OK (st', cnt)
    | None => st' = st ∧ cnt = (0, 0)%nat
    end.
Proof.
  unfold renest_geolevel. intros Hrun.
  apply bind_OK in Hrun as (level & Hlevel & Hrun).
  apply bind_OK in Hrun as (parent & Hparent & Hrun).
  exists level, parent. split_and!; [done..|].
  destruct parent; [done|]. by injection Hrun as <- <-.
Qed.

(** X6: a renesting pass neither adds nor removes a unit and never
    changes the name, the portable id, the tree code, the geolevel or the
    centroid of one, also where it replaces the geometry; the geolevels,
    the legislative levels and the subjects stay as they were. *)
Theorem renest_keeps_identity st glconf st' cnt :
  renest_geolevel st glconf = OK (st', cnt) ->
  identity_columns <$> geounits st' = identity_columns <$> geounits st ∧
  same_settings st st'.
Proof.
  intros (level & parent & _ & _ & Hrun)%renest_geolevel_inv.
  destruct parent as [parent|]; [|by destruct Hrun as [-> _]].
  destruct cnt as [geomods nummods].
  apply (renest_units_keep _ _ _ st) in Hrun as (Hid & _); [done| |apply same_identity_refl].
  by intros p u [Hu _]%elem_of_select.
Qed.

(** X7: the counters a renesting pass reports are bounded by the units
    of the geolevel: at most one geometry change for each unit, and at
    most one Characteristic change for each unit and subject. *)
Theorem renest_counters_bounded st glconf st' geomods nummods level :
  renest_geolevel st glconf = OK (st', (geomods, nummods)) ->
  get_geolevel st glconf = OK level ->
  (geomods <= length (select (fun u => Nat.eqb (geolevel u) (fst level)) (geounits st)))%nat ∧
  (nummods <= length (select (fun u => Nat.eqb (geolevel u) (fst level)) (geounits st))
              * length (subjects st))%nat.
Proof.
  intros (level' & parent & Hlevel' & _ & Hrun)%renest_geolevel_inv Hlevel.
  assert (level' = level) as -> by congruence.
  destruct parent as [parent|]; [|destruct Hrun as [_ [= -> ->]]; lia].
  apply (renest_units_keep _ _ _ st) in Hrun as (_ & Hgeo & Hnum & _);
    [simpl in *; lia | | apply same_identity_refl].
  by intros p u [Hu _]%elem_of_select.
Qed.

(** X8: a renesting pass keeps the table at one Characteristic for each
    unit and subject. *)
Theorem renest_keeps_unique st glconf st' cnt :
  renest_geolevel st glconf = OK (st', cnt) ->
  unique_characteristics st -> unique_characteristics st'.
Proof.
  intros (level & parent & _ & _ & Hrun)%renest_geolevel_inv.
  destruct parent as [parent|]; [|by destruct Hrun as [-> _]].
  destruct cnt as [geomods nummods].
  apply (renest_units_keep _ _ _ st) in Hrun as (_ & _ & _ & Hunique);
    [done | | apply same_identity_refl].
  by intros p u [Hu _]%elem_of_select.
Qed.

End aggregator_keeps.

(** The pass over the county digitized over one cell: its geometry is
    replaced, its other columns stay. *)
Lemma renest_keeps_identity_witness :
  ∃ st' cnt,
    renest_geolevel (H := CellGeos.ops) (H0 := accepting_backend)
      Demo.imported_small "county" = OK (st', cnt) ∧
    fst cnt = 1%nat ∧
    identity_columns <$> geounits st' = identity_columns <$> geounits Demo.imported_small ∧
    same_settings Demo.imported_small st'.
Proof.
  eexists _, _. split; [vm_compute; reflexivity|]. split; [reflexivity|].
  apply (renest_keeps_identity (H := CellGeos.ops) (H0 := accepting_backend)
           Demo.imported_small "county" _ (1, 2)%nat).
  vm_compute; reflexivity.
Defined.

Lemma renest_counters_bounded_witness :
  (0 <= length (select (fun u => Nat.eqb (geolevel u) 1) (geounits Demo.imported)))%nat ∧
  (2 <= length (select (fun u => Nat.eqb (geolevel u) 1) (geounits Demo.imported))
        * length (subjects Demo.imported))%nat.
Proof.
  apply (renest_counters_bounded (H := CellGeos.ops) (H0 := accepting_backend)
           Demo.imported "county" Demo.renested 0 2
           (1%nat, mkGeolevel "county" (Demo.dec "10")));
    vm_compute; reflexivity.
Defined.

Lemma renest_keeps_unique_witness : unique_characteristics Demo.renested.
Proof.
  apply (renest_keeps_unique (H := CellGeos.ops) (H0 := accepting_backend)
           Demo.imported "county" Demo.renested (0, 2)%nat).
  - vm_compute; reflexivity.
  - intros g subject.
    destruct g as [|[|[|g]]], subject as [|[|subject]]; vm_compute; lia.
Defined.

Section aggregator_edges.
Context `{GeosOps} `{Backend}.

(** X9: whenever a renesting step writes the Characteristic of a unit,
    the percentage it writes is the zero sentinel or exactly 1, whatever
    the numbers of the denominator subject are. *)
Theorem renest_percentage_is_sentinel_or_one p code level st num subject subject_obj st' :
  aggregate_subject p code level (st, num) (subject, subject_obj) = OK (st', S num) ->
  ∃ c, stored_characteristic st' p subject = Some c ∧
       (percentage c = zero_sentinel ∨ percentage c = PyDecimal (mkDecimal false 1 0)).
Proof.
  intros (c & Hc & Hcases)%aggregate_subject_percentage.
  exists c. split; [done|].
  destruct Hcases as [Hz|(a & q & Hsum & Hdiv & Hpct)]; [by left|]. right.
  rewrite Hpct. f_equal. apply (__div___self_inv a); [|done].
  unfold Sum_number in Hsum. destruct (characteristics_in _ _ _); [done|].
  injection Hsum as <-. simpl. lia.
Qed.

(** X10: a subject that has no Characteristic among the units of the
    parent set is written with number 0 and the zero sentinel, and
    counted as changed, on every pass: the string the code holds for
    the missing sum never equals the stored number. *)
Theorem subject_without_rows_is_rewritten p code level st num subject subject_obj :
  characteristics_in st (parent_set st code level) subject = [] ->
  characteristic_accepts (mkCharacteristic p subject 0 zero_sentinel) = true ->
  aggregate_subject p code level (st, num) (subject, subject_obj)
  = OK (set_characteristics st
          (saved_rows st p subject (mkCharacteristic p subject 0 zero_sentinel)),
        S num).
Proof.
  intros Hempty Hacc. unfold aggregate_subject. fold (parent_set st code level).
  rewrite Hempty. cbn [Sum_number]. cbv beta iota zeta.
  assert (number_of_pyval (PyStr "0.0") = Some 0) as Hzero by (vm_compute; reflexivity).
  unfold saved_rows.
  destruct (characteristic_query st p subject) as [|[pk mychar] rest] eqn:Hquery;
    cbn [mbind result_bind pyval_ne_Decimal head fmap option_fmap option_map fst];
    unfold save_characteristic; rewrite Hzero, Hacc; done.
Qed.

(** X11: a unit whose parent set is empty is left alone: no child
    pointer, no geometry and no Characteristic is written, and both
    counters of the call are 0. *)
Theorem unit_without_parent_set_untouched st p u level parent :
  parent_set st (tree_code u) (ll_geolevel parent) = [] ->
  aggregate_unit st (p, u) level parent = OK (st, (0, 0)%nat).
Proof.
  intros Hempty. unfold parent_set, parentunits_of in Hempty.
  apply fmap_nil_inv in Hempty.
  assert (update_child st (tree_code u) (ll_geolevel parent) p = st) as Hsame.
  { unfold update_child.
    transitivity (set_geounits st (geounits st)); [f_equal | apply set_geounits_id].
    transitivity (id <$> geounits st); [|apply list_fmap_id].
    apply list_fmap_ext. intros i v Hv. simpl.
    rewrite (proj1 (select_nil_iff _ _) Hempty v); [done|].
    by eapply list_elem_of_lookup_2. }
  unfold aggregate_unit. cbn [fst snd]. rewrite Hsame.
  unfold parentunits_of. rewrite Hempty. done.
Qed.

Lemma last_parent_loop st llevels acc :
  Forall (fun l => ll_parent l = None) llevels ->
  for_each (fun parent llevel =>
              match ll_parent llevel with
              | Some p =>
                  row ← of_option DoesNotExist (legislative_levels st !! p);
                  OK (Some row)
              | None => OK parent
              end) llevels acc = OK acc.
Proof.
  induction 1 as [|l llevels Hl _ IH]; [done|].
  rewrite for_each_cons, Hl. simpl. apply IH.
Qed.

(** X12: a geolevel none of whose legislative levels has a parent is
    not renested: the pass returns the store as it found it, with both
    counters 0. *)
Theorem renest_without_parent_level st glconf level :
  get_geolevel st glconf = OK level ->
  (∀ l, l ∈ legislative_levels st -> ll_geolevel l = fst level -> ll_parent l = None) ->
  renest_geolevel st glconf = OK (st, (0, 0)%nat).
Proof.
  intros Hlevel Hnone. unfold renest_geolevel. rewrite Hlevel. simpl.
  unfold last_parent. rewrite last_parent_loop; [done|].
  apply Forall_forall. intros l Hin.
  apply list_elem_of_In, filter_In in Hin as [Hin%list_elem_of_In Hl].
  apply Hnone; [done|]. by apply Nat.eqb_eq.
Qed.

End aggregator_edges.

Lemma renest_percentage_is_sentinel_or_one_witness :
  ∃ st', aggregate_subject (H := accepting_backend) 2 "00" 0 (Demo.imported, 0%nat)
           (1%nat, mkSubject "popwhite" (Some 0%nat)) = OK (st', 1%nat) ∧
    ∃ c, stored_characteristic st' 2 1 = Some c ∧
         (percentage c = zero_sentinel ∨ percentage c = PyDecimal (mkDecimal false 1 0)).
Proof.
  eexists. split; [vm_compute; reflexivity|].
  apply (renest_percentage_is_sentinel_or_one (H0 := accepting_backend) 2 "00" 0
           Demo.imported 0 1 (mkSubject "popwhite" (Some 0%nat))).
  vm_compute; reflexivity.
Defined.

(** The unit of block A aggregated from the county level, where no unit
    has a tree code that starts with its own. *)
Lemma subject_without_rows_is_rewritten_witness :
  aggregate_subject (H := accepting_backend) 0 "0001" 1 (Demo.imported, 0%nat)
    (0%nat, mkSubject "poptot" None)
  = OK (set_characteristics Demo.imported
          (saved_rows Demo.imported 0 0 (mkCharacteristic 0 0 0 zero_sentinel)),
        1%nat).
Proof.
  apply (subject_without_rows_is_rewritten (H0 := accepting_backend) 0 "0001" 1
           Demo.imported 0 0 (mkSubject "poptot" None)); vm_compute; reflexivity.
Defined.

Lemma unit_without_parent_set_untouched_witness :
  aggregate_unit (H := CellGeos.ops) (H0 := accepting_backend) Demo.imported
    (0%nat, mkGeounit "A" "b1" "0001" None (Demo.square 0 0) (Demo.square 0 0)
                      (Demo.square 0 0) 0)
    (mkGeolevel "block" (Demo.dec "0.1")) (mkLegislativeLevel 1 None)
  = OK (Demo.imported, (0, 0)%nat).
Proof.
  apply (unit_without_parent_set_untouched (H := CellGeos.ops) (H0 := accepting_backend)
           Demo.imported 0
           (mkGeounit "A" "b1" "0001" None (Demo.square 0 0) (Demo.square 0 0)
                      (Demo.square 0 0) 0)
           (mkGeolevel "block" (Demo.dec "0.1")) (mkLegislativeLevel 1 None)).
  vm_compute; reflexivity.
Defined.

Lemma renest_without_parent_level_witness :
  renest_geolevel (H := CellGeos.ops) (H0 := accepting_backend) Demo.imported "block"
  = OK (Demo.imported, (0, 0)%nat).
Proof.
  apply (renest_without_parent_level (H := CellGeos.ops) (H0 := accepting_backend)
           Demo.imported "block" (0%nat, mkGeolevel "block" (Demo.dec "0.1"))).
  - vm_compute; reflexivity.
  - intros l Hin Hl.
    change (l ∈ [mkLegislativeLevel 0 None; mkLegislativeLevel 1 (Some 0%nat)]) in Hin.
    apply elem_of_cons in Hin as [->|Hin]; [reflexivity|].
    apply elem_of_cons in Hin as [->|Hin]; [discriminate Hl|].
    by apply elem_of_nil in Hin.
Defined.

(** ** The Ingestor: tree codes *)

Lemma for_each_ext {A S} (f g : S -> A -> result S) (l : list A) (s : S) :
  (∀ s x, x ∈ l -> f s x = g s x) -> for_each f l s = for_each g l s.
Proof.
  revert s. induction l as [|x l IH]; intros s Heq; [done|].
  rewrite !for_each_cons, Heq by left.
  destruct (g s x) as [s'|e]; [|done]. simpl. apply IH.
  intros s0 y Hy. apply Heq. by right.
Qed.

Lemma get_shape_tree_steps shapefile feature :
  get_shape_tree shapefile feature
  = for_each (tree_step shapefile feature) (seq 0 (length (shp_fields shapefile)))
             EmptyString.
Proof.
  unfold get_shape_tree. apply for_each_ext. intros builtid idx _.
  unfold tree_step, tree_field.
  destruct (List.filter _ (fields_of_type shapefile "tree")) as [|idpart rest]; [done|].
  simpl. destruct (feat_get feature (field_name idpart)); [|done]. simpl.
  by destruct (field_width idpart).
Qed.

Lemma startswith_app a x : startswith (a +:+ x) a = true.
Proof.
  induction a as [|c a IH]; simpl; [by destruct x|].
  by rewrite bool_decide_eq_true_2, IH.
Qed.

Lemma startswith_refl a : startswith a a = true.
Proof. induction a as [|c a IH]; simpl; [done|]. by rewrite bool_decide_eq_true_2, IH. Qed.

Lemma startswith_trans a b c :
  startswith b a = true -> startswith c b = true -> startswith c a = true.
Proof.
  revert b c. induction a as [|x a IH]; intros b c Hba Hcb; [by destruct c|].
  destruct b as [|y b]; [done|]. destruct c as [|z c]; [done|]. simpl in *.
  apply andb_true_iff in Hba as [Hxy%bool_decide_eq_true Hba].
  apply andb_true_iff in Hcb as [Hyz%bool_decide_eq_true Hcb].
  subst. rewrite bool_decide_eq_true_2 by done. simpl. by eapply IH.
Qed.

Lemma tree_steps_prefix shapefile feature l acc r :
  for_each (tree_step shapefile feature) l acc = OK r -> startswith r acc = true.
Proof.
  revert acc. induction l as [|idx l IH]; intros acc Hrun.
  - injection Hrun as <-. apply startswith_refl.
  - rewrite for_each_cons in Hrun. apply bind_OK in Hrun as (acc1 & Hstep & Hrest).
    apply IH in Hrest. eapply startswith_trans; [|done].
    unfold tree_step in Hstep. destruct (tree_field shapefile idx).
    + inv_OK Hstep. injection Hstep as <-. apply startswith_app.
    + injection Hstep as <-. apply startswith_refl.
Qed.

Lemma tree_steps_none shapefile feature l acc :
  (∀ idx, idx ∈ l -> tree_field shapefile idx = None) ->
  for_each (tree_step shapefile feature) l acc = OK acc.
Proof.
  induction l as [|idx l IH]; intros Hnone; [done|].
  assert (tree_step shapefile feature acc idx = OK acc) as Hstep.
  { unfold tree_step. by rewrite Hnone by left. }
  rewrite for_each_cons, Hstep. simpl.
  apply IH. intros i Hi. apply Hnone. by right.
Qed.

(** X13: when the tree fields of a shapefile are, position by position,
    the first tree fields of another and two features agree on them,
    the tree code of the first feature is a prefix of the tree code of
    the second: the unit of the second is in the parent set of the unit
    of the first. *)
Theorem tree_code_prefix parent_shp child_shp parent_feat child_feat k a b :
  (k <= length (shp_fields child_shp))%nat ->
  (∀ idx, (idx < k)%nat ->
          tree_field child_shp idx = tree_field parent_shp idx ∧
          ∀ fld, tree_field parent_shp idx = Some fld ->
                 feat_get child_feat (field_name fld)
                 = feat_get parent_feat (field_name fld)) ->
  (∀ idx, (k <= idx)%nat -> tree_field parent_shp idx = None) ->
  get_shape_tree parent_shp parent_feat = OK a ->
  get_shape_tree child_shp child_feat = OK b ->
  startswith b a = true.
Proof.
  intros Hk Hagree Hnone Ha Hb. rewrite get_shape_tree_steps in Ha, Hb.
  set (m := (k `min` length (shp_fields parent_shp))%nat).
  assert (m <= k ∧ m <= length (shp_fields parent_shp) ∧
          (m = k ∨ m = length (shp_fields parent_shp)))%nat as (Hmk & Hmp & Hm)
    by (unfold m; lia).
  clearbody m.
  replace (length (shp_fields parent_shp))
    with (m + (length (shp_fields parent_shp) - m))%nat in Ha by lia.
  replace (length (shp_fields child_shp))
    with (m + (length (shp_fields child_shp) - m))%nat in Hb by lia.
  rewrite seq_app, for_each_app in Ha, Hb.
  apply bind_OK in Ha as (a1 & Ha1 & Ha). apply bind_OK in Hb as (b1 & Hb1 & Hb).
  rewrite tree_steps_none in Ha.
  2:{ intros idx Hidx%elem_of_seq. apply Hnone. lia. }
  injection Ha as <-.
  rewrite (for_each_ext _ (tree_step parent_shp parent_feat)) in Hb1.
  2:{ intros s idx [_ Hidx]%elem_of_seq. unfold tree_step.
      destruct (Hagree idx ltac:(lia)) as [-> Hvalues].
      destruct (tree_field parent_shp idx) as [fld|]; [|done].
      by rewrite (Hvalues fld). }
  assert (b1 = a1) as -> by congruence.
  by eapply tree_steps_prefix.
Qed.

Lemma tree_code_prefix_witness : startswith "0001" "00" = true.
Proof.
  apply (tree_code_prefix (mkShapefile Demo.county_fields [Demo.county_P])
           (mkShapefile Demo.shp_fields [Demo.block_A]) Demo.county_P Demo.block_A 1).
  - vm_compute. lia.
  - intros idx Hidx. destruct idx as [|idx]; [|lia]. split; [vm_compute; reflexivity|].
    intros fld [= <-]. vm_compute; reflexivity.
  - intros idx Hidx. destruct idx as [|idx]; [lia|]. vm_compute; reflexivity.
  - vm_compute; reflexivity.
  - vm_compute; reflexivity.
Defined.

(** ** The Ingestor: what an import adds *)

Lemma new_MultiPolygon_type g m : new_MultiPolygon g = OK m -> geom_type m = TMultiPolygon.
Proof.
  unfold new_MultiPolygon. destruct (geom_shape g); try done. by intros [= <-].
Qed.

Section ingest_adds.
Context `{GeosOps} `{Backend}.

Lemma normalized_inv tolerance my_geom g simple center :
  normalized tolerance my_geom = OK (g, simple, center) ->
  my_geom = Some g ∧ geom_type simple = TMultiPolygon.
Proof.
  unfold normalized. intros Hrun.
  apply bind_OK in Hrun as (g0 & Hg%of_option_OK & Hrun).
  apply bind_OK in Hrun as (tol & _ & Hrun).
  apply bind_OK in Hrun as (simple0 & _ & Hrun).
  apply bind_OK in Hrun as (simple1 & Hsimple & Hrun).
  apply bind_OK in Hrun as (center0 & _ & Hrun).
  apply bind_OK in Hrun as (inside & _ & Hrun).
  apply bind_OK in Hrun as (center1 & _ & Hrun).
  injection Hrun as <- <- <-. split; [done|].
  destruct (bool_decide (geom_type simple0 = TMultiPolygon)) eqn:Hty.
  - injection Hsimple as <-. by apply bool_decide_eq_true in Hty.
  - by eapply new_MultiPolygon_type.
Qed.

Lemma normalize_feature_multi tolerance my_geom feat my_geom' r :
  multi_or_unbound my_geom ->
  normalize_feature tolerance my_geom feat = (my_geom', r) ->
  multi_or_unbound my_geom' ∧
  ∀ g simple center, r = OK (g, simple, center) ->
                     geom_type g = TMultiPolygon ∧ geom_type simple = TMultiPolygon.
Proof.
  intros Hmulti Hrun.
  assert (multi_or_unbound my_geom' ∧
          (r = normalized tolerance my_geom' ∨ ∃ e, r = Raise e)) as [Hmulti' Hr].
  { unfold normalize_feature in Hrun.
    destruct (geos_buffer (feat_geom feat) 0) as [geos|e].
    - destruct (bool_decide (geom_type geos = TMultiPolygon)) eqn:Hty.
      + injection Hrun as <- <-. split; [|by left].
        intros g [= <-]. by apply bool_decide_eq_true in Hty.
      + destruct (bool_decide (geom_type geos = TPolygon)).
        * destruct (new_MultiPolygon geos) as [m|e] eqn:Hm.
          -- injection Hrun as <- <-. split; [|by left].
             intros g [= <-]. by eapply new_MultiPolygon_type.
          -- injection Hrun as <- <-. split; [done|]. right. by exists e.
        * injection Hrun as <- <-. split; [done | by left].
    - injection Hrun as <- <-. split; [done|]. right. by exists e. }
  split; [done|]. intros g simple center Hrun'.
  destruct Hr as [Hr|[e Hr]]; [|congruence].
  rewrite Hr in Hrun'. apply normalized_inv in Hrun' as [-> Hsimple].
  split; [|done]. by apply Hmulti'.
Qed.

Lemma assign_characteristics_keeps config so feat st g st' :
  assign_characteristics config so feat st g = OK st' ->
  (unique_characteristics st -> unique_characteristics st') ∧
  (is_Some (cfg_attributes config) -> st' = st).
Proof.
  unfold assign_characteristics. destruct (cfg_attributes config) as [layers|].
  - intros [= <-]. done.
  - intros Hrun. split; [|by intros [? ?]]. intros Hunique.
    unfold set_geounit_characteristic in Hrun.
    eapply (for_each_invariant unique_characteristics (fun _ => True)); [| |done|done].
    + intros s x s' _ Hs [->|(row & Hg & ->)]%set_one_characteristic_step; [done|].
      by apply saved_rows_unique.
    + by apply Forall_forall.
Qed.

(** What the import of one feature leaves: the settings, the units with
    at most one more at the end, and the Characteristics of the Assigner
    alone. *)
Lemma import_feature_adds config shapefile level so st v feat st' v' :
  import_feature config shapefile level so (st, v) feat = OK (st', v') ->
  multi_or_unbound v ->
  multi_or_unbound v' ∧
  (geounits st' = geounits st ∨
   ∃ u, geounits st' = geounits st ++ [u] ∧ geolevel u = level ∧ child u = None ∧
        multi_geometries u) ∧
  (unique_characteristics st -> unique_characteristics st') ∧
  (is_Some (cfg_attributes config) -> characteristics st' = characteristics st).
Proof.
  intros (nm & portable & tree & _ & Hcases)%import_feature_inv Hv.
  destruct Hcases as [(g & u & rest & _ & -> & Hassign)
                     |[(_ & -> & -> & _)|(_ & geoms & Hnorm & Hassign)]].
  - destruct (assign_characteristics_static _ _ _ _ _ _ Hassign) as [Hunits _].
    destruct (assign_characteristics_keeps _ _ _ _ _ _ Hassign) as [Hunique Hsame].
    split_and!; [done | by left | done |]. intros Hattr. by rewrite Hsame.
  - destruct (normalize_feature (cfg_tolerance config) v feat) as [v1 r] eqn:Hnorm.
    destruct (normalize_feature_multi _ _ _ _ _ Hv Hnorm) as [Hv1 _].
    split_and!; [done | by left | done | done].
  - destruct (normalize_feature_multi _ _ _ _ _ Hv Hnorm) as [Hv' Hgeoms].
    destruct geoms as [[g simple] center].
    destruct (Hgeoms g simple center eq_refl) as [Hg Hsimple].
    destruct (assign_characteristics_static _ _ _ _ _ _ Hassign) as [Hunits _].
    destruct (assign_characteristics_keeps _ _ _ _ _ _ Hassign) as [Hunique Hsame].
    split_and!; [done | | |].
    + right. eexists. split; [by rewrite Hunits|]. done.
    + intros Hst. apply Hunique. by apply (unique_characteristics_ext st).
    + intros Hattr. by rewrite (Hsame Hattr).
Qed.

Lemma import_features_add config shapefile level so feats st v st' v' :
  for_each (import_feature config shapefile level so) feats (st, v) = OK (st', v') ->
  multi_or_unbound v ->
  multi_or_unbound v' ∧
  (∃ l, geounits st' = geounits st ++ l ∧
        Forall (fun u => geolevel u = level ∧ child u = None ∧ multi_geometries u) l) ∧
  (unique_characteristics st -> unique_characteristics st') ∧
  (is_Some (cfg_attributes config) -> characteristics st' = characteristics st).
Proof.
  revert st v. induction feats as [|feat feats IH]; intros st v Hrun Hv.
  - injection Hrun as <- <-. split_and!; try done. exists []. by rewrite app_nil_r.
  - rewrite for_each_cons in Hrun. apply bind_OK in Hrun as ([st1 v1] & Hone & Hrest).
    apply import_feature_adds in Hone as (Hv1 & Hunits1 & Hunique1 & Hchars1); [|done].
    destruct (IH _ _ Hrest Hv1) as (Hv' & (l & Hunits & Hl) & Hunique & Hchars).
    split_and!; [done | | by intros ?%Hunique1%Hunique |].
    + destruct Hunits1 as [Heq|(u & Heq & Hu)]; rewrite Heq in Hunits.
      * by exists l.
      * exists (u :: l). split; [by rewrite <- app_assoc in Hunits|]. by constructor.
    + intros Hattr. by rewrite Hchars, Hchars1.
Qed.

Lemma import_shapefiles_add config shapefiles st0 st v st' v' :
  for_each (import_shapefile config) shapefiles (st, v) = OK (st', v') ->
  same_settings st0 st ->
  multi_or_unbound v ->
  multi_or_unbound v' ∧
  (∃ l, geounits st' = geounits st ++ l ∧ Forall (imported_unit st0 config) l) ∧
  (unique_characteristics st -> unique_characteristics st') ∧
  (is_Some (cfg_attributes config) -> characteristics st' = characteristics st).
Proof.
  revert st v. induction shapefiles as [|shapefile shapefiles IH]; intros st v Hrun Hset Hv.
  - injection Hrun as <- <-. split_and!; try done. exists []. by rewrite app_nil_r.
  - rewrite for_each_cons in Hrun. apply bind_OK in Hrun as ([st1 v1] & Hone & Hrest).
    apply import_shapefile_inv in Hone as (level & so & Hlevel & _ & Hloop).
    destruct (import_features_grow _ _ _ _ _ _ _ _ _ Hloop) as (Hset1 & _).
    apply import_features_add in Hloop as (Hv1 & (l1 & Hunits1 & Hl1) & Hunique1 & Hchars1);
      [|done].
    assert (same_settings st0 st1) as Hset01.
    { destruct Hset as (? & ? & ?), Hset1 as (? & ? & ?). repeat split; congruence. }
    destruct (IH _ _ Hrest Hset01 Hv1) as (Hv' & (l & Hunits & Hl) & Hunique & Hchars).
    split_and!; [done | | by intros ?%Hunique1%Hunique |].
    + exists (l1 ++ l). split; [by rewrite Hunits, Hunits1, app_assoc|].
      apply Forall_app. split; [|done].
      eapply Forall_impl; [done|]. intros u (Hlvl & Hchild & Hmulti).
      split_and!; [done..|]. exists level. split; [|done].
      by rewrite <- (get_geolevel_settings st0 st).
    + intros Hattr. by rewrite Hchars, Hchars1.
Qed.

Lemma import_attributes_empty st layers st' :
  import_attributes st layers = OK st' -> Forall (fun lyr => lyr = []) layers.
Proof.
  unfold import_attributes. revert st.
  induction layers as [|lyr layers IH]; intros st Hrun; [done|].
  rewrite for_each_cons in Hrun. apply bind_OK in Hrun as (st2 & Hlyr & Hrest).
  destruct lyr as [|feat lyr]; [|done]. constructor; [done|]. by eapply IH.
Qed.

Lemma import_shape_inv config st st' :
  import_shape config st = OK st' ->
  ∃ v', for_each (import_shapefile config) (cfg_shapefiles config) (st, None)
        = OK (st', v') ∧
        ∀ layers, cfg_attributes config = Some layers -> Forall (fun lyr => lyr = []) layers.
Proof.
  unfold import_shape. intros Hrun. apply bind_OK in Hrun as ([st1 v1] & Hloop & Hrun).
  simpl in Hrun. destruct (cfg_attributes config) as [layers|].
  - pose proof (import_attributes_empty _ _ _ Hrun) as Hempty.
    apply import_attributes_inv in Hrun as [-> _]. exists v1. split; [done|].
    by intros ? [= <-].
  - injection Hrun as <-. exists v1. split; [done|]. done.
Qed.

Lemma import_attributes_raises st layers :
  Exists (fun lyr => lyr ≠ []) layers -> import_attributes st layers = Raise NameError.
Proof.
  unfold import_attributes. induction 1 as [lyr layers Hlyr|lyr layers _ IH].
  - rewrite for_each_cons. by destruct lyr.
  - rewrite for_each_cons. destruct lyr; [|done]. simpl. apply IH.
Qed.

(** X14: an import that returns has only added units, at the end of
    the table: the units it found are as they were, and every unit it
    added is at the geolevel the configuration names, has no child, and
    has MultiPolygons for its geometry and its simplified geometry; the
    geolevels, legislative levels and subjects are untouched. *)
Theorem import_shape_appends config st st' :
  import_shape config st = OK st' ->
  same_settings st st' ∧
  ∃ l, geounits st' = geounits st ++ l ∧ Forall (imported_unit st config) l.
Proof.
  intros (v' & Hloop & _)%import_shape_inv.
  destruct (import_shapefiles_grow _ _ _ _ _ _ Hloop) as (Hset & _).
  split; [done|].
  by apply (import_shapefiles_add _ _ st) in Hloop as (_ & Hunits & _).
Qed.

(** X15: an import keeps the table at one Characteristic for each unit
    and subject. *)
Theorem import_shape_keeps_unique config st st' :
  import_shape config st = OK st' ->
  unique_characteristics st -> unique_characteristics st'.
Proof.
  intros (v' & Hloop & _)%import_shape_inv.
  by apply (import_shapefiles_add _ _ st) in Hloop as (_ & _ & Hunique & _).
Qed.

(** X16: with attribute files configured, an import never writes a
    Characteristic, and it returns only when every attribute layer is
    empty: once the shapefiles are read, the first feature of an
    attribute layer raises [NameError]. *)
Theorem import_with_attribute_files config st layers :
  cfg_attributes config = Some layers ->
  (∀ st', import_shape config st = OK st' ->
          characteristics st' = characteristics st ∧ Forall (fun lyr => lyr = []) layers) ∧
  (∀ state, for_each (import_shapefile config) (cfg_shapefiles config) (st, None)
            = OK state ->
            Exists (fun lyr => lyr ≠ []) layers ->
            import_shape config st = Raise NameError).
Proof.
  intros Hattr. split.
  - intros st' (v' & Hloop & Hlayers)%import_shape_inv. split; [|by apply Hlayers].
    apply (import_shapefiles_add _ _ st) in Hloop as (_ & _ & _ & Hchars); [|done..].
    apply Hchars. by rewrite Hattr.
  - intros state Hloop Hlayers. unfold import_shape. rewrite Hloop, Hattr. simpl.
    by apply import_attributes_raises.
Qed.

(** X17: a feature with a new identity key whose buffered geometry is
    neither a Polygon nor a MultiPolygon is skipped while no earlier
    feature has left a geometry, and is otherwise stored with the
    geometry the last polygonal feature left in [my_geom]. *)
Theorem non_polygonal_feature_takes_previous_geometry
    config shapefile level so st feat key geos :
  feature_key shapefile feat = OK key ->
  prefetch_units st (unit_key level key) = [] ->
  geos_buffer (feat_geom feat) 0 = OK geos ->
  geom_type geos ≠ TMultiPolygon ->
  geom_type geos ≠ TPolygon ->
  import_feature config shapefile level so (st, None) feat = OK (st, None) ∧
  ∀ g geoms,
    normalized (cfg_tolerance config) (Some g) = OK geoms ->
    geounit_accepts (new_geounit key level geoms) = true ->
    geom (new_geounit key level geoms) = g ∧
    import_feature config shapefile level so (st, Some g) feat
    = (st1 ← assign_characteristics config so feat
               (set_geounits st (geounits st ++ [new_geounit key level geoms]))
               (length (geounits st));
       OK (st1, Some g)).
Proof.
  intros Hkey Hprobe Hbuffer Hmulti Hpoly.
  assert (∀ v, normalize_feature (cfg_tolerance config) v feat
               = (v, normalized (cfg_tolerance config) v)) as Hnorm.
  { intros v. unfold normalize_feature. rewrite Hbuffer.
    by rewrite !bool_decide_eq_false_2. }
  destruct key as [[nm portable] tree]. simpl in Hprobe. split.
  - unfold import_feature. rewrite Hkey. simpl. rewrite Hprobe, Hnorm. done.
  - intros g [[g0 simple] center] Hgeoms Hacc. split.
    + apply normalized_inv in Hgeoms as [[= ->] _]. done.
    + unfold import_feature. rewrite Hkey. simpl in Hacc |- *.
      rewrite Hprobe, Hnorm, Hgeoms. by rewrite Hacc.
Qed.

End ingest_adds.

Lemma import_shape_appends_witness :
  same_settings Demo.empty_store Demo.blocks_imported ∧
  ∃ l, geounits Demo.blocks_imported = geounits Demo.empty_store ++ l ∧
       Forall (imported_unit Demo.empty_store
                 (Demo.blocks_config [Demo.block_A; Demo.block_B])) l.
Proof.
  apply (import_shape_appends (H := CellGeos.ops) (H0 := accepting_backend)
           (Demo.blocks_config [Demo.block_A; Demo.block_B])
           Demo.empty_store Demo.blocks_imported).
  vm_compute; reflexivity.
Defined.

Lemma import_shape_keeps_unique_witness : unique_characteristics Demo.blocks_imported.
Proof.
  apply (import_shape_keeps_unique (H := CellGeos.ops) (H0 := accepting_backend)
           (Demo.blocks_config [Demo.block_A; Demo.block_B])
           Demo.empty_store Demo.blocks_imported).
  - vm_compute; reflexivity.
  - intros g subject. vm_compute. lia.
Defined.

(** The counties with an attribute file of one feature. *)
Lemma import_with_attribute_files_witness :
  import_shape (H := CellGeos.ops) (H0 := accepting_backend)
    (mkConfig [mkShapefile Demo.county_fields [Demo.county_P]] (Some [[Demo.block_A]])
              "county" [] (Some "10"%string))
    Demo.blocks_imported
  = Raise NameError.
Proof.
  eapply (proj2 (import_with_attribute_files (H := CellGeos.ops) (H0 := accepting_backend)
                   (mkConfig [mkShapefile Demo.county_fields [Demo.county_P]]
                             (Some [[Demo.block_A]]) "county" [] (Some "10"%string))
                   Demo.blocks_imported [[Demo.block_A]] eq_refl)).
  - vm_compute; reflexivity.
  - left. discriminate.
Defined.

(** A feature whose geometry is a line, met first and met after the
    square of block A. *)
Lemma non_polygonal_feature_takes_previous_geometry_witness :
  import_feature (H := CellGeos.ops) (H0 := accepting_backend)
    (Demo.blocks_config []) (mkShapefile Demo.shp_fields []) 0 Demo.subject_objects
    (Demo.empty_store, None)
    (Demo.block "L" "3" "1" "1" (mkGeom (LineString [(0, 0); (1, 1)]%Q) (Some 3785)))
  = OK (Demo.empty_store, None) ∧
  ∀ g geoms,
    normalized (H := CellGeos.ops) (cfg_tolerance (Demo.blocks_config [])) (Some g)
    = OK geoms ->
    geounit_accepts (Backend := accepting_backend)
      (new_geounit ("L", "b3", "0003")%string 0 geoms) = true ->
    geom (new_geounit ("L", "b3", "0003")%string 0 geoms) = g ∧
    import_feature (H := CellGeos.ops) (H0 := accepting_backend)
      (Demo.blocks_config []) (mkShapefile Demo.shp_fields []) 0 Demo.subject_objects
      (Demo.empty_store, Some g)
      (Demo.block "L" "3" "1" "1" (mkGeom (LineString [(0, 0); (1, 1)]%Q) (Some 3785)))
    = (st1 ← assign_characteristics (H := accepting_backend) (Demo.blocks_config [])
               Demo.subject_objects
               (Demo.block "L" "3" "1" "1"
                  (mkGeom (LineString [(0, 0); (1, 1)]%Q) (Some 3785)))
               (set_geounits Demo.empty_store
                  (geounits Demo.empty_store
                   ++ [new_geounit ("L", "b3", "0003")%string 0 geoms]))
               (length (geounits Demo.empty_store));
       OK (st1, Some g)).
Proof.
  apply (non_polygonal_feature_takes_previous_geometry
           (H := CellGeos.ops) (H0 := accepting_backend)
           (Demo.blocks_config []) (mkShapefile Demo.shp_fields []) 0 Demo.subject_objects
           Demo.empty_store
           (Demo.block "L" "3" "1" "1" (mkGeom (LineString [(0, 0); (1, 1)]%Q) (Some 3785)))
           ("L", "b3", "0003")%string
           (mkGeom (LineString [(0, 0); (1, 1)]%Q) (Some 3785)));
    try (vm_compute; reflexivity); discriminate.
Defined.

(** ** Geometry coercion *)

(** X18: [enforce_multi] never raises on a geometry, its result is a
    MultiPolygon or a geometry of length 0, and it is idempotent: the
    coercion of a coerced geometry is that geometry. *)
Theorem enforce_multi_idempotent g :
  ∃ g', enforce_multi (Some g) = OK (Some g') ∧
        enforce_multi (Some g') = OK (Some g') ∧
        (geom_type g' = TMultiPolygon ∨ geom_bool g' = false).
Proof.
  unfold enforce_multi. destruct (geom_bool g) eqn:Hbool.
  - destruct (bool_decide (geom_type g = TMultiPolygon)) eqn:Hmulti.
    + exists g. rewrite Hbool, Hmulti. split_and!; [done..|].
      left. by apply bool_decide_eq_true in Hmulti.
    + destruct (bool_decide (geom_type g = TPolygon)) eqn:Hpoly.
      * apply bool_decide_eq_true in Hpoly. unfold geom_type, new_MultiPolygon in *.
        destruct (geom_shape g) as [| | |rings| | | |]; try done.
        exists (mkGeom (MultiPolygon [rings]) None). split_and!; [done..|by left].
      * exists (empty_geom (srid g)). split_and!; [done..|by right].
  - exists g. rewrite Hbool. split_and!; [done..|by right].
Qed.

(** ** Contiguity overrides *)

Lemma filter_eq_NoDup (row : ContiguityOverride) (table : list ContiguityOverride) :
  NoDup table ->
  List.filter (fun r => bool_decide (r = row)) table
  = if decide (row ∈ table) then [row] else [].
Proof.
  induction 1 as [|r table Hr Hnodup IH]; cbn [List.filter].
  - destruct (decide (row ∈ [])) as [Hin|_]; [by apply elem_of_nil in Hin | done].
  - rewrite IH. destruct (decide (r = row)) as [->|Hne].
    + rewrite bool_decide_eq_true_2 by done.
      destruct (decide (row ∈ table)) as [Hin|_]; [done|].
      destruct (decide (row ∈ row :: table)) as [_|Hout]; [done|].
      exfalso. apply Hout. left.
    + rewrite bool_decide_eq_false_2 by done.
      destruct (decide (row ∈ table)) as [Hin|Hout].
      * destruct (decide (row ∈ r :: table)) as [_|Hout]; [done|].
        exfalso. apply Hout. by right.
      * destruct (decide (row ∈ r :: table)) as [Hin|_]; [|done].
        apply elem_of_cons in Hin as [?|?]; congruence.
Qed.

Lemma get_or_create_override_NoDup table row :
  NoDup table ->
  ∃ table' created,
    get_or_create_override table row = inr (table', created) ∧
    NoDup table' ∧ ∀ r, r ∈ table' <-> r ∈ table ∨ r = row.
Proof.
  intros Hnodup. unfold get_or_create_override. rewrite filter_eq_NoDup by done.
  destruct (decide (row ∈ table)) as [Hin|Hout].
  - exists table, false. split_and!; [done..|].
    intros r. split; [by left|]. intros [?| ->]; done.
  - exists (table ++ [row]), true. split_and!; [done| |].
    + apply NoDup_app. split_and!; [done| |apply NoDup_singleton].
      intros r Hr ->%list_elem_of_singleton. done.
    + intros r. rewrite elem_of_app, list_elem_of_singleton. done.
Qed.

Lemma import_contiguity_override_spec st table co :
  NoDup table ->
  match import_contiguity_override st table co with
  | inr table' =>
      NoDup table' ∧
      ∃ row, override_of st co = Some row ∧ ∀ r, r ∈ table' <-> r ∈ table ∨ r = row
  | inl e =>
      override_of st co = None ∧
      ∃ pid, e = NoGeounitWithPortableId pid ∧ first_with_portable_id st pid = None ∧
             (pid = fst co ∨ pid = snd co)
  end.
Proof.
  intros Hnodup. unfold import_contiguity_override, override_of.
  destruct (first_with_portable_id st (fst co)) as [o|] eqn:Ho; simpl.
  - destruct (first_with_portable_id st (snd co)) as [c|] eqn:Hc; simpl.
    + destruct (get_or_create_override_NoDup table (mkContiguityOverride o c) Hnodup)
        as (table' & created & -> & Hnodup' & Hin).
      split; [done|]. by exists (mkContiguityOverride o c).
    + split; [done|]. exists (snd co). split_and!; [done..|by right].
  - split; [done|]. exists (fst co). split_and!; [done..|by left].
Qed.

Lemma import_contiguity_loop_spec st config table :
  NoDup table ->
  match import_contiguity_loop st config table with
  | inr table' =>
      NoDup table' ∧
      (∀ co, co ∈ config -> is_Some (override_of st co)) ∧
      ∀ r, r ∈ table' <-> r ∈ table ∨ ∃ co, co ∈ config ∧ override_of st co = Some r
  | inl e =>
      ∃ pid co, e = NoGeounitWithPortableId pid ∧ first_with_portable_id st pid = None ∧
                co ∈ config ∧ (pid = fst co ∨ pid = snd co)
  end.
Proof.
  revert table. induction config as [|co config IH]; intros table Hnodup; simpl.
  - split_and!; [done| |].
    + by intros co ?%elem_of_nil.
    + intros r. split; [by left|]. intros [?|(co & ?%elem_of_nil & _)]; done.
  - pose proof (import_contiguity_override_spec st table co Hnodup) as Hone.
    destruct (import_contiguity_override st table co) as [e|table1].
    + destruct Hone as (_ & pid & -> & Hpid & Hco).
      exists pid, co. split_and!; [done..|left|done].
    + destruct Hone as (Hnodup1 & row & Hrow & Hin1).
      specialize (IH table1 Hnodup1).
      destruct (import_contiguity_loop st config table1) as [e|table'].
      * destruct IH as (pid & co' & -> & Hpid & Hco' & Hcases).
        exists pid, co'. split_and!; [done..|by right|done].
      * destruct IH as (Hnodup' & Hall & Hin). split_and!; [done| |].
        -- intros co' [->|Hco']%elem_of_cons; [by rewrite Hrow | by apply Hall].
        -- intros r. rewrite Hin, Hin1. split.
           ++ intros [[?| ->]|(co' & Hco' & Hr)]; [by left| |].
              ** right. exists co. split; [left | done].
              ** right. exists co'. split; [by right | done].
           ++ intros [?|(co' & [->|Hco']%elem_of_cons & Hr)]; [by left; left| |].
              ** left. right. congruence.
              ** right. by exists co'.
Qed.

(** X19: [import_contiguity_overrides] leaves, whatever the table held
    before, exactly the pairs of units the configured elements name,
    each once; it fails only with the exception that names a portable
    id of the configuration no unit carries, and [get_or_create] never
    finds several rows. *)
Theorem import_contiguity_overrides_spec st previous config :
  match import_contiguity_overrides st previous config with
  | inr table =>
      NoDup table ∧
      (∀ co, co ∈ config -> is_Some (override_of st co)) ∧
      ∀ r, r ∈ table <-> ∃ co, co ∈ config ∧ override_of st co = Some r
  | inl e =>
      ∃ pid co, e = NoGeounitWithPortableId pid ∧ first_with_portable_id st pid = None ∧
                co ∈ config ∧ (pid = fst co ∨ pid = snd co)
  end.
Proof.
  unfold import_contiguity_overrides, delete_all.
  pose proof (import_contiguity_loop_spec st config [] (NoDup_nil_2)) as Hloop.
  destruct (import_contiguity_loop st config []) as [e|table]; [done|].
  destruct Hloop as (Hnodup & Hall & Hin). split_and!; [done..|].
  intros r. rewrite Hin. split; [|by right].
  by intros [?%elem_of_nil|?].
Qed.

Lemma first_with_portable_id_Some st pid p :
  first_with_portable_id st pid = Some p ->
  ∃ u, geounits st !! p = Some u ∧ portable_id u = pid.
Proof.
  unfold first_with_portable_id. intros Hhead.
  destruct (head (select _ (geounits st))) as [[p' u]|] eqn:Hsel; [|done].
  injection Hhead as ->. exists u. apply head_Some_cons in Hsel.
  assert ((p, u) ∈ select (fun u => bool_decide (portable_id u = pid)) (geounits st))
    as [Hu Hpid%bool_decide_eq_true]%elem_of_select by (rewrite Hsel; left).
  done.
Qed.

(** X20: every row [import_contiguity_overrides] leaves points at two
    units of the store: the first carries the portable id an element of
    the configuration gives as [id], the second the one that element
    gives as [connect_to]. *)
Theorem contiguity_overrides_point_at_units st previous config table r :
  import_contiguity_overrides st previous config = inr table ->
  r ∈ table ->
  ∃ co u v,
    co ∈ config ∧
    geounits st !! override_geounit r = Some u ∧ portable_id u = fst co ∧
    geounits st !! connect_to_geounit r = Some v ∧ portable_id v = snd co.
Proof.
  unfold import_contiguity_overrides, delete_all. intros Hrun Hr.
  pose proof (import_contiguity_loop_spec st config [] (NoDup_nil_2)) as Hloop.
  rewrite Hrun in Hloop. destruct Hloop as (_ & _ & Hin).
  apply Hin in Hr as [Hr%elem_of_nil|(co & Hco & Hrow)]; [done|].
  unfold override_of in Hrow.
  destruct (first_with_portable_id st (fst co)) as [o|] eqn:Ho; [|done].
  destruct (first_with_portable_id st (snd co)) as [c|] eqn:Hc; [|done].
  injection Hrow as <-. simpl.
  apply first_with_portable_id_Some in Ho as (u & Hu & Hpu).
  apply first_with_portable_id_Some in Hc as (v & Hv & Hpv).
  by exists co, u, v.
Qed.

(** Two blocks declared contiguous in both directions, the first pair
    twice, over a table that held another row. *)
Lemma contiguity_overrides_point_at_units_witness :
  ∃ co u v,
    co ∈ [("b1", "b2"); ("b2", "b1"); ("b1", "b2")]%string ∧
    geounits Demo.imported !! override_geounit (mkContiguityOverride 0 1) = Some u ∧
    portable_id u = fst co ∧
    geounits Demo.imported !! connect_to_geounit (mkContiguityOverride 0 1) = Some v ∧
    portable_id v = snd co.
Proof.
  apply (contiguity_overrides_point_at_units Demo.imported [mkContiguityOverride 2 2]
           [("b1", "b2"); ("b2", "b1"); ("b1", "b2")]%string
           [mkContiguityOverride 0 1; mkContiguityOverride 1 0]
           (mkContiguityOverride 0 1)).
  - vm_compute; reflexivity.
  - left.
Defined.

(** ** Renesting again *)

Section renest_again.
Context `{GeosOps} `{Backend}.

Lemma last_parent_settings st st' level :
  legislative_levels st' = legislative_levels st ->
  last_parent st' level = last_parent st level.
Proof. unfold last_parent. by intros ->. Qed.

(** What a pass over a geolevel whose parent sets are at another
    geolevel leaves. *)
Lemma renest_geolevel_sums st glconf st' cnt level parent :
  renest_geolevel st glconf = OK (st', cnt) ->
  get_geolevel st glconf = OK level ->
  last_parent st (fst level) = OK (Some parent) ->
  ll_geolevel parent ≠ fst level ->
  same_keys st st' ∧ same_identity st st' ∧
  (∀ units s,
      (∀ p u, geounits st !! p = Some u -> geolevel u = fst level -> p ∉ units) ->
      characteristics_in st' units s = characteristics_in st units s) ∧
  (∀ p u, geounits st !! p = Some u -> geolevel u = fst level ->
          parent_set st (tree_code u) (ll_geolevel parent) ≠ [] ->
          ∀ s, (s < length (subjects st))%nat ->
               ∃ c, stored_characteristic st' p s = Some c ∧
                    number c = sum_numbers
                                 (characteristics_in st'
                                    (parent_set st (tree_code u) (ll_geolevel parent)) s)).
Proof.
  intros Hrun Hlevel Hparent Hlevels.
  apply renest_geolevel_inv in Hrun as (level' & parent' & Hlevel' & Hparent' & Hrun).
  assert (level' = level) as -> by congruence.
  assert (parent' = Some parent) as -> by congruence.
  set (items := select (fun u => Nat.eqb (geolevel u) (fst level)) (geounits st)) in Hrun.
  destruct cnt as [geomods nummods].
  assert (∀ p u, (p, u) ∈ items -> geounits st !! p = Some u ∧ geolevel u = fst level)
    as Hitems.
  { intros q v [Hv HvL%Nat.eqb_eq]%elem_of_select. done. }
  pose proof Hrun as Hkeep.
  apply (renest_units_keep _ _ _ st) in Hkeep as (Hid & _);
    [| intros p u Hin; by apply Hitems | apply same_identity_refl].
  apply (renest_units_inv st (fst level)) in Hrun
    as (Hkeys & Hsubj & Hothers & _ & Hsums); try done; [|apply NoDup_fst_select].
  split_and!; [done..| |].
  - intros units s Hunits. apply Hothers.
    intros p [[p' u] [-> Hin]]%list_elem_of_fmap. simpl.
    destruct (Hitems _ _ Hin). by eapply Hunits.
  - intros p u Hu HuL Hne s Hs. apply (Hsums p u); [|done..].
    apply elem_of_select. split; [done|]. by apply Nat.eqb_eq.
Qed.

(** X21: a second renesting pass over a geolevel whose parent sets are
    at another geolevel leaves, for every unit with a non-empty parent
    set and every subject, the number the first pass stored. *)
Theorem renest_twice_same_numbers st glconf st1 cnt1 st2 cnt2 level parent p u s :
  renest_geolevel st glconf = OK (st1, cnt1) ->
  renest_geolevel st1 glconf = OK (st2, cnt2) ->
  get_geolevel st glconf = OK level ->
  last_parent st (fst level) = OK (Some parent) ->
  ll_geolevel parent ≠ fst level ->
  geounits st !! p = Some u ->
  geolevel u = fst level ->
  parent_set st (tree_code u) (ll_geolevel parent) ≠ [] ->
  (s < length (subjects st))%nat ->
  ∃ c1 c2, stored_characteristic st1 p s = Some c1 ∧
           stored_characteristic st2 p s = Some c2 ∧
           number c2 = number c1.
Proof.
  intros Hrun1 Hrun2 Hlevel Hparent Hlevels Hu HuL Hne Hs.
  destruct (renest_geolevel_sums _ _ _ _ _ _ Hrun1 Hlevel Hparent Hlevels)
    as (Hkeys1 & (_ & Hgl & Hll & Hsubj) & _ & Hsums1).
  assert (get_geolevel st1 glconf = OK level) as Hlevel1.
  { unfold get_geolevel in *. by rewrite Hgl. }
  assert (last_parent st1 (fst level) = OK (Some parent)) as Hparent1.
  { by rewrite (last_parent_settings st). }
  destruct (renest_geolevel_sums _ _ _ _ _ _ Hrun2 Hlevel1 Hparent1 Hlevels)
    as (_ & _ & Hothers2 & Hsums2).
  assert (∃ u1, geounits st1 !! p = Some u1 ∧ hierarchy_key u1 = hierarchy_key u)
    as (u1 & Hu1 & Hkey).
  { assert (hierarchy_key <$> geounits st1 !! p = Some (hierarchy_key u)) as Hk
      by (by rewrite <- list_lookup_fmap, Hkeys1, list_lookup_fmap, Hu).
    destruct (geounits st1 !! p) as [u1|]; [|done]. exists u1. split; [done|].
    simpl in Hk. congruence. }
  injection Hkey as Hcode Hlvl.
  pose proof (parent_set_same_keys st st1 (tree_code u) (ll_geolevel parent) Hkeys1) as Hset.
  destruct (Hsums1 p u Hu HuL Hne s Hs) as (c1 & Hc1 & Hnum1).
  assert (geolevel u1 = fst level) as Hu1L by congruence.
  assert (parent_set st1 (tree_code u1) (ll_geolevel parent) ≠ []) as Hne1
    by (by rewrite Hcode, Hset).
  assert (s < length (subjects st1))%nat as Hs1 by (by rewrite Hsubj).
  destruct (Hsums2 p u1 Hu1 Hu1L Hne1 s Hs1) as (c2 & Hc2 & Hnum2).
  exists c1, c2. split_and!; [done..|].
  rewrite Hnum2, Hnum1, Hcode, Hset. f_equal.
  apply Hothers2. intros q v Hv HvL Hin.
  rewrite <- Hset in Hin.
  apply elem_of_parent_set in Hin as (v' & Hv' & Hlvl'). congruence.
Qed.

End renest_again.

Lemma renest_twice_same_numbers_witness :
  ∃ st2 cnt2,
    renest_geolevel (H := CellGeos.ops) (H0 := accepting_backend) Demo.renested "county"
    = OK (st2, cnt2) ∧
    ∃ c1 c2, stored_characteristic Demo.renested 2 0 = Some c1 ∧
             stored_characteristic st2 2 0 = Some c2 ∧
             number c2 = number c1.
Proof.
  eexists _, _. split; [vm_compute; reflexivity|].
  apply (renest_twice_same_numbers (H := CellGeos.ops) (H0 := accepting_backend)
           Demo.imported "county" Demo.renested (0, 2)%nat _ (0, 0)%nat
           (1%nat, mkGeolevel "county" (Demo.dec "10")) (mkLegislativeLevel 0 None)
           2 Demo.county 0);
    try (vm_compute; reflexivity); try (vm_compute; lia); vm_compute; discriminate.
Defined.

(** ** The Ingestor: the width of tree codes *)

Lemma length_string_app a b :
  String.length (a +:+ b) = (String.length a + String.length b)%nat.
Proof. induction a as [|c a IH]; simpl; [done|]. by rewrite IH. Qed.

Lemma length_string_repeat c n : String.length (string_repeat c n) = n.
Proof. unfold string_repeat. induction n as [|n IH]; simpl; [done|]. by rewrite IH. Qed.

(** [zfill] pads to the width and never shortens. *)
Lemma length_zfill s width :
  String.length (zfill s width) = (String.length s `max` Z.to_nat width)%nat.
Proof.
  unfold zfill. destruct (Z.leb_spec width (Z.of_nat (String.length s))) as [Hle|Hlt].
  - lia.
  - destruct s as [|c r].
    + rewrite length_string_repeat. simpl in *. lia.
    + destruct (bool_decide (c = "+"%char) || bool_decide (c = "-"%char)); simpl in *;
        rewrite length_string_app, length_string_repeat; simpl; lia.
Qed.

Lemma tree_steps_length shapefile feature l acc code :
  fragments_fit shapefile feature ->
  for_each (tree_step shapefile feature) l acc = OK code ->
  String.length code = (String.length acc + sum_list (tree_width shapefile <$> l))%nat.
Proof.
  intros Hfit. revert acc. induction l as [|idx l IH]; intros acc Hrun.
  - injection Hrun as <-. simpl. lia.
  - rewrite for_each_cons in Hrun. apply bind_OK in Hrun as (acc1 & Hstep & Hrest).
    rewrite (IH _ Hrest).
    change (sum_list (tree_width shapefile <$> idx :: l))
      with (tree_width shapefile idx + sum_list (tree_width shapefile <$> l))%nat.
    generalize (sum_list (tree_width shapefile <$> l)). intros rest. clear IH Hrest.
    unfold tree_step, tree_width in *.
    destruct (tree_field shapefile idx) as [idpart|] eqn:Hfield.
    + apply bind_OK in Hstep as (raw & Hraw & Hstep).
      apply bind_OK in Hstep as (width & Hwidth%of_option_OK & Hstep).
      injection Hstep as <-. rewrite Hwidth. simpl.
      rewrite length_string_app, length_zfill.
      pose proof (Hfit idx idpart raw width Hfield Hraw Hwidth). lia.
    + injection Hstep as <-. lia.
Qed.

(** X22: when every fragment of a feature, stripped of its blanks, is
    no longer than the width of its tree field, the tree code has the
    fixed length of the shapefile: the sum of the widths of the tree
    fields met at the positions below the number of fields. *)
Theorem tree_code_length shapefile feature code :
  fragments_fit shapefile feature ->
  get_shape_tree shapefile feature = OK code ->
  String.length code
  = sum_list (tree_width shapefile <$> seq 0 (length (shp_fields shapefile))).
Proof.
  intros Hfit Hrun. rewrite get_shape_tree_steps in Hrun.
  by rewrite (tree_steps_length _ _ _ _ _ Hfit Hrun).
Qed.

Lemma tree_code_length_witness :
  String.length "0001"
  = sum_list (tree_width (mkShapefile Demo.shp_fields [])
                <$> seq 0 (length (shp_fields (mkShapefile Demo.shp_fields [])))).
Proof.
  apply (tree_code_length (mkShapefile Demo.shp_fields []) Demo.block_A "0001").
  - intros idx idpart raw width Hfield Hraw Hwidth.
    destruct idx as [|[|idx]].
    + vm_compute in Hfield. injection Hfield as <-. vm_compute in Hraw, Hwidth.
      injection Hraw as <-. injection Hwidth as <-. vm_compute. discriminate.
    + vm_compute in Hfield. injection Hfield as <-. vm_compute in Hraw, Hwidth.
      injection Hraw as <-. injection Hwidth as <-. vm_compute. discriminate.
    + exfalso. revert Hfield. unfold tree_field, fields_of_type.
      change (List.filter (fun f => bool_decide (field_type f = "tree"%string))
                (shp_fields (mkShapefile Demo.shp_fields [])))
        with [mkField "STATE" "tree" (Some 0) (Some 2);
              mkField "BLOCK" "tree" (Some 1) (Some 2)].
      cbn [List.filter field_pos].
      rewrite !bool_decide_eq_false_2 by (intros [=]; lia). done.
  - vm_compute; reflexivity.
Defined.

(** ** The dictionary of subjects *)

Lemma assoc_dict_set k k' v (d : pydict) :
  assoc k (dict_set k' v d) = if bool_decide (k' = k) then Some v else assoc k d.
Proof.
  induction d as [|[k0 v0] d IH]; simpl; [done|].
  destruct (decide (k0 = k')) as [->|Hne0].
  - rewrite (bool_decide_eq_true_2 (k' = k')) by done. simpl.
    by destruct (bool_decide (k' = k)).
  - rewrite (bool_decide_eq_false_2 (k0 = k')) by done. simpl. rewrite IH.
    destruct (decide (k0 = k)) as [->|Hne].
    + rewrite (bool_decide_eq_true_2 (k = k)) by done.
      by rewrite (bool_decide_eq_false_2 (k' = k)) by congruence.
    + by rewrite (bool_decide_eq_false_2 (k0 = k)) by done.
Qed.

Lemma alias_loop st children acc found :
  for_each (fun _ elem => sub ← get_subject st elem; OK (Some sub)) children acc
  = OK found ->
  match last children with
  | Some elem => ∃ sub, found = Some sub ∧ get_subject st elem = OK sub
  | None => found = acc
  end.
Proof.
  revert acc. induction children as [|elem children IH]; intros acc Hrun.
  - by injection Hrun as <-.
  - rewrite for_each_cons in Hrun. apply bind_OK in Hrun as (acc1 & Hone & Hrest).
    apply bind_OK in Hone as (sub & Hsub & Hone). injection Hone as <-.
    apply IH in Hrest. destruct children as [|elem' children].
    + simpl in *. subst. by exists sub.
    + change (last (elem :: elem' :: children)) with (last (elem' :: children)).
      destruct (last (elem' :: children)) eqn:Hlast; [exact Hrest|].
      by apply last_None in Hlast.
Qed.

(** X23: every entry of the dictionary [import_shape] builds comes from
    a [Subject] element of the configuration: an attribute field is
    mapped to the Subject its element resolves to (the one its last
    [Subject] child names, or else the one its id names), and the key
    of that Subject's name followed by [_by_id] is mapped to an
    attribute field. *)
Theorem subject_objects_entries st subject_fields so k v :
  make_subject_objects st subject_fields = OK so ->
  assoc k so = Some v ->
  ∃ sconfig pk sub,
    sconfig ∈ subject_fields ∧
    resolved_subject st sconfig = OK (pk, sub) ∧
    (k = sc_field sconfig ∧ v = DSubject pk sub ∨
     k = subject_name sub +:+ "_by_id" ∧ v = DField (sc_field sconfig)).
Proof.
  unfold make_subject_objects. intros Hrun. revert k v.
  eapply (for_each_invariant
            (fun so => ∀ k v, assoc k so = Some v ->
               ∃ sconfig pk sub,
                 sconfig ∈ subject_fields ∧
                 resolved_subject st sconfig = OK (pk, sub) ∧
                 (k = sc_field sconfig ∧ v = DSubject pk sub ∨
                  k = subject_name sub +:+ "_by_id" ∧ v = DField (sc_field sconfig)))
            (fun sconfig => sconfig ∈ subject_fields)); [| | |exact Hrun].
  - intros d sconfig d' Hin Hd Hstep k v Hk.
    apply bind_OK in Hstep as (found & Hfound & Hstep).
    apply bind_OK in Hstep as ([pk sub] & Hsub & Hstep). injection Hstep as <-.
    assert (resolved_subject st sconfig = OK (pk, sub)) as Hres.
    { unfold resolved_subject. apply alias_loop in Hfound.
      destruct (last (sc_children sconfig)) as [elem|]; simpl.
      - destruct Hfound as (sub' & -> & Hsub'). congruence.
      - by subst. }
    simpl in Hk. rewrite !assoc_dict_set in Hk.
    destruct (bool_decide (subject_name sub +:+ "_by_id" = k)) eqn:Hby.
    { apply bool_decide_eq_true in Hby. injection Hk as <-.
      exists sconfig, pk, sub. split_and!; [done..|]. by right. }
    destruct (bool_decide (sc_field sconfig = k)) eqn:Hfield.
    { apply bool_decide_eq_true in Hfield. injection Hk as <-.
      exists sconfig, pk, sub. split_and!; [done..|]. by left. }
    by apply Hd.
  - by apply Forall_forall.
  - intros k v Hk. done.
Qed.

Lemma subject_objects_entries_witness :
  ∃ sconfig pk sub,
    sconfig ∈ Demo.subject_fields ∧
    resolved_subject Demo.empty_store sconfig = OK (pk, sub) ∧
    ("WHITE"%string = sc_field sconfig ∧
     DSubject 1 (mkSubject "popwhite" (Some 0%nat)) = DSubject pk sub ∨
     "WHITE"%string = subject_name sub +:+ "_by_id" ∧
     DSubject 1 (mkSubject "popwhite" (Some 0%nat)) = DField (sc_field sconfig)).
Proof.
  apply (subject_objects_entries Demo.empty_store Demo.subject_fields Demo.subject_objects
           "WHITE" (DSubject 1 (mkSubject "popwhite" (Some 0%nat))));
    vm_compute; reflexivity.
Defined.

(** ** The Assigner: a denominator that is not mapped *)

Section unmapped.
Context `{Backend}.

Lemma assigner_loop_subjects g so feat items st st' :
  for_each (set_one_characteristic g so feat) items st = OK st' ->
  subjects st' = subjects st.
Proof.
  revert st. induction items as [|item items IH]; intros st Hrun.
  - by injection Hrun as <-.
  - rewrite for_each_cons in Hrun. apply bind_OK in Hrun as (st1 & Hone & Hrest).
    rewrite (IH _ Hrest). by apply set_one_characteristic_static in Hone as [? _].
Qed.

(** X24: when a subject of the dictionary has a denominator whose
    [_by_id] key the dictionary lacks (the denominator is not among the
    subjects of the geolevel), the Assigner raises [KeyError] on
    reaching the subject's attribute: nothing is saved for it, and the
    exception leaves the Assigner. *)
Theorem unmapped_denominator_raises
    g so feat st st1 before after attr subject obj den den_subject value :
  so = before ++ (attr, DSubject subject obj) :: after ->
  for_each (set_one_characteristic g so feat) before st = OK st1 ->
  endswith attr "_by_id" = false ->
  percentage_denominator obj = Some den ->
  subjects st !! den = Some den_subject ->
  assoc (subject_name den_subject +:+ "_by_id") so = None ->
  quantized_field feat attr = OK value ->
  set_geounit_characteristic g so feat st = Raise KeyError.
Proof.
  intros Hso Hbefore Hattr Hden Hsubject Hkey Hvalue.
  unfold set_geounit_characteristic. rewrite Hso at 2.
  rewrite for_each_app, Hbefore. simpl.
  rewrite Hattr, Hvalue. simpl.
  unfold characteristic_percentage. rewrite Hden.
  rewrite (assigner_loop_subjects _ _ _ _ _ _ Hbefore), Hsubject. simpl.
  unfold dict_get. rewrite Hkey. done.
Qed.

End unmapped.

(** The white population mapped without the total population it is a
    share of. *)
Lemma unmapped_denominator_raises_witness :
  set_geounit_characteristic (H := accepting_backend) 0
    [("WHITE"%string, DSubject 1 (mkSubject "popwhite" (Some 0%nat)));
     ("popwhite_by_id"%string, DField "WHITE")]
    Demo.block_A Demo.empty_store
  = Raise KeyError.
Proof.
  apply (unmapped_denominator_raises (H := accepting_backend) 0
           [("WHITE"%string, DSubject 1 (mkSubject "popwhite" (Some 0%nat)));
            ("popwhite_by_id"%string, DField "WHITE")]
           Demo.block_A Demo.empty_store Demo.empty_store []
           [("popwhite_by_id"%string, DField "WHITE")]
           "WHITE" 1 (mkSubject "popwhite" (Some 0%nat)) 0 (mkSubject "poptot" None)
           (mkDecimal false 451234 (-4)));
    vm_compute; reflexivity.
Defined.

(** ** The percentage of a rounded number *)

(** C6 (the code at a value whose fifth fractional digit is above 5):
    block B has 45.12346 for the white population and 150 for the total.
    The Assigner divides the number it stores, 45.1235, by 150.0000 and
    hands 0.3008233333... to the store, which at 8 fractional digits is
    0.30082333 under either rounding; the truncated number 45.1234 over
    150.0000, truncated to 8 digits, is 0.30082266.  On the spec's own
    example, a tie, the two agree. *)
Theorem percentage_divides_rounded_number :
  (st ← import_shape (H := CellGeos.ops) (H0 := accepting_backend)
          (Demo.blocks_config [Demo.block_A; Demo.block_B]) Demo.empty_store;
   OK (number <$> stored_characteristic st 1 1,
       percentage <$> stored_characteristic st 1 1))
  = OK (Some 451235,
        Some (PyDecimal (mkDecimal false 3008233333333333333333333333 (-28)))) ∧
  _rescale (mkDecimal false 3008233333333333333333333333 (-28)) (-8) ROUND_DOWN
  = mkDecimal false 30082333 (-8) ∧
  _rescale (mkDecimal false 3008233333333333333333333333 (-28)) (-8) ROUND_HALF_EVEN
  = mkDecimal false 30082333 (-8) ∧
  spec_percentage "45.12346" "150" = Some (PyDecimal (mkDecimal false 30082266 (-8))) ∧
  spec_percentage "45.12345" "100.00000"
  = Some (PyDecimal (mkDecimal false 45123400 (-8))).
Proof. vm_compute. done. Qed.

(** ** The centre of a unit *)

Section centre.
Context `{GeosOps}.

(** The centre [normalized] returns is the centroid of the geometry
    when that is within the geometry, and otherwise what the fallback
    computes from the first polygon, which the code does not test. *)
Lemma normalized_center tolerance g simple c :
  normalized tolerance (Some g) = OK (g, simple, c) ->
  ∃ c0, geos_centroid g = OK c0 ∧
        (geos_within c0 g = OK true ∧ c = c0 ∨
         geos_within c0 g = OK false ∧ centroid_fallback g = OK c).
Proof.
  unfold normalized. intros Hrun.
  apply bind_OK in Hrun as (g0 & [= <-]%of_option_OK & Hrun).
  apply bind_OK in Hrun as (tol & _ & Hrun).
  apply bind_OK in Hrun as (simple0 & _ & Hrun).
  apply bind_OK in Hrun as (simple1 & _ & Hrun).
  apply bind_OK in Hrun as (c0 & Hc0 & Hrun).
  apply bind_OK in Hrun as (inside & Hinside & Hrun).
  apply bind_OK in Hrun as (c1 & Hc1 & Hrun).
  injection Hrun as _ <-. exists c0. split; [done|].
  destruct inside.
  - left. by injection Hc1 as <-.
  - by right.
Qed.

End centre.

(** C9 (the code at a polygon whose centre of area lies on its
    boundary): the inverted T has its centroid at (4, 1), on the upper
    edge of its foot, which is not within it.  The horizontal line
    through (4, 1) meets the polygon along that edge, through the stem
    and along the edge again; the first piece runs from (0, 1) to
    (2, 1), and the unit is stored with its midpoint (1, 1) as centre,
    a point of the boundary, not within the geometry.  The midpoints of
    the other piece of the boundary, (6, 1), and of the whole line,
    (9/2, 1), are not within it either; the midpoint of the piece
    through the stem alone is.  On a square ring, whose centroid falls
    in the hole, the stored centre is within the geometry. *)
Theorem fallback_centre_on_boundary :
  (st ← import_shape (H := RingGeos.ops) (H0 := accepting_backend)
          (Demo.blocks_config [Tee.feature]) Demo.empty_store;
   OK ((fun u => (geom u, center u, geos_within (GeosOps := RingGeos.ops) (center u) (geom u)))
         <$> geounits st !! 0%nat))
  = OK (Some (mkGeom (MultiPolygon [[Tee.ring]]) None, Tee.point 1 1, OK false)) ∧
  geos_centroid (GeosOps := RingGeos.ops) (mkGeom (MultiPolygon [[Tee.ring]]) None)
  = OK (Tee.point 4 1) ∧
  geos_within (GeosOps := RingGeos.ops) (Tee.point 4 1)
    (mkGeom (MultiPolygon [[Tee.ring]]) None) = OK false ∧
  geos_intersection (GeosOps := RingGeos.ops)
    (mkGeom (LineString [(0, 1); (9, 1)]%Q) None) (mkGeom (Polygon [Tee.ring]) None)
  = OK (mkGeom (MultiLineString [[(0, 1); (2, 1)]; [(2, 1); (3, 1)]; [(3, 1); (9, 1)]]%Q)
               None) ∧
  (geos_within (GeosOps := RingGeos.ops) (Tee.point 6 1)
     (mkGeom (MultiPolygon [[Tee.ring]]) None),
   geos_within (GeosOps := RingGeos.ops) (Tee.point (9 # 2) 1)
     (mkGeom (MultiPolygon [[Tee.ring]]) None),
   geos_within (GeosOps := RingGeos.ops) (Tee.point (5 # 2) 1)
     (mkGeom (MultiPolygon [[Tee.ring]]) None))
  = (OK false, OK false, OK true) ∧
  (st ← import_shape (H := RingGeos.ops) (H0 := accepting_backend)
          (Demo.blocks_config [Ring.feature]) Demo.empty_store;
   OK ((fun u => (center u, geos_within (GeosOps := RingGeos.ops) (center u) (geom u)))
         <$> geounits st !! 0%nat))
  = OK (Some (Tee.point (1 # 2) (3 # 2), OK true)).
Proof. vm_compute. done. Qed.
